(** * JpegToFramebufferConverter: scale decision, fixed-point scaling engine,
      quantisation and cache write-through

    A shallow embedding of [lib/Epub/Epub/converters/JpegToFramebufferConverter.cpp].
    Machine integers are [Z] with the 32-bit wrap-around written out, the
    [float] computations of the scale decision are IEEE binary32 values
    ([spec_float] at precision 24), the decoded block is a window of byte
    memory addressed from [pPixels], and the effects of one call (decoder
    life cycle, pixels drawn, cache operations) are a list of events. *)

From Stdlib Require Import ZArith Lia Bool List String Ascii QArith Qround.
From Stdlib Require Import Floats.SpecFloat.
From stdpp Require Import base list list_numbers.

Local Open Scope Z_scope.

(** ** Machine integers

    The 32-bit results the code produces by a narrowing cast from [int64_t]
    or by the [int32_t] product [dst * invScaleFP] are wrapped with [wrap32];
    bytes are wrapped with [wrap8].  Sums and differences of coordinates are
    taken on [Z]: for coordinates of an image that fits the device they
    stay far inside the [int] range. *)

(** Value of an integer expression once stored in an [int] / [int32_t]. *)
Definition wrap32 (z : Z) : Z := (z + 2 ^ 31) mod 2 ^ 32 - 2 ^ 31.

(** Value of an integer expression once stored in a [uint8_t]. *)
Definition wrap8 (z : Z) : Z := z mod 2 ^ 8.

Definition in_int32 (z : Z) : Prop := - 2 ^ 31 <= z < 2 ^ 31.

(** ** Fixed-point 16.16 constants *)

Definition FP_SHIFT : Z := 16.
Definition FP_ONE : Z := Z.shiftl 1 FP_SHIFT.
Definition FP_MASK : Z := FP_ONE - 1.

Definition JPEG_DECODER_APPROX_SIZE : Z := 20 * 1024.
Definition MIN_FREE_HEAP_FOR_JPEG : Z := JPEG_DECODER_APPROX_SIZE + 16 * 1024.

(** ** IEEE binary32 ([float]) *)

Module Float32.

Definition prec : Z := 24.
Definition emax : Z := 128.

Definition float := spec_float.

Definition valid (f : float) : bool := valid_binary prec emax f.

Definition is_finite (f : float) : bool :=
  match f with
  | S754_zero _ | S754_finite _ _ _ => true
  | _ => false
  end.

(** [(float)n] for an integer [n]: round to nearest, ties to even. *)
Definition of_int (n : Z) : float := binary_normalize prec emax n 0 false.

Definition mul : float -> float -> float := SFmul prec emax.
Definition div : float -> float -> float := SFdiv prec emax.
Definition ltb : float -> float -> bool := SFltb.
Definition leb : float -> float -> bool := SFleb.

(** The literals of the source: [1.0f], [0.5f], [0.25f], [0.125f]. *)
Definition one : float := Eval vm_compute in of_int 1.
Definition half : float := Eval vm_compute in div (of_int 1) (of_int 2).
Definition quarter : float := Eval vm_compute in div (of_int 1) (of_int 4).
Definition eighth : float := Eval vm_compute in div (of_int 1) (of_int 8).

(** [(int)f]: truncation toward zero.  The conversion of a NaN or an
    infinity is undefined in C++; the model answers 0 there.  The target
    size converts finite products only ([truncated_product]). *)
Definition to_int (f : float) : Z :=
  match f with
  | S754_finite s m e =>
      let a := if 0 <=? e then Z.pos m * 2 ^ e else Z.pos m / 2 ^ (- e) in
      if s then - a else a
  | _ => 0
  end.

(** The real number a finite value denotes, as the fraction
    [m * 2^(e+149) / 2^149]; every valid binary32 exponent is at least
    [-149]. *)
Definition scaled (f : float) : Z :=
  match f with
  | S754_finite s m e => cond_Zopp s (Z.pos m * 2 ^ (e + 149))
  | _ => 0
  end.

Definition B2Q (f : float) : Q := Qmake (scaled f) (2 ^ 149)%positive.

Definition nonneg_finite (f : float) : bool :=
  match f with
  | S754_zero _ | S754_finite false _ _ => true
  | _ => false
  end.

End Float32.

(** ** Magnitude of a binary32 value *)

(** A valid positive finite value whose magnitude, the number of mantissa
    digits plus the exponent, lies between [lo] and [hi]: a number in
    [[2^(lo-1), 2^hi)]. *)
Definition positiveMagnitude (f : Float32.float) (lo hi : Z) : Prop :=
  exists (m : positive) (e : Z),
    f = S754_finite false m e
    /\ Float32.valid f = true
    /\ lo <= Z.pos (digits2_pos m) + e <= hi.

(** ** Data model *)

Module RenderConfig.
Record t := mk {
  x : Z;
  y : Z;
  maxWidth : Z;
  maxHeight : Z;
  useExactDimensions : bool;
  useDithering : bool;
  cachePath : string
}.
End RenderConfig.

(** The [jpegScaleOption] values of the decode engine (JPEGDEC). *)
Inductive JpegScaleOption :=
  | JPEG_SCALE_NONE
  | JPEG_SCALE_HALF
  | JPEG_SCALE_QUARTER
  | JPEG_SCALE_EIGHTH.

(** ** Scale decision *)

(** [chooseJpegScale]: the scale denominator and the option handed to the
    engine. *)
Definition chooseJpegScale (targetScale : Float32.float) : Z * JpegScaleOption :=
  if Float32.leb targetScale Float32.eighth then (8, JPEG_SCALE_EIGHTH)
  else if Float32.leb targetScale Float32.quarter then (4, JPEG_SCALE_QUARTER)
  else if Float32.leb targetScale Float32.half then (2, JPEG_SCALE_HALF)
  else (1, JPEG_SCALE_NONE).

(** The [if (isProgressive) ... else ...] of [decodeToFramebuffer]. *)
Definition selectJpegScale (isProgressive : bool) (targetScale : Float32.float)
  : Z * JpegScaleOption :=
  if isProgressive then (8, JPEG_SCALE_EIGHTH) else chooseJpegScale targetScale.

Record TargetSize := {
  targetScale : Float32.float;
  destWidth : Z;
  destHeight : Z
}.

(** "Calculate overall target scale" in [decodeToFramebuffer]. *)
Definition computeTargetSize (config : RenderConfig.t) (srcWidth srcHeight : Z)
  : TargetSize :=
  if RenderConfig.useExactDimensions config
     && (0 <? RenderConfig.maxWidth config)
     && (0 <? RenderConfig.maxHeight config)
  then
    {| targetScale :=
         Float32.div (Float32.of_int (RenderConfig.maxWidth config))
                     (Float32.of_int srcWidth);
       destWidth := RenderConfig.maxWidth config;
       destHeight := RenderConfig.maxHeight config |}
  else
    let scaleX :=
      if (0 <? RenderConfig.maxWidth config)
         && (RenderConfig.maxWidth config <? srcWidth)
      then Float32.div (Float32.of_int (RenderConfig.maxWidth config))
                       (Float32.of_int srcWidth)
      else Float32.one in
    let scaleY :=
      if (0 <? RenderConfig.maxHeight config)
         && (RenderConfig.maxHeight config <? srcHeight)
      then Float32.div (Float32.of_int (RenderConfig.maxHeight config))
                       (Float32.of_int srcHeight)
      else Float32.one in
    let ts := if Float32.ltb scaleX scaleY then scaleX else scaleY in
    let ts := if Float32.ltb Float32.one ts then Float32.one else ts in
    {| targetScale := ts;
       destWidth := Float32.to_int (Float32.mul (Float32.of_int srcWidth) ts);
       destHeight := Float32.to_int (Float32.mul (Float32.of_int srcHeight) ts) |}.

(** The fine scale pair: two independent integer divisions, each stored in
    an [int32_t].  C++ [/] truncates toward zero ([Z.quot]).  The forward
    factor divides by the scaled source width, which is at least 1 for a
    positive source. *)
Definition computeFineScaleFP (destWidth scaledSrcWidth : Z) : Z :=
  wrap32 (Z.quot (destWidth * FP_ONE) scaledSrcWidth).

(** The inverse factor divides by [destWidth], which the code does not
    guard: for [destWidth = 0] the division is undefined in C++ and the
    factor has no value. *)
Definition computeInvScaleFP (destWidth scaledSrcWidth : Z) : option Z :=
  if destWidth =? 0 then None
  else Some (wrap32 (Z.quot (scaledSrcWidth * FP_ONE) destWidth)).

(** [(src + denom - 1) / denom] *)
Definition scaledDim (src denom : Z) : Z := Z.quot (src + denom - 1) denom.

(** ** The decoded block and the per-call context *)

(** A block handed to the draw callback.  [pPixels] is the byte memory seen
    from the block's base pointer: offset [i] is [pixels[i]].  The block owns
    offsets [0 .. iWidth * iHeight - 1]; C++ reads outside of them are not
    checked and return whatever the memory holds. *)
Module JPEGDRAW.
Record t := mk {
  x : Z;
  y : Z;
  iWidth : Z;
  iWidthUsed : Z;
  iHeight : Z;
  pPixels : Z -> Z
}.
End JPEGDRAW.

Record JpegContext := {
  config : RenderConfig.t;
  screenWidth : Z;
  screenHeight : Z;
  scaledSrcWidth : Z;
  scaledSrcHeight : Z;
  dstWidth : Z;
  dstHeight : Z;
  fineScaleFP : Z;
  invScaleFP : Z;
  caching : bool
}.

(** What one call does to its collaborators, in program order. *)
Inductive Event :=
  | EvNewDecoder
  | EvDeleteDecoder
  | EvOpen (path : string)
  | EvClose
  | EvSetPixelType
  | EvCacheAllocate (width height originX originY : Z)
  | EvDecode (option : JpegScaleOption)
  | EvDrawPixel (outX outY level : Z)
  | EvCacheSetPixel (outX outY level : Z)
  | EvCacheWriteToFile (path : string).

(** [pixels[i]] as a [uint8_t]. *)
Definition load (pixels : Z -> Z) (i : Z) : Z := wrap8 (pixels i).

(** Offsets of the block's valid samples. *)
Definition validSample (pDraw : JPEGDRAW.t) (lx ly : Z) : Prop :=
  0 <= lx < JPEGDRAW.iWidthUsed pDraw /\ 0 <= ly < JPEGDRAW.iHeight pDraw.

(** ** Destination footprint of a block *)

Record Footprint := {
  dstXStart : Z;
  dstXEnd : Z;
  dstYStart : Z;
  dstYEnd : Z
}.

(** [(int)((int64_t)v * fineScaleFP >> FP_SHIFT)] *)
Definition mapToDst (fineScaleFP v : Z) : Z :=
  wrap32 (Z.shiftr (v * fineScaleFP) FP_SHIFT).

Definition footprint (ctx : JpegContext) (pDraw : JPEGDRAW.t) : Footprint :=
  let cfgX := RenderConfig.x (config ctx) in
  let cfgY := RenderConfig.y (config ctx) in
  let blockX := JPEGDRAW.x pDraw in
  let blockY := JPEGDRAW.y pDraw in
  let srcYEnd := blockY + JPEGDRAW.iHeight pDraw in
  let srcXEnd := blockX + JPEGDRAW.iWidthUsed pDraw in
  let dstYStart := mapToDst (fineScaleFP ctx) blockY in
  let dstYEnd :=
    if scaledSrcHeight ctx <=? srcYEnd then dstHeight ctx
    else mapToDst (fineScaleFP ctx) srcYEnd in
  let dstXStart := mapToDst (fineScaleFP ctx) blockX in
  let dstXEnd :=
    if scaledSrcWidth ctx <=? srcXEnd then dstWidth ctx
    else mapToDst (fineScaleFP ctx) srcXEnd in
  let clampYMax := dstHeight ctx in
  let clampYMax :=
    if screenHeight ctx - cfgY <? clampYMax then screenHeight ctx - cfgY
    else clampYMax in
  let dstYStart := if dstYStart <? - cfgY then - cfgY else dstYStart in
  let dstYEnd := if clampYMax <? dstYEnd then clampYMax else dstYEnd in
  let clampXMax := dstWidth ctx in
  let clampXMax :=
    if screenWidth ctx - cfgX <? clampXMax then screenWidth ctx - cfgX
    else clampXMax in
  let dstXStart := if dstXStart <? - cfgX then - cfgX else dstXStart in
  let dstXEnd := if clampXMax <? dstXEnd then clampXMax else dstXEnd in
  {| dstXStart := dstXStart; dstXEnd := dstXEnd;
     dstYStart := dstYStart; dstYEnd := dstYEnd |}.

Definition inFootprint (fp : Footprint) (dstX dstY : Z) : Prop :=
  dstXStart fp <= dstX < dstXEnd fp /\ dstYStart fp <= dstY < dstYEnd fp.

(** ** Inverse mapping and sample selection *)

(** [dst * invScaleFP] as an [int32_t]. *)
Definition srcFP (invScaleFP dst : Z) : Z := wrap32 (dst * invScaleFP).

(** The interior range of the bilinear path. *)
Definition safeRange (ctx : JpegContext) (pDraw : JPEGDRAW.t) : Z * Z :=
  let blockX := JPEGDRAW.x pDraw in
  let validW := JPEGDRAW.iWidthUsed pDraw in
  let fp := footprint ctx pDraw in
  let safeXStart :=
    wrap32 (Z.shiftr (blockX * fineScaleFP ctx + FP_MASK) FP_SHIFT) in
  let safeXEnd :=
    wrap32 (Z.shiftr ((blockX + validW - 1) * fineScaleFP ctx) FP_SHIFT) in
  let safeXStart := if safeXStart <? dstXStart fp then dstXStart fp else safeXStart in
  let safeXEnd := if dstXEnd fp <? safeXEnd then dstXEnd fp else safeXEnd in
  let safeXEnd := if safeXEnd <? safeXStart then safeXStart else safeXEnd in
  (safeXStart, safeXEnd).

(** Row pair of the bilinear path: [ly0], [ly1] after clamping. *)
Definition bilinearRows (ctx : JpegContext) (pDraw : JPEGDRAW.t) (dstY : Z) : Z * Z :=
  let blockH := JPEGDRAW.iHeight pDraw in
  let ly0 := Z.shiftr (srcFP (invScaleFP ctx) dstY) FP_SHIFT - JPEGDRAW.y pDraw in
  let ly1 := ly0 + 1 in
  let ly0 := if ly0 <? 0 then 0 else ly0 in
  let ly0 := if blockH <=? ly0 then blockH - 1 else ly0 in
  let ly1 := if blockH <=? ly1 then blockH - 1 else ly1 in
  (ly0, ly1).

(** Unclamped lower column index [lx0] of the bilinear path. *)
Definition bilinearLx0 (ctx : JpegContext) (pDraw : JPEGDRAW.t) (dstX : Z) : Z :=
  Z.shiftr (srcFP (invScaleFP ctx) dstX) FP_SHIFT - JPEGDRAW.x pDraw.

(** Column pair in the left edge loop: clamped on both sides. *)
Definition leftEdgeCols (ctx : JpegContext) (pDraw : JPEGDRAW.t) (dstX : Z) : Z * Z :=
  let validW := JPEGDRAW.iWidthUsed pDraw in
  let lx0 := bilinearLx0 ctx pDraw dstX in
  let lx1 := lx0 + 1 in
  let lx0 := if lx0 <? 0 then 0 else lx0 in
  let lx1 := if lx1 <? 0 then 0 else lx1 in
  let lx0 := if validW <=? lx0 then validW - 1 else lx0 in
  let lx1 := if validW <=? lx1 then validW - 1 else lx1 in
  (lx0, lx1).

(** Column pair in the interior loop: no clamping. *)
Definition interiorCols (ctx : JpegContext) (pDraw : JPEGDRAW.t) (dstX : Z) : Z * Z :=
  let lx0 := bilinearLx0 ctx pDraw dstX in
  (lx0, lx0 + 1).

(** Column pair in the right edge loop: clamped from above only. *)
Definition rightEdgeCols (ctx : JpegContext) (pDraw : JPEGDRAW.t) (dstX : Z) : Z * Z :=
  let validW := JPEGDRAW.iWidthUsed pDraw in
  let lx0 := bilinearLx0 ctx pDraw dstX in
  let lx1 := lx0 + 1 in
  let lx0 := if validW <=? lx0 then validW - 1 else lx0 in
  let lx1 := if validW <=? lx1 then validW - 1 else lx1 in
  (lx0, lx1).

(** The 16.16 weighted sums of one interpolated pixel; [row0] and [row1]
    are the two row pointers, [cols] the column pair. *)
Definition bilinearGray (ctx : JpegContext) (pDraw : JPEGDRAW.t)
    (rows cols : Z * Z) (dstX dstY : Z) : Z :=
  let stride := JPEGDRAW.iWidth pDraw in
  let pixels := JPEGDRAW.pPixels pDraw in
  let fy := Z.land (srcFP (invScaleFP ctx) dstY) FP_MASK in
  let fyInv := FP_ONE - fy in
  let fx := Z.land (srcFP (invScaleFP ctx) dstX) FP_MASK in
  let fxInv := FP_ONE - fx in
  let row0 i := load pixels (fst rows * stride + i) in
  let row1 i := load pixels (snd rows * stride + i) in
  let top := Z.shiftr (row0 (fst cols) * fxInv + row0 (snd cols) * fx) FP_SHIFT in
  let bot := Z.shiftr (row1 (fst cols) * fxInv + row1 (snd cols) * fx) FP_SHIFT in
  wrap8 (Z.shiftr (top * fyInv + bot * fy) FP_SHIFT).

(** Clamped row and column of the nearest-neighbour path. *)
Definition nearestLy (ctx : JpegContext) (pDraw : JPEGDRAW.t) (dstY : Z) : Z :=
  let blockH := JPEGDRAW.iHeight pDraw in
  let ly := Z.shiftr (srcFP (invScaleFP ctx) dstY) FP_SHIFT - JPEGDRAW.y pDraw in
  let ly := if ly <? 0 then 0 else ly in
  if blockH <=? ly then blockH - 1 else ly.

Definition nearestLx (ctx : JpegContext) (pDraw : JPEGDRAW.t) (dstX : Z) : Z :=
  let validW := JPEGDRAW.iWidthUsed pDraw in
  let lx := Z.shiftr (srcFP (invScaleFP ctx) dstX) FP_SHIFT - JPEGDRAW.x pDraw in
  let lx := if lx <? 0 then 0 else lx in
  if validW <=? lx then validW - 1 else lx.

(** The half-open range [lo, hi) a [for] loop runs over. *)
Definition range (lo hi : Z) : list Z := seqZ lo (hi - lo).

Section Callback.

(** The ordered-dither quantiser of [DitherUtils.h]. *)
Variable applyBayerDither4Level : Z -> Z -> Z -> Z.

(** Gray sample to 4-level value. *)
Definition quantize (useDithering : bool) (gray outX outY : Z) : Z :=
  if useDithering then applyBayerDither4Level gray outX outY
  else
    let dithered := wrap8 (Z.quot gray 85) in
    if 3 <? dithered then 3 else dithered.

(** The tail of every inner loop body: quantise, draw, write through. *)
Definition emitPixel (ctx : JpegContext) (dstX dstY gray : Z) : list Event :=
  let outX := RenderConfig.x (config ctx) + dstX in
  let outY := RenderConfig.y (config ctx) + dstY in
  let dithered := quantize (RenderConfig.useDithering (config ctx)) gray outX outY in
  EvDrawPixel outX outY dithered
    :: (if caching ctx then [EvCacheSetPixel outX outY dithered] else []).

Definition identityPath (ctx : JpegContext) (pDraw : JPEGDRAW.t) : list Event :=
  let fp := footprint ctx pDraw in
  dstY ← range (dstYStart fp) (dstYEnd fp);
  dstX ← range (dstXStart fp) (dstXEnd fp);
  emitPixel ctx dstX dstY
    (load (JPEGDRAW.pPixels pDraw)
       ((dstY - JPEGDRAW.y pDraw) * JPEGDRAW.iWidth pDraw
        + (dstX - JPEGDRAW.x pDraw))).

Definition bilinearPath (ctx : JpegContext) (pDraw : JPEGDRAW.t) : list Event :=
  let fp := footprint ctx pDraw in
  let '(safeXStart, safeXEnd) := safeRange ctx pDraw in
  dstY ← range (dstYStart fp) (dstYEnd fp);
  let rows := bilinearRows ctx pDraw dstY in
  (dstX ← range (dstXStart fp) safeXStart;
   emitPixel ctx dstX dstY
     (bilinearGray ctx pDraw rows (leftEdgeCols ctx pDraw dstX) dstX dstY))
  ++ (dstX ← range safeXStart safeXEnd;
      emitPixel ctx dstX dstY
        (bilinearGray ctx pDraw rows (interiorCols ctx pDraw dstX) dstX dstY))
  ++ (dstX ← range safeXEnd (dstXEnd fp);
      emitPixel ctx dstX dstY
        (bilinearGray ctx pDraw rows (rightEdgeCols ctx pDraw dstX) dstX dstY)).

Definition nearestPath (ctx : JpegContext) (pDraw : JPEGDRAW.t) : list Event :=
  let fp := footprint ctx pDraw in
  dstY ← range (dstYStart fp) (dstYEnd fp);
  dstX ← range (dstXStart fp) (dstXEnd fp);
  emitPixel ctx dstX dstY
    (load (JPEGDRAW.pPixels pDraw)
       (nearestLy ctx pDraw dstY * JPEGDRAW.iWidth pDraw
        + nearestLx ctx pDraw dstX)).

(** [jpegDrawCallback]: the events of one block.  The context, its config
    and its renderer are set by [decodeToFramebuffer] before the engine
    runs, so the null-pointer exit is not taken and the callback always
    answers 1 (continue). *)
Definition jpegDrawCallback (ctx : JpegContext) (pDraw : JPEGDRAW.t) : list Event :=
  if (JPEGDRAW.iWidth pDraw <=? 0) || (JPEGDRAW.iHeight pDraw <=? 0)
     || (JPEGDRAW.iWidthUsed pDraw <=? 0)
  then []
  else
    let fp := footprint ctx pDraw in
    if (dstYEnd fp <=? dstYStart fp) || (dstXEnd fp <=? dstXStart fp) then []
    else if fineScaleFP ctx =? FP_ONE then identityPath ctx pDraw
    else if FP_ONE <? fineScaleFP ctx then bilinearPath ctx pDraw
    else nearestPath ctx pDraw.

End Callback.

(** ** The decode orchestrator *)

(** The answers of the collaborators during one call: the heap, the decode
    engine (JPEGDEC), the dimension validator of the base converter, the
    renderer and the pixel cache.  [decodeBlocks] are the blocks the engine
    hands to the draw callback, in delivery order, before [decode] returns
    [decodeResult]. *)
Record World := {
  freeHeap : Z;
  newDecoderOk : bool;
  openResult : Z;
  jpegWidth : Z;
  jpegHeight : Z;
  validateImageDimensions : Z -> Z -> bool;
  jpegProgressive : bool;
  rendererScreenWidth : Z;
  rendererScreenHeight : Z;
  cacheAllocate : Z -> Z -> Z -> Z -> bool;
  decodeBlocks : JpegScaleOption -> list JPEGDRAW.t;
  decodeResult : JpegScaleOption -> Z
}.

Definition stringEmpty (s : string) : bool :=
  match s with
  | EmptyString => true
  | _ => false
  end.

(** The context [decodeToFramebuffer] fills in before the engine runs;
    [None] where the inverse factor is undefined. *)
Definition makeContext (w : World) (cfg : RenderConfig.t) (size : TargetSize)
    (jpegScaleDenom : Z) (cachingActive : bool) : option JpegContext :=
  let sw := scaledDim (jpegWidth w) jpegScaleDenom in
  match computeInvScaleFP (destWidth size) sw with
  | None => None
  | Some invScale =>
      Some {| config := cfg;
              screenWidth := rendererScreenWidth w;
              screenHeight := rendererScreenHeight w;
              scaledSrcWidth := sw;
              scaledSrcHeight := scaledDim (jpegHeight w) jpegScaleDenom;
              dstWidth := destWidth size;
              dstHeight := destHeight size;
              fineScaleFP := computeFineScaleFP (destWidth size) sw;
              invScaleFP := invScale;
              caching := cachingActive |}
  end.

Section Orchestrator.

Variable applyBayerDither4Level : Z -> Z -> Z -> Z.

(** [decodeToFramebuffer]: the returned flag and the events of a call that
    returns; [None] for a call whose behaviour is undefined, which is the
    call that reaches the inverse factor with a zero [destWidth].  Log lines
    are not events. *)
Definition decodeToFramebuffer (w : World) (imagePath : string)
    (cfg : RenderConfig.t) : option (bool * list Event) :=
  if freeHeap w <? MIN_FREE_HEAP_FOR_JPEG then Some (false, [])
  else if negb (newDecoderOk w) then Some (false, [])
  else if negb (openResult w =? 1)
  then Some (false, [EvNewDecoder; EvOpen imagePath; EvDeleteDecoder])
  else
    let srcWidth := jpegWidth w in
    let srcHeight := jpegHeight w in
    if (srcWidth <=? 0) || (srcHeight <=? 0)
    then Some (false, [EvNewDecoder; EvOpen imagePath; EvClose; EvDeleteDecoder])
    else if negb (validateImageDimensions w srcWidth srcHeight)
    then Some (false, [EvNewDecoder; EvOpen imagePath; EvClose; EvDeleteDecoder])
    else
      let size := computeTargetSize cfg srcWidth srcHeight in
      let '(jpegScaleDenom, jpegScaleOption) :=
        selectJpegScale (jpegProgressive w) (targetScale size) in
      let requested := negb (stringEmpty (RenderConfig.cachePath cfg)) in
      let allocated :=
        cacheAllocate w (destWidth size) (destHeight size)
                      (RenderConfig.x cfg) (RenderConfig.y cfg) in
      let cachingActive := requested && allocated in
      match makeContext w cfg size jpegScaleDenom cachingActive with
      | None => None
      | Some ctx =>
          let setup :=
            [EvNewDecoder; EvOpen imagePath; EvSetPixelType]
            ++ (if requested
                then [EvCacheAllocate (destWidth size) (destHeight size)
                                      (RenderConfig.x cfg) (RenderConfig.y cfg)]
                else [])
            ++ [EvDecode jpegScaleOption] in
          let drawn :=
            pDraw ← decodeBlocks w jpegScaleOption;
            jpegDrawCallback applyBayerDither4Level ctx pDraw in
          if negb (decodeResult w jpegScaleOption =? 1)
          then Some (false, setup ++ drawn ++ [EvClose; EvDeleteDecoder])
          else
            Some (true,
                  setup ++ drawn ++ [EvClose; EvDeleteDecoder]
                  ++ (if cachingActive
                      then [EvCacheWriteToFile (RenderConfig.cachePath cfg)]
                      else []))
      end.

End Orchestrator.

Definition isDraw (e : Event) : bool :=
  match e with
  | EvDrawPixel _ _ _ => true
  | _ => false
  end.


(** ** Block geometry *)

(** A block the engine can deliver for the scaled source of [ctx]: it starts
    inside the image and is not empty. *)
Definition blockInImage (ctx : JpegContext) (b : JPEGDRAW.t) : Prop :=
  0 <= JPEGDRAW.x b < scaledSrcWidth ctx
  /\ 0 <= JPEGDRAW.y b < scaledSrcHeight ctx
  /\ 0 < JPEGDRAW.iWidth b
  /\ 0 < JPEGDRAW.iWidthUsed b
  /\ 0 < JPEGDRAW.iHeight b.

(** The forward mapping of the block's far edges fits an [int]. *)
Definition edgesFitInt (ctx : JpegContext) (b : JPEGDRAW.t) : Prop :=
  (JPEGDRAW.x b + JPEGDRAW.iWidthUsed b) * fineScaleFP ctx < 2 ^ 46
  /\ (JPEGDRAW.y b + JPEGDRAW.iHeight b) * fineScaleFP ctx < 2 ^ 46.

(** Two blocks that cover different samples of the scaled source. *)
Definition sourceDisjoint (b1 b2 : JPEGDRAW.t) : Prop :=
  JPEGDRAW.x b1 + JPEGDRAW.iWidthUsed b1 <= JPEGDRAW.x b2
  \/ JPEGDRAW.x b2 + JPEGDRAW.iWidthUsed b2 <= JPEGDRAW.x b1
  \/ JPEGDRAW.y b1 + JPEGDRAW.iHeight b1 <= JPEGDRAW.y b2
  \/ JPEGDRAW.y b2 + JPEGDRAW.iHeight b2 <= JPEGDRAW.y b1.

(** The output coordinates a list of events draws, in order. *)
Definition drawCoords (l : list Event) : list (Z * Z) :=
  e ← l;
  match e with
  | EvDrawPixel outX outY _ => [(outX, outY)]
  | _ => []
  end.

(** Blocks of one decode call: any two of them cover different samples of
    the scaled source. *)
Fixpoint pairwiseDisjoint (blocks : list JPEGDRAW.t) : Prop :=
  match blocks with
  | [] => True
  | b :: rest => Forall (sourceDisjoint b) rest /\ pairwiseDisjoint rest
  end.

(** The source sample a destination coordinate maps back to:
    [(dst * invScaleFP) >> FP_SHIFT]. *)
Definition sourceIndex (invScale dst : Z) : Z :=
  Z.shiftr (srcFP invScale dst) FP_SHIFT.

(** Destination -> source -> destination through the two factors. *)
Definition roundTrip (fineScale invScale dstX : Z) : Z :=
  mapToDst fineScale (sourceIndex invScale dstX).

(** ** Varying the cache collaborator *)

Definition withCachePath (cfg : RenderConfig.t) (path : string) : RenderConfig.t :=
  {| RenderConfig.x := RenderConfig.x cfg;
     RenderConfig.y := RenderConfig.y cfg;
     RenderConfig.maxWidth := RenderConfig.maxWidth cfg;
     RenderConfig.maxHeight := RenderConfig.maxHeight cfg;
     RenderConfig.useExactDimensions := RenderConfig.useExactDimensions cfg;
     RenderConfig.useDithering := RenderConfig.useDithering cfg;
     RenderConfig.cachePath := path |}.


Definition withFreeHeap (w : World) (bytes : Z) : World :=
  {| freeHeap := bytes;
     newDecoderOk := newDecoderOk w;
     openResult := openResult w;
     jpegWidth := jpegWidth w;
     jpegHeight := jpegHeight w;
     validateImageDimensions := validateImageDimensions w;
     jpegProgressive := jpegProgressive w;
     rendererScreenWidth := rendererScreenWidth w;
     rendererScreenHeight := rendererScreenHeight w;
     cacheAllocate := cacheAllocate w;
     decodeBlocks := decodeBlocks w;
     decodeResult := decodeResult w |}.


(** The pixels a call drew, in order. *)
Definition drawnPixels (r : bool * list Event) : list Event :=
  List.filter isDraw (snd r).


(** ** Reference inputs *)

(** A call on a 480x800 screen with enough heap, where the engine opens a
    [width] x [height] source, delivers [blocks] and reports success. *)
Definition referenceWorld (width height : Z) (progressive : bool)
    (blocks : list JPEGDRAW.t) : World :=
  {| freeHeap := 120000;
     newDecoderOk := true;
     openResult := 1;
     jpegWidth := width;
     jpegHeight := height;
     validateImageDimensions := fun _ _ => true;
     jpegProgressive := progressive;
     rendererScreenWidth := 480;
     rendererScreenHeight := 800;
     cacheAllocate := fun _ _ _ _ => true;
     decodeBlocks := fun _ => blocks;
     decodeResult := fun _ => 1 |}.

(** The context [decodeToFramebuffer] builds in [w] for [cfg], without
    caching. *)
Definition contextOf (w : World) (cfg : RenderConfig.t) : option JpegContext :=
  let size := computeTargetSize cfg (jpegWidth w) (jpegHeight w) in
  makeContext w cfg size
    (fst (selectJpegScale (jpegProgressive w) (targetScale size))) false.

(** The contexts of the reference calls below are written out;
    [reference_contexts] checks each against [contextOf]. *)
Definition referenceContext (cfg : RenderConfig.t)
    (scaledWidth scaledHeight width height fineScale invScale : Z)
  : JpegContext :=
  {| config := cfg;
     screenWidth := 480;
     screenHeight := 800;
     scaledSrcWidth := scaledWidth;
     scaledSrcHeight := scaledHeight;
     dstWidth := width;
     dstHeight := height;
     fineScaleFP := fineScale;
     invScaleFP := invScale;
     caching := false |}.

(** A progressive 800x600 source shown at exactly 300x225: the engine
    decodes at 1/8 (100x75) and the callback upscales by three. *)
Definition progressiveConfig : RenderConfig.t :=
  RenderConfig.mk 0 0 300 225 true false EmptyString.

Definition progressiveCtx : JpegContext :=
  referenceContext progressiveConfig 100 75 300 225 196608 21845.

(** Eight 16x16 MCUs decoded at 1/8 make a block of 16 columns and 2 rows.
    The second block of the first block row, uniformly gray. *)
Definition secondColumnBlock : JPEGDRAW.t :=
  JPEGDRAW.mk 16 0 16 16 2 (fun _ => 85).

(** The last block of the fifth block row: 4 valid columns of gray 85 in a
    16-byte stride, the 12 padding columns hold 0. *)
Definition lastColumnBlock : JPEGDRAW.t :=
  JPEGDRAW.mk 96 8 16 4 2
    (fun i => if (0 <=? i) && (i <? 32) && (i mod 16 <? 4) then 85 else 0).

(** A progressive 776x600 source shown at exactly 291x225: the scaled source
    is 97 columns wide, so the last block of a row has one valid column. *)
Definition narrowConfig : RenderConfig.t :=
  RenderConfig.mk 0 0 291 225 true false EmptyString.

Definition narrowCtx : JpegContext :=
  referenceContext narrowConfig 97 75 291 225 196608 21845.

Definition singleColumnBlock : JPEGDRAW.t :=
  JPEGDRAW.mk 96 8 16 1 2
    (fun i => if (0 <=? i) && (i <? 32) && (i mod 16 <? 1) then 85 else 0).

(** The end-to-end example of the specification: a baseline 800x600 source
    fitted into 400x300 is decoded at 1/2 and copied one to one. *)
Definition identityConfig : RenderConfig.t :=
  RenderConfig.mk 0 0 400 300 false false EmptyString.

Definition identityCtx : JpegContext :=
  referenceContext identityConfig 400 300 400 300 65536 65536.

(** A baseline 100x100 source forced to exactly 100x200: the width factor is
    the identity while the destination is taller than the source. *)
Definition tallConfig : RenderConfig.t :=
  RenderConfig.mk 0 0 100 200 true false EmptyString.

Definition tallCtx : JpegContext :=
  referenceContext tallConfig 100 100 100 200 65536 65536.

(** The last block row of that source: 16 rows from y = 96. *)
Definition bottomBlock : JPEGDRAW.t :=
  JPEGDRAW.mk 0 96 112 100 16 (fun i => i).

(** The same block with every byte it owns at 255 and the memory around it
    at 0. *)
Definition brightBottomBlock : JPEGDRAW.t :=
  JPEGDRAW.mk 0 96 112 100 16
    (fun i => if (0 <=? i) && (i <? 112 * 16) then 255 else 0).

(** A 16x16 block at the origin whose byte at offset [i] is [255 - i]. *)
Definition rampBlock : JPEGDRAW.t :=
  JPEGDRAW.mk 0 0 16 16 16 (fun i => 255 - i).

(** A baseline 1200x900 source fitted into 400x300: decoded at 1/2 (600x450)
    and downscaled by nearest neighbour. *)
Definition downscaleCtx : JpegContext :=
  referenceContext identityConfig 600 450 400 300 43690 98304.

(** A stand-in for the ordered-dither quantiser where a concrete one is
    needed. *)
Definition thresholdDither (gray outX outY : Z) : Z :=
  Z.min 3 ((gray + 21 * ((outX + 2 * outY) mod 4)) / 85).

(** ** Pixel events *)

Definition isCacheSet (e : Event) : bool :=
  match e with
  | EvCacheSetPixel _ _ _ => true
  | _ => false
  end.

Definition isPixelEvent (e : Event) : bool := isDraw e || isCacheSet e.

(** The cache operation that writes a drawn pixel through. *)
Definition mirrorToCache (e : Event) : Event :=
  match e with
  | EvDrawPixel outX outY level => EvCacheSetPixel outX outY level
  | _ => e
  end.

(** The cache pixels a call stored, in order. *)
Definition cacheSets (r : bool * list Event) : list Event :=
  List.filter isCacheSet (snd r).

Definition isNewDecoder (e : Event) : bool :=
  match e with EvNewDecoder => true | _ => false end.

Definition isDeleteDecoder (e : Event) : bool :=
  match e with EvDeleteDecoder => true | _ => false end.

Definition isClose (e : Event) : bool :=
  match e with EvClose => true | _ => false end.

Definition countEvents (p : Event -> bool) (l : list Event) : nat :=
  length (List.filter p l).

Section DimensionQuery.

(** The conversion of an [int] to the field type of [ImageDimensions], which
    is declared outside this file. *)
Variable toDimension : Z -> Z.

(** [getDimensionsStatic]: the dimensions written to [out] on success, and
    the events of the call.  No draw callback is registered. *)
Definition getDimensionsStatic (w : World) (imagePath : string)
  : option (Z * Z) * list Event :=
  if freeHeap w <? MIN_FREE_HEAP_FOR_JPEG then (None, [])
  else if negb (newDecoderOk w) then (None, [])
  else if negb (openResult w =? 1)
  then (None, [EvNewDecoder; EvOpen imagePath; EvDeleteDecoder])
  else (Some (toDimension (jpegWidth w), toDimension (jpegHeight w)),
        [EvNewDecoder; EvOpen imagePath; EvClose; EvDeleteDecoder]).

End DimensionQuery.

(** ** Format dispatch *)

(** [tolower] of the C library on one [char], in the default locale. *)
Definition tolower (c : ascii) : ascii :=
  let n := nat_of_ascii c in
  if ((65 <=? n) && (n <=? 90))%nat then ascii_of_nat (n + 32) else c.

(** [for (auto& c : ext) c = tolower(c);] *)
Fixpoint lowerString (s : string) : string :=
  match s with
  | EmptyString => EmptyString
  | String c rest => String (tolower c) (lowerString rest)
  end.

(** [supportsFormat] *)
Definition supportsFormat (extension : string) : bool :=
  let ext := lowerString extension in
  String.eqb ext ".jpg" || String.eqb ext ".jpeg".

(** ** File callbacks *)

Section FileCallbacks.

(** The open file of the storage layer and its two operations as the
    callbacks use them: [f->read(pBuf, len)] answers the file after the read
    and the byte count, negative on error; [f->seek(pos)] answers the file
    after the seek and whether it succeeded. *)
Variable FsFile : Type.
Variable fsRead : FsFile -> Z -> FsFile * Z.
Variable fsSeek : FsFile -> Z -> FsFile * bool.

(** The engine's file record: its position tracker and the handle set by
    [jpegOpen], [None] for a null handle. *)
Record JPEGFILE := {
  iPos : Z;
  fHandle : option FsFile
}.

(** [jpegRead]: the file record after the call and the returned count. *)
Definition jpegRead (pFile : JPEGFILE) (len : Z) : JPEGFILE * Z :=
  match fHandle pFile with
  | None => (pFile, 0)
  | Some f =>
      let '(f', bytesRead) := fsRead f len in
      if bytesRead <? 0
      then ({| iPos := iPos pFile; fHandle := Some f' |}, 0)
      else ({| iPos := wrap32 (iPos pFile + bytesRead); fHandle := Some f' |},
            bytesRead)
  end.

(** [jpegSeek]: the file record after the call and the returned position. *)
Definition jpegSeek (pFile : JPEGFILE) (pos : Z) : JPEGFILE * Z :=
  match fHandle pFile with
  | None => (pFile, -1)
  | Some f =>
      let '(f', ok) := fsSeek f pos in
      if negb ok
      then ({| iPos := iPos pFile; fHandle := Some f' |}, -1)
      else ({| iPos := pos; fHandle := Some f' |}, pos)
  end.

(** The tracker agrees with the position of the open file. *)
Definition tracksPosition (position : FsFile -> Z) (pFile : JPEGFILE) : Prop :=
  match fHandle pFile with
  | None => True
  | Some f => iPos pFile = position f
  end.

End FileCallbacks.

Arguments iPos {FsFile} _.
Arguments fHandle {FsFile} _.
Arguments jpegRead {FsFile} fsRead pFile len.
Arguments jpegSeek {FsFile} fsSeek pFile pos.
Arguments tracksPosition {FsFile} position pFile.

(** A reference storage layer: a file of [fileSize] bytes read from
    [filePosition].  A read delivers what is left, up to [len]; a seek
    succeeds inside the file. *)
Record ByteFile := { fileSize : Z; filePosition : Z }.

Definition byteFileRead (f : ByteFile) (len : Z) : ByteFile * Z :=
  let n := Z.max 0 (Z.min len (fileSize f - filePosition f)) in
  ({| fileSize := fileSize f; filePosition := filePosition f + n |}, n).

Definition byteFileSeek (f : ByteFile) (p : Z) : ByteFile * bool :=
  if (0 <=? p) && (p <=? fileSize f)
  then ({| fileSize := fileSize f; filePosition := p |}, true)
  else (f, false).

(** A file record on a 100-byte file, ten bytes in. *)
Definition openedFile : JPEGFILE ByteFile :=
  {| iPos := 10; fHandle := Some {| fileSize := 100; filePosition := 10 |} |}.

(** ** Further reference inputs *)

(** The first block of the first block row of the progressive source, and
    the block below it. *)
Definition firstColumnBlock : JPEGDRAW.t :=
  JPEGDRAW.mk 0 0 16 16 2 (fun _ => 85).

Definition secondRowBlock : JPEGDRAW.t :=
  JPEGDRAW.mk 0 2 16 16 2 (fun _ => 85).

(** The progressive source delivering its first two blocks. *)
Definition twoBlockWorld : World :=
  referenceWorld 800 600 true [firstColumnBlock; secondColumnBlock].

(** * Properties *)

(** ** Machine arithmetic and list helpers *)

Ltac zbool :=
  repeat match goal with
  | H : (_ <? _) = true |- _ => apply Z.ltb_lt in H
  | H : (_ <? _) = false |- _ => apply Z.ltb_ge in H
  | H : (_ <=? _) = true |- _ => apply Z.leb_le in H
  | H : (_ <=? _) = false |- _ => apply Z.leb_gt in H
  | H : (_ =? _) = true |- _ => apply Z.eqb_eq in H
  | H : (_ =? _) = false |- _ => apply Z.eqb_neq in H
  end.

Ltac split_ifs :=
  repeat match goal with
  | |- context [if ?b then _ else _] => destruct b eqn:?
  | H : context [if ?b then _ else _] |- _ => destruct b eqn:?
  end; zbool.

Lemma wrap32_id (z : Z) : in_int32 z -> wrap32 z = z.
Proof.
  unfold in_int32, wrap32. change (2 ^ 31) with 2147483648.
  change (2 ^ 32) with 4294967296. intros Hz.
  rewrite Z.mod_small; lia.
Qed.

Lemma wrap8_id (z : Z) : 0 <= z < 256 -> wrap8 z = z.
Proof. unfold wrap8. change (2 ^ 8) with 256. intros Hz. apply Z.mod_small; lia. Qed.

Lemma wrap8_range (z : Z) : 0 <= wrap8 z < 256.
Proof. unfold wrap8. change (2 ^ 8) with 256. apply Z.mod_pos_bound; lia. Qed.

Lemma load_range (pixels : Z -> Z) (i : Z) : 0 <= load pixels i < 256.
Proof. apply wrap8_range. Qed.

Lemma shiftr_FP (a : Z) : Z.shiftr a FP_SHIFT = a / 65536.
Proof. unfold FP_SHIFT. rewrite Z.shiftr_div_pow2 by lia. reflexivity. Qed.

Lemma land_FP_MASK (a : Z) : Z.land a FP_MASK = a mod 65536.
Proof. change FP_MASK with (Z.ones 16). rewrite Z.land_ones by lia. reflexivity. Qed.

Lemma FP_ONE_val : FP_ONE = 65536.
Proof. reflexivity. Qed.

Lemma div_bounds (a b : Z) : 0 < b -> a / b * b <= a < a / b * b + b.
Proof.
  intros Hb. pose proof (Z.div_mod a b ltac:(lia)) as Hdm.
  pose proof (Z.mod_pos_bound a b Hb). lia.
Qed.

Lemma mapToDst_div (F v : Z) :
  0 <= F -> 0 <= v -> v * F < 2 ^ 46 -> mapToDst F v = v * F / 65536.
Proof.
  intros HF Hv Hlt. unfold mapToDst. rewrite shiftr_FP.
  apply wrap32_id. unfold in_int32.
  change (2 ^ 46) with 70368744177664 in Hlt.
  change (2 ^ 31) with 2147483648.
  assert (0 <= v * F) by nia.
  assert (0 <= v * F / 65536) by (apply Z.div_pos; lia).
  assert (v * F / 65536 < 2147483648)
    by (apply Z.div_lt_upper_bound; lia).
  lia.
Qed.

Lemma mapToDst_mono (F u v : Z) :
  0 <= F -> 0 <= u <= v -> v * F < 2 ^ 46 -> mapToDst F u <= mapToDst F v.
Proof.
  intros HF Huv Hlt.
  assert (u * F <= v * F) by nia.
  rewrite !mapToDst_div by lia.
  apply Z.div_le_mono; lia.
Qed.

Lemma elem_of_range (lo hi k : Z) : k ∈ range lo hi <-> lo <= k < hi.
Proof. unfold range. rewrite elem_of_seqZ. lia. Qed.

Lemma NoDup_range (lo hi : Z) : NoDup (range lo hi).
Proof. apply NoDup_seqZ. Qed.


Lemma filter_none (p : Event -> bool) (l : list Event) :
  (forall e, e ∈ l -> p e = false) -> List.filter p l = [].
Proof.
  induction l as [|a l IH]; intros Hall; [reflexivity|].
  cbn. rewrite (Hall a) by (apply elem_of_cons; left; reflexivity).
  apply IH. intros e He. apply Hall. apply elem_of_cons. right. exact He.
Qed.

Lemma bind_ext_in {A B : Type} (f g : A -> list B) (l : list A) :
  (forall a, f a = g a) -> l ≫= f = l ≫= g.
Proof.
  intros Hfg. induction l as [|a l IH]; [reflexivity|].
  cbn. rewrite Hfg, IH. reflexivity.
Qed.

(** ** Binary32 comparison and truncation *)

Lemma digits2_pos_bounds (m : positive) :
  2 ^ (Z.pos (digits2_pos m) - 1) <= Z.pos m < 2 ^ Z.pos (digits2_pos m).
Proof.
  induction m as [p IH|p IH|]; cbn [digits2_pos].
  - rewrite Pos2Z.inj_succ.
    replace (Z.succ (Z.pos (digits2_pos p)) - 1) with (Z.succ (Z.pos (digits2_pos p) - 1)) by lia.
    rewrite !Z.pow_succ_r by lia. lia.
  - rewrite Pos2Z.inj_succ.
    replace (Z.succ (Z.pos (digits2_pos p)) - 1) with (Z.succ (Z.pos (digits2_pos p) - 1)) by lia.
    rewrite !Z.pow_succ_r by lia. lia.
  - cbn. lia.
Qed.

(** A valid finite binary32 value has an exponent of at least -149 and a
    mantissa below 2^24, which is at least 2^23 unless the exponent is
    -149. *)
Lemma valid_finite_bounds (s : bool) (m : positive) (e : Z) :
  Float32.valid (S754_finite s m e) = true ->
  -149 <= e /\ Z.pos m < 2 ^ 24 /\ (-149 < e -> 2 ^ 23 <= Z.pos m).
Proof.
  unfold Float32.valid, valid_binary, bounded, canonical_mantissa, fexp, emin.
  unfold Float32.prec, Float32.emax.
  intros H. apply andb_prop in H as [Hc _]. apply Z.eqb_eq in Hc.
  pose proof (digits2_pos_bounds m) as Hd.
  set (d := Z.pos (digits2_pos m)) in *.
  assert (Hd24 : d <= 24) by lia.
  split; [lia|]. split.
  - assert (2 ^ d <= 2 ^ 24) by (apply Z.pow_le_mono_r; lia). lia.
  - intros He. assert (d = 24) by lia. subst d.
    replace (2 ^ 23) with (2 ^ (Z.pos (digits2_pos m) - 1)) by (rewrite H; reflexivity). lia.
Qed.

Lemma scaled_pos (m : positive) (e : Z) :
  -149 <= e -> 0 < Z.pos m * 2 ^ (e + 149).
Proof. intros He. apply Z.mul_pos_pos; [lia|]. apply Z.pow_pos_nonneg; lia. Qed.

Lemma scaled_lt (m1 m2 : positive) (e1 e2 : Z) :
  Float32.valid (S754_finite false m1 e1) = true ->
  Float32.valid (S754_finite false m2 e2) = true ->
  e1 < e2 ->
  Z.pos m1 * 2 ^ (e1 + 149) < Z.pos m2 * 2 ^ (e2 + 149).
Proof.
  intros H1 H2 Hlt.
  apply (valid_finite_bounds false) in H1 as (He1 & Hm1 & _).
  apply (valid_finite_bounds false) in H2 as (He2 & _ & Hm2).
  assert (Hm2' : 2 ^ 23 <= Z.pos m2) by (apply Hm2; lia). clear Hm2.
  assert (Hp1 : 0 < 2 ^ (e1 + 149)) by (apply Z.pow_pos_nonneg; lia).
  replace (e2 + 149) with ((e1 + 149) + (e2 - e1)) by lia.
  rewrite (Z.pow_add_r 2 (e1 + 149) (e2 - e1)) by lia.
  assert (Hge : 2 ^ 1 <= 2 ^ (e2 - e1)) by (apply Z.pow_le_mono_r; lia).
  change (2 ^ 1) with 2 in Hge. change (2 ^ 24) with 16777216 in Hm1.
  change (2 ^ 23) with 8388608 in Hm2'.
  assert (Z.pos m1 * 2 ^ (e1 + 149) < 16777216 * 2 ^ (e1 + 149))
    by (apply Z.mul_lt_mono_pos_r; lia).
  assert (8388608 * 2 <= Z.pos m2 * 2 ^ (e2 - e1))
    by (apply Z.mul_le_mono_nonneg; lia).
  assert (2 ^ (e1 + 149) * (8388608 * 2) <= 2 ^ (e1 + 149) * (Z.pos m2 * 2 ^ (e2 - e1)))
    by (apply Z.mul_le_mono_nonneg_l; lia).
  lia.
Qed.

Lemma compare_scaled_pos (m1 m2 : positive) (e1 e2 : Z) :
  Float32.valid (S754_finite false m1 e1) = true ->
  Float32.valid (S754_finite false m2 e2) = true ->
  match e1 ?= e2 with
  | Lt => Lt
  | Gt => Gt
  | Eq => Pos.compare_cont Eq m1 m2
  end = (Z.pos m1 * 2 ^ (e1 + 149) ?= Z.pos m2 * 2 ^ (e2 + 149)).
Proof.
  intros H1 H2. symmetry.
  destruct (Z.compare_spec e1 e2) as [->|Hlt|Hgt].
  - pose proof (valid_finite_bounds _ _ _ H2) as (He & _).
    assert (Hp : 0 < 2 ^ (e2 + 149)) by (apply Z.pow_pos_nonneg; lia).
    change (Pos.compare_cont Eq m1 m2) with (Z.pos m1 ?= Z.pos m2).
    destruct (Z.compare_spec (Z.pos m1) (Z.pos m2)) as [Heq|Hl|Hg].
    + rewrite Heq. apply Z.compare_refl.
    + apply Z.compare_lt_iff. apply Z.mul_lt_mono_pos_r; assumption.
    + apply Z.compare_gt_iff. apply Z.mul_lt_mono_pos_r; assumption.
  - apply Z.compare_lt_iff. apply scaled_lt; assumption.
  - apply Z.compare_gt_iff. apply scaled_lt; assumption.
Qed.

(** The IEEE comparison of two valid finite values is the comparison of the
    numbers they denote. *)
Lemma SFcompare_scaled (x y : Float32.float) :
  Float32.valid x = true -> Float32.valid y = true ->
  Float32.is_finite x = true -> Float32.is_finite y = true ->
  SFcompare x y = Some (Float32.scaled x ?= Float32.scaled y).
Proof.
  intros Vx Vy Fx Fy.
  destruct x as [sx|sx| |sx mx ex]; try discriminate Fx;
    destruct y as [sy|sy| |sy my ey]; try discriminate Fy;
    cbn [SFcompare Float32.scaled].
  - reflexivity.
  - pose proof (valid_finite_bounds _ _ _ Vy) as (He & _).
    pose proof (scaled_pos my ey He).
    destruct sy; cbn [cond_Zopp]; f_equal; symmetry;
      [apply Z.compare_gt_iff|apply Z.compare_lt_iff]; lia.
  - pose proof (valid_finite_bounds _ _ _ Vx) as (He & _).
    pose proof (scaled_pos mx ex He).
    destruct sx; cbn [cond_Zopp]; f_equal; symmetry;
      [apply Z.compare_lt_iff|apply Z.compare_gt_iff]; lia.
  - pose proof (valid_finite_bounds _ _ _ Vx) as (Hex & _).
    pose proof (valid_finite_bounds _ _ _ Vy) as (Hey & _).
    pose proof (scaled_pos mx ex Hex). pose proof (scaled_pos my ey Hey).
    pose proof (compare_scaled_pos mx my ex ey Vx Vy) as Hpos.
    destruct sx, sy; cbn [cond_Zopp]; f_equal.
    + rewrite Z.compare_opp.
      rewrite (Z.compare_antisym (Z.pos mx * 2 ^ (ex + 149))
                 (Z.pos my * 2 ^ (ey + 149))), <- Hpos.
      destruct (ex ?= ey); reflexivity.
    + symmetry. apply Z.compare_lt_iff. lia.
    + symmetry. apply Z.compare_gt_iff. lia.
    + exact Hpos.
Qed.

Lemma leb_scaled (x y : Float32.float) :
  Float32.valid x = true -> Float32.valid y = true ->
  Float32.is_finite x = true -> Float32.is_finite y = true ->
  Float32.leb x y = Qle_bool (Float32.B2Q x) (Float32.B2Q y).
Proof.
  intros Vx Vy Fx Fy. unfold Float32.leb, SFleb.
  rewrite (SFcompare_scaled x y Vx Vy Fx Fy).
  unfold Qle_bool, Float32.B2Q. cbn [Qnum Qden].
  set (a := Float32.scaled x). set (b := Float32.scaled y).
  set (d := Z.pos (2 ^ 149)).
  assert (Hd : 0 < d) by reflexivity.
  destruct (Z.compare_spec a b) as [Heq|Hlt|Hgt]; symmetry.
  - apply Z.leb_le. subst a. lia.
  - apply Z.leb_le. apply Z.mul_le_mono_nonneg_r; lia.
  - apply Z.leb_gt. apply Z.mul_lt_mono_pos_r; lia.
Qed.

Lemma ltb_scaled (x y : Float32.float) :
  Float32.valid x = true -> Float32.valid y = true ->
  Float32.is_finite x = true -> Float32.is_finite y = true ->
  Float32.ltb x y = negb (Qle_bool (Float32.B2Q y) (Float32.B2Q x)).
Proof.
  intros Vx Vy Fx Fy. unfold Float32.ltb, SFltb.
  rewrite (SFcompare_scaled x y Vx Vy Fx Fy).
  unfold Qle_bool, Float32.B2Q. cbn [Qnum Qden].
  set (a := Float32.scaled x). set (b := Float32.scaled y).
  set (d := Z.pos (2 ^ 149)).
  assert (Hd : 0 < d) by reflexivity.
  destruct (Z.compare_spec a b) as [Heq|Hlt|Hgt]; symmetry.
  - apply negb_false_iff. apply Z.leb_le. subst a. lia.
  - apply negb_true_iff. apply Z.leb_gt. apply Z.mul_lt_mono_pos_r; lia.
  - apply negb_false_iff. apply Z.leb_le. apply Z.mul_le_mono_nonneg_r; lia.
Qed.

(** Truncation of a valid non-negative value is the floor of the number it
    denotes. *)
Lemma to_int_floor (f : Float32.float) :
  Float32.valid f = true -> Float32.nonneg_finite f = true ->
  Float32.to_int f = Qfloor (Float32.B2Q f).
Proof.
  intros Vf Nf. destruct f as [s|s| |s m e]; try discriminate Nf.
  - reflexivity.
  - destruct s; [discriminate Nf|].
    pose proof (valid_finite_bounds _ _ _ Vf) as (He & _).
    unfold Float32.to_int, Float32.B2Q, Float32.scaled, Qfloor. cbn [cond_Zopp].
    change (Z.pos (2 ^ 149)) with (2 ^ 149).
    destruct (0 <=? e) eqn:E.
    + apply Z.leb_le in E. rewrite Z.pow_add_r by lia.
      rewrite Z.mul_assoc. rewrite Z.div_mul; [reflexivity|].
      apply Z.pow_nonzero; lia.
    + apply Z.leb_gt in E.
      replace (2 ^ 149) with (2 ^ (- e) * 2 ^ (e + 149))
        by (rewrite <- Z.pow_add_r by lia; f_equal; lia).
      rewrite Z.div_mul_cancel_r; [reflexivity| |];
        apply Z.pow_nonzero; lia.
Qed.

Lemma B2Q_eighth : (Float32.B2Q Float32.eighth == 1 # 8)%Q.
Proof. reflexivity. Qed.

Lemma B2Q_quarter : (Float32.B2Q Float32.quarter == 1 # 4)%Q.
Proof. reflexivity. Qed.

Lemma B2Q_half : (Float32.B2Q Float32.half == 1 # 2)%Q.
Proof. reflexivity. Qed.

Lemma B2Q_one : (Float32.B2Q Float32.one == 1)%Q.
Proof. reflexivity. Qed.

(** ** Scale decision *)

(** C2.  The denominator is 8 for a progressive source; otherwise it is 8
    when the target scale is at most 1/8, 4 when it is at most 1/4, 2 when it
    is at most 1/2 and 1 above, each bound included on the smaller side.
    The target scale is any finite binary32 value, compared as the number it
    denotes. *)
Theorem C2_scale_denominator_selection
    (isProgressive : bool) (ts : Float32.float) :
  Float32.valid ts = true ->
  Float32.is_finite ts = true ->
  fst (selectJpegScale isProgressive ts)
  = if isProgressive then 8
    else if Qle_bool (Float32.B2Q ts) (1 # 8) then 8
    else if Qle_bool (Float32.B2Q ts) (1 # 4) then 4
    else if Qle_bool (Float32.B2Q ts) (1 # 2) then 2
    else 1.
Proof.
  intros Hv Hf. unfold selectJpegScale, chooseJpegScale.
  destruct isProgressive; [reflexivity|].
  rewrite !(leb_scaled ts) by (assumption || reflexivity).
  rewrite B2Q_eighth, B2Q_quarter, B2Q_half.
  destruct (Qle_bool (Float32.B2Q ts) (1 # 8)); [reflexivity|].
  destruct (Qle_bool (Float32.B2Q ts) (1 # 4)); [reflexivity|].
  destruct (Qle_bool (Float32.B2Q ts) (1 # 2)); reflexivity.
Qed.

Lemma C2_scale_denominator_witness :
  (Float32.valid Float32.eighth = true /\ Float32.is_finite Float32.eighth = true)
  /\ fst (selectJpegScale false Float32.eighth) = 8.
Proof.
  split; [split; reflexivity|].
  exact (C2_scale_denominator_selection false Float32.eighth eq_refl eq_refl).
Defined.

(** The thresholds on the binary32 values nearest to the decimal test
    points of the specification. *)
Example scale_threshold_points :
  let scale n := Float32.div (Float32.of_int n) (Float32.of_int 10000) in
  map (fun n => fst (selectJpegScale false (scale n)))
      [1250; 1251; 2500; 2501; 5000; 5001]
  = [8; 4; 4; 2; 2; 1]
  /\ map (fun n => fst (selectJpegScale true (scale n))) [1250; 5001; 10000]
     = [8; 8; 8].
Proof. split; reflexivity. Qed.

(** A NaN target scale fails every comparison. *)
Example scale_of_nan : selectJpegScale false S754_nan = (1, JPEG_SCALE_NONE).
Proof. reflexivity. Qed.

(** ** Binary32 rounding: validity and magnitude of results *)

(** The exponent function of binary32: [fexp] at precision 24 with
    [emin = -149]. *)
Lemma fexp_val (x : Z) : fexp Float32.prec Float32.emax x = Z.max (x - 24) (-149).
Proof. reflexivity. Qed.

Lemma Zdigits2_bounds (m : Z) :
  0 < m -> 2 ^ (Zdigits2 m - 1) <= m < 2 ^ Zdigits2 m.
Proof.
  intros Hm. destruct m as [|p|p]; try lia. apply digits2_pos_bounds.
Qed.

Lemma Zdigits2_pos (m : Z) : 0 < m -> 1 <= Zdigits2 m.
Proof. intros Hm. destruct m as [|p|p]; try lia. cbn. lia. Qed.

Lemma Zdigits2_unique (m d : Z) :
  2 ^ (d - 1) <= m < 2 ^ d -> 1 <= d -> Zdigits2 m = d.
Proof.
  intros [Hlo Hhi] Hd.
  assert (Hm : 0 < m).
  { assert (0 < 2 ^ (d - 1)) by (apply Z.pow_pos_nonneg; lia). lia. }
  pose proof (Zdigits2_bounds m Hm) as [Hlo' Hhi'].
  pose proof (Zdigits2_pos m Hm) as Hd'.
  set (d' := Zdigits2 m) in *.
  destruct (Z_lt_le_dec d' d) as [Hlt|Hge].
  - assert (2 ^ d' <= 2 ^ (d - 1)) by (apply Z.pow_le_mono_r; lia). lia.
  - destruct (Z_lt_le_dec d d') as [Hgt|Hle]; [|lia].
    assert (2 ^ d <= 2 ^ (d' - 1)) by (apply Z.pow_le_mono_r; lia). lia.
Qed.

(** Dropping [n] low bits drops [n] digits. *)
Lemma Zdigits2_shiftr (m n : Z) :
  0 < m -> 0 <= n < Zdigits2 m ->
  0 < m / 2 ^ n /\ Zdigits2 (m / 2 ^ n) = Zdigits2 m - n.
Proof.
  intros Hm Hn. pose proof (Zdigits2_bounds m Hm) as [Hlo Hhi].
  set (d := Zdigits2 m) in *.
  assert (Hp : 0 < 2 ^ n) by (apply Z.pow_pos_nonneg; lia).
  assert (Hlow : 2 ^ (d - n - 1) <= m / 2 ^ n).
  { apply Z.div_le_lower_bound; [lia|].
    rewrite <- Z.pow_add_r by lia. replace (n + (d - n - 1)) with (d - 1) by lia.
    exact Hlo. }
  assert (Hup : m / 2 ^ n < 2 ^ (d - n)).
  { apply Z.div_lt_upper_bound; [lia|].
    rewrite <- Z.pow_add_r by lia. replace (n + (d - n)) with d by lia.
    exact Hhi. }
  assert (0 < 2 ^ (d - n - 1)) by (apply Z.pow_pos_nonneg; lia).
  split; [lia|]. apply Zdigits2_unique; [|lia]. split; assumption.
Qed.

(** Appending [n] low zero bits adds [n] digits. *)
Lemma Zdigits2_shiftl (m n : Z) :
  0 < m -> 0 <= n -> Zdigits2 (m * 2 ^ n) = Zdigits2 m + n.
Proof.
  intros Hm Hn. pose proof (Zdigits2_bounds m Hm) as [Hlo Hhi].
  pose proof (Zdigits2_pos m Hm).
  set (d := Zdigits2 m) in *.
  assert (Hp : 0 < 2 ^ n) by (apply Z.pow_pos_nonneg; lia).
  apply Zdigits2_unique; [|lia]. split.
  - replace (d + n - 1) with ((d - 1) + n) by lia.
    rewrite Z.pow_add_r by lia. apply Z.mul_le_mono_nonneg_r; lia.
  - rewrite Z.pow_add_r by lia. apply Z.mul_lt_mono_pos_r; lia.
Qed.

Lemma Zdigits2_mono (a b : Z) : 0 < a <= b -> Zdigits2 a <= Zdigits2 b.
Proof.
  intros [Ha Hab].
  pose proof (Zdigits2_bounds a Ha) as [Hlo _].
  pose proof (Zdigits2_bounds b ltac:(lia)) as [_ Hhi].
  destruct (Z_lt_le_dec (Zdigits2 b) (Zdigits2 a)) as [Hlt|]; [|lia].
  assert (2 ^ Zdigits2 b <= 2 ^ (Zdigits2 a - 1))
    by (apply Z.pow_le_mono_r; lia).
  lia.
Qed.

Lemma Zdigits2_succ (m : Z) : 0 < m -> Zdigits2 (m + 1) <= Zdigits2 m + 1.
Proof.
  intros Hm.
  pose proof (Zdigits2_bounds m Hm) as [_ Hhi].
  pose proof (Zdigits2_bounds (m + 1) ltac:(lia)) as [Hlo _].
  pose proof (Zdigits2_pos m Hm).
  destruct (Z_lt_le_dec (Zdigits2 m + 1) (Zdigits2 (m + 1))) as [Hlt|]; [|lia].
  assert (2 ^ (Zdigits2 m + 1) <= 2 ^ (Zdigits2 (m + 1) - 1))
    by (apply Z.pow_le_mono_r; lia).
  rewrite Z.pow_add_r in * by lia. lia.
Qed.

(** The digits of a product and of a quotient. *)
Lemma Zdigits2_mul (a b : Z) :
  0 < a -> 0 < b ->
  Zdigits2 a + Zdigits2 b - 1 <= Zdigits2 (a * b) <= Zdigits2 a + Zdigits2 b.
Proof.
  intros Ha Hb.
  pose proof (Zdigits2_bounds a Ha) as [Hla Hha].
  pose proof (Zdigits2_bounds b Hb) as [Hlb Hhb].
  pose proof (Zdigits2_pos a Ha). pose proof (Zdigits2_pos b Hb).
  assert (Hab : 0 < a * b) by (apply Z.mul_pos_pos; assumption).
  pose proof (Zdigits2_bounds (a * b) Hab) as [Hl Hh].
  set (da := Zdigits2 a) in *. set (db := Zdigits2 b) in *.
  set (d := Zdigits2 (a * b)) in *.
  assert (Hlow : 2 ^ (da + db - 2) <= a * b).
  { replace (da + db - 2) with ((da - 1) + (db - 1)) by lia.
    rewrite Z.pow_add_r by lia.
    apply Z.mul_le_mono_nonneg; try assumption; apply Z.pow_nonneg; lia. }
  assert (Hupp : a * b < 2 ^ (da + db)).
  { rewrite Z.pow_add_r by lia. apply Z.mul_lt_mono_nonneg; lia. }
  split.
  - destruct (Z_lt_le_dec d (da + db - 1)) as [Hlt|]; [|lia].
    assert (2 ^ d <= 2 ^ (da + db - 2)) by (apply Z.pow_le_mono_r; lia). lia.
  - destruct (Z_lt_le_dec (da + db) d) as [Hlt|]; [|lia].
    assert (2 ^ (da + db) <= 2 ^ (d - 1)) by (apply Z.pow_le_mono_r; lia). lia.
Qed.

Lemma Zdigits2_div (a b : Z) :
  0 < a -> 0 < b -> Zdigits2 b < Zdigits2 a ->
  0 < a / b
  /\ Zdigits2 a - Zdigits2 b <= Zdigits2 (a / b) <= Zdigits2 a - Zdigits2 b + 1.
Proof.
  intros Ha Hb Hd.
  pose proof (Zdigits2_bounds a Ha) as [Hla Hha].
  pose proof (Zdigits2_bounds b Hb) as [Hlb Hhb].
  pose proof (Zdigits2_pos a Ha). pose proof (Zdigits2_pos b Hb).
  set (da := Zdigits2 a) in *. set (db := Zdigits2 b) in *.
  assert (Hlow : 2 ^ (da - db - 1) <= a / b).
  { apply Z.div_le_lower_bound; [lia|].
    assert (b * 2 ^ (da - db - 1) <= 2 ^ db * 2 ^ (da - db - 1))
      by (apply Z.mul_le_mono_nonneg_r; [apply Z.pow_nonneg|]; lia).
    rewrite <- Z.pow_add_r in * by lia.
    replace (db + (da - db - 1)) with (da - 1) in * by lia. lia. }
  assert (Hupp : a / b < 2 ^ (da - db + 1)).
  { apply Z.div_lt_upper_bound; [lia|].
    assert (2 ^ (db - 1) * 2 ^ (da - db + 1) <= b * 2 ^ (da - db + 1))
      by (apply Z.mul_le_mono_nonneg_r; [apply Z.pow_nonneg|]; lia).
    rewrite <- Z.pow_add_r in * by lia.
    replace (db - 1 + (da - db + 1)) with da in * by lia. lia. }
  assert (Hq : 0 < a / b).
  { assert (0 < 2 ^ (da - db - 1)) by (apply Z.pow_pos_nonneg; lia). lia. }
  split; [exact Hq|].
  pose proof (Zdigits2_bounds (a / b) Hq) as [Hl Hh].
  set (d := Zdigits2 (a / b)) in *.
  split.
  - destruct (Z_lt_le_dec d (da - db)) as [Hlt|]; [|lia].
    assert (2 ^ d <= 2 ^ (da - db - 1)) by (apply Z.pow_le_mono_r; lia). lia.
  - destruct (Z_lt_le_dec (da - db + 1) d) as [Hlt|]; [|lia].
    assert (2 ^ (da - db + 1) <= 2 ^ (d - 1)) by (apply Z.pow_le_mono_r; lia). lia.
Qed.

(** One right shift halves a non-negative mantissa. *)
Lemma shr_1_m (r : shr_record) :
  0 <= shr_m r -> shr_m (shr_1 r) = shr_m r / 2.
Proof.
  destruct r as [m r s]. cbn [shr_m]. intros Hm.
  rewrite <- Z.div2_div.
  destruct m as [|[p|p|]|p]; try lia; reflexivity.
Qed.

Lemma pow2_xO (p : positive) : 2 ^ Z.pos p~0 = 2 ^ Z.pos p * 2 ^ Z.pos p.
Proof. rewrite <- Z.pow_add_r by lia. f_equal. lia. Qed.

Lemma pow2_xI (p : positive) : 2 ^ Z.pos p~1 = 2 * (2 ^ Z.pos p * 2 ^ Z.pos p).
Proof.
  replace (Z.pos p~1) with (1 + (Z.pos p + Z.pos p)) by lia.
  rewrite !Z.pow_add_r by lia. reflexivity.
Qed.

Lemma iter_shr_1_m (p : positive) (r : shr_record) :
  0 <= shr_m r ->
  shr_m (SpecFloat.iter_pos shr_1 p r) = shr_m r / 2 ^ Z.pos p.
Proof.
  revert r. induction p as [p IH|p IH|]; intros r Hr; cbn [SpecFloat.iter_pos].
  - assert (H1 : 0 <= shr_m (shr_1 r))
      by (rewrite shr_1_m by exact Hr; apply Z.div_pos; lia).
    assert (H2 : 0 <= shr_m (SpecFloat.iter_pos shr_1 p (shr_1 r)))
      by (rewrite IH by exact H1; apply Z.div_pos; [|apply Z.pow_pos_nonneg]; lia).
    rewrite IH by exact H2. rewrite IH by exact H1. rewrite shr_1_m by exact Hr.
    rewrite !Z.div_div
      by first [lia | apply Z.pow_pos_nonneg; lia | apply Z.pow_nonzero; lia].
    rewrite pow2_xI. f_equal; ring.
  - assert (H1 : 0 <= shr_m (SpecFloat.iter_pos shr_1 p r))
      by (rewrite IH by exact Hr; apply Z.div_pos; [|apply Z.pow_pos_nonneg]; lia).
    rewrite IH by exact H1. rewrite IH by exact Hr.
    rewrite Z.div_div
      by first [lia | apply Z.pow_pos_nonneg; lia | apply Z.pow_nonzero; lia].
    rewrite pow2_xO. f_equal; ring.
  - rewrite shr_1_m by exact Hr. reflexivity.
Qed.

Lemma shr_record_of_loc_m (m : Z) (l : location) :
  shr_m (shr_record_of_loc m l) = m.
Proof. destruct l as [|[]]; reflexivity. Qed.

(** The first step of rounding: a positive mantissa whose magnitude
    [digits + exponent] is above [emin] keeps its magnitude, stays positive,
    and gets the exponent [max e (fexp magnitude)]. *)
Lemma shr_fexp_spec (m e : Z) (l : location) :
  0 < m -> -149 < Zdigits2 m + e ->
  let r := shr_fexp Float32.prec Float32.emax m e l in
  0 < shr_m (fst r)
  /\ snd r = Z.max e (fexp Float32.prec Float32.emax (Zdigits2 m + e))
  /\ Zdigits2 (shr_m (fst r)) + snd r = Zdigits2 m + e.
Proof.
  intros Hm Hmag. cbv zeta. unfold shr_fexp, shr. rewrite fexp_val.
  pose proof (Zdigits2_pos m Hm) as Hd.
  set (n := Z.max (Zdigits2 m + e - 24) (-149) - e).
  destruct n as [|p|p] eqn:En; cbn [fst snd];
    rewrite ?shr_record_of_loc_m.
  - split; [exact Hm|]. split; lia.
  - rewrite iter_shr_1_m by (rewrite shr_record_of_loc_m; lia).
    rewrite shr_record_of_loc_m.
    destruct (Zdigits2_shiftr m (Z.pos p) Hm ltac:(lia)) as [Hq Hdq].
    split; [exact Hq|]. split; lia.
  - split; [exact Hm|]. split; lia.
Qed.

Lemma round_nearest_even_range (m : Z) (l : location) :
  m <= round_nearest_even m l <= m + 1.
Proof.
  unfold round_nearest_even. destruct l as [|[]]; try lia.
  destruct (Z.even m); lia.
Qed.

(** Rounding a positive mantissa that is not shorter than its exponent
    requires, with a magnitude inside the exponent range, gives a valid
    finite value of the same sign whose magnitude grew by at most one. *)
Lemma binary_round_aux_finite (sx : bool) (mx ex : Z) (lx : location) :
  0 < mx ->
  ex <= fexp Float32.prec Float32.emax (Zdigits2 mx + ex) ->
  -149 < Zdigits2 mx + ex <= 127 ->
  exists (m : positive) (e : Z),
    binary_round_aux Float32.prec Float32.emax sx mx ex lx = S754_finite sx m e
    /\ Float32.valid (S754_finite sx m e) = true
    /\ Zdigits2 mx + ex <= Z.pos (digits2_pos m) + e <= Zdigits2 mx + ex + 1.
Proof.
  intros Hm Hlen Hmag. unfold binary_round_aux.
  pose proof (shr_fexp_spec mx ex lx Hm ltac:(lia)) as H1. cbv zeta in H1.
  destruct (shr_fexp Float32.prec Float32.emax mx ex lx) as [mrs' e'].
  cbn [fst snd] in H1. destruct H1 as (Hm' & He' & Hmag').
  set (m1 := round_nearest_even (shr_m mrs') (loc_of_shr_record mrs')).
  pose proof (round_nearest_even_range (shr_m mrs') (loc_of_shr_record mrs')) as Hr.
  fold m1 in Hr.
  assert (Hm1 : 0 < m1) by lia.
  assert (Hd1 : Zdigits2 (shr_m mrs') <= Zdigits2 m1 <= Zdigits2 (shr_m mrs') + 1).
  { split; [apply Zdigits2_mono; lia|].
    transitivity (Zdigits2 (shr_m mrs' + 1)); [apply Zdigits2_mono; lia|].
    apply Zdigits2_succ; exact Hm'. }
  pose proof (shr_fexp_spec m1 e' loc_Exact Hm1 ltac:(lia)) as H2. cbv zeta in H2.
  destruct (shr_fexp Float32.prec Float32.emax m1 e' loc_Exact) as [mrs'' e''].
  cbn [fst snd] in H2. destruct H2 as (Hm'' & He'' & Hmag'').
  rewrite fexp_val in *.
  destruct (shr_m mrs'') as [|m|m] eqn:Em; try lia.
  cbn [Zdigits2] in Hmag''.
  replace (e'' <=? Float32.emax - Float32.prec) with true
    by (symmetry; apply Z.leb_le; change (Float32.emax - Float32.prec) with 104; lia).
  exists m, e''. split; [reflexivity|]. split; [|lia].
  unfold Float32.valid, valid_binary, bounded, canonical_mantissa.
  rewrite fexp_val. apply andb_true_intro. split.
  - apply Z.eqb_eq. lia.
  - apply Z.leb_le. change (Float32.emax - Float32.prec) with 104. lia.
Qed.

Lemma positiveMagnitude_weaken (f : Float32.float) (lo hi lo' hi' : Z) :
  positiveMagnitude f lo hi -> lo' <= lo -> hi <= hi' ->
  positiveMagnitude f lo' hi'.
Proof.
  intros (m & e & Hf & Hv & Hmag) Hlo Hhi. exists m, e. repeat split; try assumption; lia.
Qed.

Lemma positiveMagnitude_finite (f : Float32.float) (lo hi : Z) :
  positiveMagnitude f lo hi ->
  Float32.valid f = true /\ Float32.is_finite f = true
  /\ Float32.nonneg_finite f = true.
Proof. intros (m & e & -> & Hv & _). repeat split; exact Hv. Qed.

Lemma Zpos_iter_xO (p n : positive) :
  Z.pos (Pos.iter xO p n) = Z.pos p * 2 ^ Z.pos n.
Proof.
  rewrite (Pos.iter_swap_gen _ _ Z.pos xO (Z.mul 2)) by reflexivity.
  change (Pos.iter (Z.mul 2) (Z.pos p) n) with (Z.shiftl (Z.pos p) (Z.pos n)).
  apply Z.shiftl_mul_pow2. lia.
Qed.

Lemma int_digits (n : Z) : 0 < n < 2 ^ 31 -> 1 <= Zdigits2 n <= 31.
Proof.
  intros [Hn Hlt]. split; [apply Zdigits2_pos; exact Hn|].
  pose proof (Zdigits2_bounds n Hn) as [Hlo _].
  destruct (Z_lt_le_dec 31 (Zdigits2 n)) as [Hgt|]; [|lia].
  assert (2 ^ 31 <= 2 ^ (Zdigits2 n - 1)) by (apply Z.pow_le_mono_r; lia). lia.
Qed.

(** [(float)n] of a positive [int] is a valid positive value of the
    magnitude of [n], or one more when rounding carries. *)
Lemma of_int_positive (n : Z) :
  0 < n < 2 ^ 31 ->
  positiveMagnitude (Float32.of_int n) (Zdigits2 n) (Zdigits2 n + 1).
Proof.
  intros Hn. pose proof (int_digits n Hn) as Hd.
  destruct n as [|p|p]; try lia.
  unfold Float32.of_int, binary_normalize, binary_round, shl_align.
  cbn [Zdigits2] in Hd. rewrite fexp_val.
  set (d := Z.pos (digits2_pos p)) in *.
  assert (Hdig : Zdigits2 (Z.pos p) = d) by reflexivity.
  destruct (Z.max (d + 0 - 24) (-149) - 0) as [|k|k] eqn:Ek.
  - destruct (binary_round_aux_finite false (Z.pos p) 0 loc_Exact)
      as (m & e & Hr & Hv & Hmag);
      [lia | rewrite fexp_val, Hdig; lia | rewrite Hdig; lia |].
    exists m, e. rewrite Hr. rewrite Hdig in Hmag. cbn [Zdigits2].
    repeat split; try assumption; lia.
  - destruct (binary_round_aux_finite false (Z.pos p) 0 loc_Exact)
      as (m & e & Hr & Hv & Hmag);
      [lia | rewrite fexp_val, Hdig; lia | rewrite Hdig; lia |].
    exists m, e. rewrite Hr. rewrite Hdig in Hmag. cbn [Zdigits2].
    repeat split; try assumption; lia.
  - assert (Hsh : Zdigits2 (Z.pos (Pos.iter xO p k)) = d + Z.pos k).
    { rewrite Zpos_iter_xO. rewrite Zdigits2_shiftl by lia. reflexivity. }
    destruct (binary_round_aux_finite false (Z.pos (Pos.iter xO p k))
                (Z.max (d + 0 - 24) (-149)) loc_Exact)
      as (m & e & Hr & Hv & Hmag);
      [lia | rewrite fexp_val, Hsh; lia | rewrite Hsh; lia |].
    exists m, e. rewrite Hr. rewrite Hsh in Hmag. cbn [Zdigits2].
    repeat split; try assumption; lia.
Qed.

(** The binary32 quotient of two valid positive values is a valid positive
    value; its magnitude is the difference of the magnitudes, up to two. *)
Lemma div_positive (x y : Float32.float) (lx hx ly hy : Z) :
  positiveMagnitude x lx hx -> positiveMagnitude y ly hy ->
  -149 < lx - hy -> hx - ly <= 126 ->
  positiveMagnitude (Float32.div x y) (lx - hy) (hx - ly + 2).
Proof.
  intros (m1 & e1 & -> & _ & Hm1) (m2 & e2 & -> & _ & Hm2) Hlo Hhi.
  unfold Float32.div, SFdiv, SFdiv_core_binary. cbn [xorb Zdigits2].
  set (d1 := Z.pos (digits2_pos m1)) in *. set (d2 := Z.pos (digits2_pos m2)) in *.
  assert (Hd1 : 1 <= d1) by (subst d1; lia).
  assert (Hd2 : 1 <= d2) by (subst d2; lia).
  rewrite fexp_val.
  set (M := d1 + e1 - (d2 + e2)).
  set (e' := Z.min (Z.max (M - 24) (-149)) (e1 - e2)).
  set (s := e1 - e2 - e').
  assert (Hs : d2 - d1 + 1 <= s) by (subst s e' M; lia).
  assert (Hm' : match s with
                | Z.pos _ => Z.shiftl (Z.pos m1) s
                | 0 => Z.pos m1
                | Z.neg _ => 0
                end = Z.pos m1 * 2 ^ s).
  { destruct s as [|k|k] eqn:Es.
    - cbn. lia.
    - apply Z.shiftl_mul_pow2. lia.
    - subst e' M. lia. }
  rewrite Hm'.
  assert (Hs0 : 0 <= s) by (subst s e' M; lia).
  assert (Hda : Zdigits2 (Z.pos m1 * 2 ^ s) = d1 + s)
    by (rewrite Zdigits2_shiftl by lia; reflexivity).
  assert (Ha : 0 < Z.pos m1 * 2 ^ s)
    by (apply Z.mul_pos_pos; [lia|apply Z.pow_pos_nonneg; lia]).
  destruct (Zdigits2_div (Z.pos m1 * 2 ^ s) (Z.pos m2) Ha ltac:(lia))
    as (Hq & Hdq); [rewrite Hda; cbn [Zdigits2]; fold d2; lia|].
  rewrite Hda in Hdq. cbn [Zdigits2] in Hdq. fold d2 in Hdq.
  pose proof (eq_refl : Z.pos m1 * 2 ^ s / Z.pos m2
                        = fst (Z.div_eucl (Z.pos m1 * 2 ^ s) (Z.pos m2))) as Hdiv.
  destruct (Z.div_eucl (Z.pos m1 * 2 ^ s) (Z.pos m2)) as [q r].
  cbn [fst] in Hdiv. rewrite Hdiv in Hq, Hdq.
  destruct (binary_round_aux_finite false q e' (new_location (Z.pos m2) r))
    as (m & e & Hr & Hv & Hmag);
    [exact Hq | rewrite fexp_val; subst e' s M; lia | subst e' s M; lia |].
  exists m, e. rewrite Hr. repeat split; try assumption; subst e' s M; lia.
Qed.

(** The binary32 product of two valid positive values is a valid positive
    value; its magnitude is the sum of the magnitudes, up to one. *)
Lemma mul_positive (x y : Float32.float) (lx hx ly hy : Z) :
  positiveMagnitude x lx hx -> positiveMagnitude y ly hy ->
  -149 < lx + ly - 1 -> hx + hy <= 127 ->
  positiveMagnitude (Float32.mul x y) (lx + ly - 1) (hx + hy + 1).
Proof.
  intros (m1 & e1 & -> & Hv1 & Hm1) (m2 & e2 & -> & Hv2 & Hm2) Hlo Hhi.
  unfold Float32.mul, SFmul. cbn [xorb].
  unfold Float32.valid, valid_binary, bounded, canonical_mantissa in Hv1, Hv2.
  rewrite fexp_val in Hv1, Hv2.
  apply andb_prop in Hv1 as [Hc1 _]. apply andb_prop in Hv2 as [Hc2 _].
  apply Z.eqb_eq in Hc1, Hc2.
  pose proof (Zdigits2_mul (Z.pos m1) (Z.pos m2) ltac:(lia) ltac:(lia)) as Hd.
  change (Z.pos m1 * Z.pos m2) with (Z.pos (m1 * m2)) in Hd. cbn [Zdigits2] in Hd.
  set (d1 := Z.pos (digits2_pos m1)) in *. set (d2 := Z.pos (digits2_pos m2)) in *.
  set (d := Z.pos (digits2_pos (m1 * m2))) in *.
  assert (Hd1 : 1 <= d1) by (subst d1; lia).
  assert (Hd2 : 1 <= d2) by (subst d2; lia).
  destruct (binary_round_aux_finite false (Z.pos (m1 * m2)) (e1 + e2) loc_Exact)
    as (m & e & Hr & Hv & Hmag);
    [lia | rewrite fexp_val; cbn [Zdigits2]; fold d; lia
     | cbn [Zdigits2]; fold d; lia |].
  cbn [Zdigits2] in Hmag. fold d in Hmag.
  exists m, e. rewrite Hr. repeat split; try assumption; lia.
Qed.

Lemma one_positive : positiveMagnitude Float32.one 1 1.
Proof. exists 8388608%positive, (-23). repeat split; vm_compute; congruence. Qed.

(** ** Target size outside the exact-dimensions mode *)

Lemma positiveMagnitude_value (f : Float32.float) (lo hi : Z) :
  positiveMagnitude f lo hi -> (0 < Float32.B2Q f)%Q.
Proof.
  intros (m & e & -> & Hv & _).
  pose proof (valid_finite_bounds _ _ _ Hv) as (He & _).
  unfold Qlt, Float32.B2Q, Float32.scaled. cbn [Qnum Qden cond_Zopp].
  pose proof (scaled_pos m e He). lia.
Qed.

(** The ratio of one axis is a valid positive value. *)
Lemma ratio_positive (bound src : Z) :
  0 < src < 2 ^ 31 ->
  positiveMagnitude
    (if (0 <? bound) && (bound <? src)
     then Float32.div (Float32.of_int bound) (Float32.of_int src)
     else Float32.one) (-31) 33.
Proof.
  intros Hs. destruct ((0 <? bound) && (bound <? src)) eqn:E.
  - apply andb_prop in E as [E1 E2]. zbool.
    assert (Hb : 0 < bound < 2 ^ 31) by lia.
    pose proof (int_digits bound Hb). pose proof (int_digits src Hs).
    apply (positiveMagnitude_weaken _
             (Zdigits2 bound - (Zdigits2 src + 1))
             (Zdigits2 bound + 1 - Zdigits2 src + 2)); [|lia|lia].
    apply div_positive; try (apply of_int_positive; assumption); lia.
  - apply (positiveMagnitude_weaken _ 1 1); [apply one_positive|lia|lia].
Qed.

(** Truncating the product with a valid positive scale is taking the floor
    of the rounded product. *)
Lemma truncated_product (src : Z) (ts : Float32.float) :
  0 < src < 2 ^ 31 -> positiveMagnitude ts (-31) 33 ->
  Float32.to_int (Float32.mul (Float32.of_int src) ts)
  = Qfloor (Float32.B2Q (Float32.mul (Float32.of_int src) ts)).
Proof.
  intros Hs Hts. pose proof (int_digits src Hs).
  assert (Hp : positiveMagnitude (Float32.mul (Float32.of_int src) ts)
                 (1 + -31 - 1) (32 + 33 + 1)).
  { apply mul_positive; [|exact Hts|lia|lia].
    apply (positiveMagnitude_weaken _ (Zdigits2 src) (Zdigits2 src + 1));
      [apply of_int_positive; exact Hs|lia|lia]. }
  apply positiveMagnitude_finite in Hp as (Hv & _ & Hn).
  apply to_int_floor; assumption.
Qed.

(** C6, as amended.  Outside the exact-dimensions mode, for a source of
    positive [int] dimensions: each axis has the binary32 quotient
    [max / source] as its ratio when the bound is positive and below the
    source dimension, and 1.0 otherwise; the target scale is one of the two
    ratios or 1.0, is positive, and as a number it is at most either ratio
    and at most 1; and the destination width and height are the floors of
    the numbers denoted by the binary32 products [source * targetScale],
    which are rounded to nearest before they are truncated. *)
Theorem C6_fit_scale_and_truncation
    (cfg : RenderConfig.t) (srcWidth srcHeight : Z) :
  RenderConfig.useExactDimensions cfg
    && (0 <? RenderConfig.maxWidth cfg)
    && (0 <? RenderConfig.maxHeight cfg) = false ->
  0 < srcWidth < 2 ^ 31 -> 0 < srcHeight < 2 ^ 31 ->
  let size := computeTargetSize cfg srcWidth srcHeight in
  let ratio bound src :=
    if (0 <? bound) && (bound <? src)
    then Float32.div (Float32.of_int bound) (Float32.of_int src)
    else Float32.one in
  let scaleX := ratio (RenderConfig.maxWidth cfg) srcWidth in
  let scaleY := ratio (RenderConfig.maxHeight cfg) srcHeight in
  let prodW := Float32.mul (Float32.of_int srcWidth) (targetScale size) in
  let prodH := Float32.mul (Float32.of_int srcHeight) (targetScale size) in
  (targetScale size = scaleX \/ targetScale size = scaleY
   \/ targetScale size = Float32.one)
  /\ (0 < Float32.B2Q (targetScale size))%Q
  /\ (Float32.B2Q (targetScale size) <= Float32.B2Q scaleX)%Q
  /\ (Float32.B2Q (targetScale size) <= Float32.B2Q scaleY)%Q
  /\ (Float32.B2Q (targetScale size) <= 1)%Q
  /\ destWidth size = Qfloor (Float32.B2Q prodW)
  /\ destHeight size = Qfloor (Float32.B2Q prodH).
Proof.
  intros Hmode HW HH. cbv zeta. unfold computeTargetSize. rewrite Hmode.
  cbn [targetScale destWidth destHeight].
  pose proof (ratio_positive (RenderConfig.maxWidth cfg) srcWidth HW) as HX.
  pose proof (ratio_positive (RenderConfig.maxHeight cfg) srcHeight HH) as HY.
  set (scaleX := if (0 <? RenderConfig.maxWidth cfg) && _ then _ else _) in *.
  set (scaleY := if (0 <? RenderConfig.maxHeight cfg) && _ then _ else _) in *.
  set (smaller := if Float32.ltb scaleX scaleY then scaleX else scaleY).
  set (ts := if Float32.ltb Float32.one smaller then Float32.one else smaller).
  pose proof (positiveMagnitude_finite _ _ _ HX) as (VX & FX & _).
  pose proof (positiveMagnitude_finite _ _ _ HY) as (VY & FY & _).
  assert (Hsm : (smaller = scaleX \/ smaller = scaleY)
                /\ (Float32.B2Q smaller <= Float32.B2Q scaleX)%Q
                /\ (Float32.B2Q smaller <= Float32.B2Q scaleY)%Q).
  { unfold smaller. rewrite (ltb_scaled scaleX scaleY VX VY FX FY).
    destruct (Qle_bool (Float32.B2Q scaleY) (Float32.B2Q scaleX)) eqn:E; cbn [negb].
    - apply Qle_bool_iff in E. split; [right; reflexivity|].
      split; [exact E|apply Qle_refl].
    - assert (Hlt : (Float32.B2Q scaleX < Float32.B2Q scaleY)%Q).
      { apply Qnot_le_lt. intros Hle. apply Qle_bool_iff in Hle. congruence. }
      split; [left; reflexivity|].
      split; [apply Qle_refl|apply Qlt_le_weak; exact Hlt]. }
  destruct Hsm as (Hsel & HsX & HsY).
  assert (HS : positiveMagnitude smaller (-31) 33)
    by (destruct Hsel as [-> | ->]; assumption).
  pose proof (positiveMagnitude_finite _ _ _ HS) as (VS & FS & _).
  assert (Hts : (ts = scaleX \/ ts = scaleY \/ ts = Float32.one)
                /\ (Float32.B2Q ts <= Float32.B2Q smaller)%Q
                /\ (Float32.B2Q ts <= 1)%Q).
  { unfold ts. rewrite (ltb_scaled Float32.one smaller eq_refl VS eq_refl FS).
    destruct (Qle_bool (Float32.B2Q smaller) (Float32.B2Q Float32.one)) eqn:E;
      cbn [negb].
    - apply Qle_bool_iff in E. rewrite B2Q_one in E.
      split; [destruct Hsel as [-> | ->]; auto|].
      split; [apply Qle_refl|exact E].
    - assert (Hlt : (Float32.B2Q Float32.one < Float32.B2Q smaller)%Q).
      { apply Qnot_le_lt. intros Hle. apply Qle_bool_iff in Hle. congruence. }
      split; [auto|].
      split; [apply Qlt_le_weak; exact Hlt|rewrite B2Q_one; apply Qle_refl]. }
  destruct Hts as (Hsel' & HtS & Ht1).
  assert (HT : positiveMagnitude ts (-31) 33).
  { destruct Hsel' as [-> | [-> | ->]]; try assumption.
    apply (positiveMagnitude_weaken _ 1 1); [apply one_positive|lia|lia]. }
  split; [exact Hsel'|].
  split; [exact (positiveMagnitude_value _ _ _ HT)|].
  split; [exact (Qle_trans _ _ _ HtS HsX)|].
  split; [exact (Qle_trans _ _ _ HtS HsY)|].
  split; [exact Ht1|].
  split; apply truncated_product; assumption.
Qed.

Lemma C6_fit_scale_and_truncation_witness :
  targetScale (computeTargetSize identityConfig 800 600) = Float32.half
  /\ destWidth (computeTargetSize identityConfig 800 600)
     = Qfloor (Float32.B2Q (Float32.mul (Float32.of_int 800) Float32.half))
  /\ destWidth (computeTargetSize identityConfig 800 600) = 400
  /\ destHeight (computeTargetSize identityConfig 800 600) = 300.
Proof.
  pose proof (C6_fit_scale_and_truncation identityConfig 800 600 eq_refl
                ltac:(vm_compute; split; reflexivity)
                ltac:(vm_compute; split; reflexivity))
    as (_ & _ & _ & _ & _ & Hw & _).
  split; [reflexivity|]. split; [exact Hw|]. split; reflexivity.
Defined.

(** C6 as stated fails.  A 10-wide source bounded to 7 has the target scale
    0.7f, a little below 7/10: the floor of 10 times that scale is 6, while
    the binary32 product rounds to 7.0 and the code gives 7.  A 533-wide
    source bounded to 480 has the floor of 533 * (480 / 533) equal to 480,
    while the binary32 product is just below 480 and the code gives 479.  So
    the destination is the floor of the product neither with the rounded
    scale nor with the exact ratio. *)
Lemma C6_truncation_is_not_floor_of_product :
  let size := computeTargetSize (RenderConfig.mk 0 0 7 10 false false EmptyString)
                10 10 in
  let size' := computeTargetSize (RenderConfig.mk 0 0 480 533 false false EmptyString)
                 533 533 in
  (destWidth size = 7
   /\ Qfloor (inject_Z 10 * Float32.B2Q (targetScale size)) = 6
   /\ destWidth size <> Qfloor (inject_Z 10 * Float32.B2Q (targetScale size)))
  /\ (destWidth size' = 479
      /\ Qfloor (inject_Z 533 * (480 # 533)) = 480
      /\ destWidth size' <> Qfloor (inject_Z 533 * (480 # 533))).
Proof.
  cbv zeta. repeat split; try (vm_compute; reflexivity); vm_compute; discriminate.
Qed.

(** The end-to-end example: 800x600 into 400x300 gives target scale 0.5,
    denominator 2, a 400x300 scaled source and the identity factor. *)
Example end_to_end_800x600 :
  selectJpegScale false (targetScale (computeTargetSize identityConfig 800 600))
    = (2, JPEG_SCALE_HALF)
  /\ (scaledSrcWidth identityCtx, scaledSrcHeight identityCtx) = (400, 300)
  /\ (dstWidth identityCtx, dstHeight identityCtx) = (400, 300)
  /\ fineScaleFP identityCtx = FP_ONE
  /\ invScaleFP identityCtx = FP_ONE.
Proof. repeat split; reflexivity. Qed.

(** The reference contexts are the contexts the orchestrator builds. *)
Example reference_contexts :
  contextOf (referenceWorld 800 600 true []) progressiveConfig = Some progressiveCtx
  /\ contextOf (referenceWorld 776 600 true []) narrowConfig = Some narrowCtx
  /\ contextOf (referenceWorld 800 600 false []) identityConfig = Some identityCtx
  /\ contextOf (referenceWorld 100 100 false []) tallConfig = Some tallCtx
  /\ contextOf (referenceWorld 1200 900 false []) identityConfig = Some downscaleCtx.
Proof. repeat split; reflexivity. Qed.

(** ** The fine scale pair and the coordinate round trip *)

(** Arithmetic core: [F] and [I] are the floors of [D*A/S] and [S*A/D], [s]
    the floor of [x*I/A] and [x'] the floor of [s*F/A]. *)
Lemma drift_core (A D S F I x s x' : Z) :
  0 < A -> 0 < S -> 0 < D -> D * D + S * S <= A * S -> 0 <= x < D ->
  F * S <= D * A < F * S + S ->
  I * D <= S * A < I * D + D ->
  s * A <= x * I < s * A + A ->
  x' * A <= s * F < x' * A + A ->
  forall c, F <= c * A ->
  I * F <= A * A /\ 0 <= x - x' <= c + 1.
Proof.
  intros HA HS HD Hdim Hx HF HI Hs Hx' c Hc.
  assert (HF0 : 0 <= F) by nia.
  assert (HI0 : 0 <= I) by nia.
  assert (Hs0 : 0 <= s) by nia.
  assert (HIF : I * F <= A * A).
  { assert (I * F * (S * D) <= A * A * (S * D)).
    { replace (I * F * (S * D)) with ((F * S) * (I * D)) by ring.
      replace (A * A * (S * D)) with ((D * A) * (S * A)) by ring.
      apply Z.mul_le_mono_nonneg; nia. }
    assert (0 < S * D) by (apply Z.mul_pos_pos; lia).
    apply Z.mul_le_mono_pos_r with (p := S * D); assumption. }
  split; [exact HIF|].
  assert (Hup : x' * (A * A) <= x * (A * A)).
  { assert (H1 : x' * A * A <= s * F * A) by (apply Z.mul_le_mono_nonneg_r; lia).
    assert (H2 : s * A * F <= x * I * F) by (apply Z.mul_le_mono_nonneg_r; lia).
    assert (H3 : x * (I * F) <= x * (A * A)) by (apply Z.mul_le_mono_nonneg_l; lia).
    lia. }
  assert (Hxx : x' <= x).
  { apply Z.mul_le_mono_pos_r with (p := A * A); [apply Z.mul_pos_pos; lia|exact Hup]. }
  split; [lia|].
  (* the reciprocal error accumulated over the row stays below one pixel *)
  assert (Heps : (A * A - I * F) * D < A * A).
  { set (r1 := D * A - F * S). set (r2 := S * A - I * D).
    assert (Hr1 : 0 <= r1 < S) by (unfold r1; lia).
    assert (Hr2 : 0 <= r2 < D) by (unfold r2; lia).
    assert (Hid : (A * A - I * F) * (S * D) = A * (D * r2 + S * r1) - r1 * r2).
    { unfold r1, r2. ring. }
    assert (Ha : D * r2 <= D * (D - 1)) by (apply Z.mul_le_mono_nonneg_l; lia).
    assert (Hb : S * r1 <= S * (S - 1)) by (apply Z.mul_le_mono_nonneg_l; lia).
    assert (Hc' : 0 <= r1 * r2) by (apply Z.mul_nonneg_nonneg; lia).
    assert (Hd : D * r2 + S * r1 < A * S) by lia.
    assert (He : A * (D * r2 + S * r1) < A * (A * S))
      by (apply Z.mul_lt_mono_pos_l; lia).
    assert (Hf : (A * A - I * F) * D * S < A * A * S) by lia.
    apply Z.mul_lt_mono_pos_r with (p := S); [lia|exact Hf]. }
  assert (Hlow : (x - x') * (A * A) <= x * (A * A - I * F) + (A - 1) * (F + A)).
  { assert (H1 : (x * I - (A - 1)) * F <= s * A * F)
      by (apply Z.mul_le_mono_nonneg_r; lia).
    assert (H2 : (s * F - (A - 1)) * A <= x' * A * A)
      by (apply Z.mul_le_mono_nonneg_r; lia).
    lia. }
  assert (Hxe : x * (A * A - I * F) <= (A * A - I * F) * D).
  { rewrite (Z.mul_comm x). apply Z.mul_le_mono_nonneg_l; lia. }
  assert (Hcc : F * A <= c * A * A) by (apply Z.mul_le_mono_nonneg_r; lia).
  assert (Hfin : (x - x') * (A * A) < (c + 2) * (A * A)) by lia.
  assert (x - x' < c + 2).
  { apply Z.mul_lt_mono_pos_r with (p := A * A); [apply Z.mul_pos_pos; lia|exact Hfin]. }
  lia.
Qed.

Lemma computeFineScaleFP_div (destW srcW : Z) :
  0 < srcW -> 0 <= destW -> destW < 32768 * srcW ->
  computeFineScaleFP destW srcW = destW * 65536 / srcW.
Proof.
  intros HS HD Hlt. unfold computeFineScaleFP. rewrite FP_ONE_val.
  rewrite Z.quot_div_nonneg by lia.
  apply wrap32_id. unfold in_int32. change (2 ^ 31) with 2147483648.
  assert (0 <= destW * 65536 / srcW) by (apply Z.div_pos; lia).
  assert (destW * 65536 / srcW < 2147483648)
    by (apply Z.div_lt_upper_bound; lia).
  lia.
Qed.

Lemma computeInvScaleFP_div (destW srcW : Z) :
  0 < destW -> 0 <= srcW -> srcW < 32768 * destW ->
  computeInvScaleFP destW srcW = Some (srcW * 65536 / destW).
Proof.
  intros HD HS Hlt. unfold computeInvScaleFP. rewrite FP_ONE_val.
  replace (destW =? 0) with false by (symmetry; apply Z.eqb_neq; lia).
  rewrite Z.quot_div_nonneg by lia. f_equal.
  apply wrap32_id. unfold in_int32. change (2 ^ 31) with 2147483648.
  assert (0 <= srcW * 65536 / destW) by (apply Z.div_pos; lia).
  assert (srcW * 65536 / destW < 2147483648)
    by (apply Z.div_lt_upper_bound; lia).
  lia.
Qed.

Lemma inverse_product_fits (destW srcW dstX : Z) :
  0 < srcW < 2 ^ 15 -> 0 < destW -> 0 <= dstX <= destW ->
  exists I,
    computeInvScaleFP destW srcW = Some I
    /\ 0 <= I /\ in_int32 (dstX * I).
Proof.
  intros HS HD Hx. change (2 ^ 15) with 32768 in HS.
  exists (srcW * 65536 / destW).
  split; [apply computeInvScaleFP_div; lia|].
  pose proof (div_bounds (srcW * 65536) destW ltac:(lia)) as Hb.
  set (I := srcW * 65536 / destW) in *.
  assert (HI : 0 <= I) by (apply Z.div_pos; lia).
  split; [exact HI|]. unfold in_int32. change (2 ^ 31) with 2147483648.
  assert (dstX * I <= destW * I) by (apply Z.mul_le_mono_nonneg_r; lia).
  assert (0 <= dstX * I) by (apply Z.mul_nonneg_nonneg; lia).
  lia.
Qed.

(** C4, as amended.  The two factors are the independent integer quotients
    [destWidth * 2^16 / scaledSrcWidth] and [scaledSrcWidth * 2^16 / destWidth];
    their product never exceeds 2^32 and is below it for 5 over 3; and for
    widths with [scaledSrcWidth < 2^15] and
    [destWidth^2 + scaledSrcWidth^2 <= 2^16 * scaledSrcWidth], the round trip
    of a destination column never exceeds the column and falls short of it
    by at most one source-sample extent, rounded up, plus one pixel. *)
Theorem C4_round_trip_drift (destW srcW dstX : Z) :
  0 < srcW < 2 ^ 15 ->
  0 < destW ->
  destW * destW + srcW * srcW <= FP_ONE * srcW ->
  0 <= dstX < destW ->
  let F := computeFineScaleFP destW srcW in
  exists I,
    computeInvScaleFP destW srcW = Some I
    /\ F = destW * FP_ONE / srcW
    /\ I = srcW * FP_ONE / destW
    /\ F * I <= FP_ONE * FP_ONE
    /\ (exists I53,
          computeInvScaleFP 5 3 = Some I53
          /\ computeFineScaleFP 5 3 * I53 < FP_ONE * FP_ONE)
    /\ 0 <= dstX - roundTrip F I dstX <= (F + FP_MASK) / FP_ONE + 1.
Proof.
  intros HS HD Hdim Hx F. rewrite FP_ONE_val in *.
  change (2 ^ 15) with 32768 in HS. change FP_MASK with 65535.
  assert (HDS : destW < 32768 * srcW) by nia.
  assert (HF : F = destW * 65536 / srcW)
    by (apply computeFineScaleFP_div; lia).
  exists (srcW * 65536 / destW). set (I := srcW * 65536 / destW).
  assert (HI : I = srcW * 65536 / destW) by reflexivity.
  split; [apply computeInvScaleFP_div; lia|].
  split; [exact HF|]. split; [exact HI|].
  pose proof (div_bounds (destW * 65536) srcW ltac:(lia)) as HFb.
  pose proof (div_bounds (srcW * 65536) destW ltac:(lia)) as HIb.
  rewrite <- HF in HFb. rewrite <- HI in HIb.
  assert (HF0 : 0 <= F) by (rewrite HF; apply Z.div_pos; lia).
  assert (HI0 : 0 <= I) by (rewrite HI; apply Z.div_pos; lia).
  assert (HxD : dstX * I <= destW * I) by (apply Z.mul_le_mono_nonneg_r; lia).
  assert (HxI : 0 <= dstX * I < 2147483648).
  { assert (0 <= dstX * I) by (apply Z.mul_nonneg_nonneg; lia). lia. }
  set (s := dstX * I / 65536).
  pose proof (div_bounds (dstX * I) 65536 ltac:(lia)) as Hsb. fold s in Hsb.
  assert (Hs0 : 0 <= s) by (apply Z.div_pos; lia).
  assert (HsS : s <= srcW) by lia.
  assert (HFlt : F < 2147483648).
  { rewrite HF. apply Z.div_lt_upper_bound; lia. }
  assert (HsF : s * F < 2 ^ 46).
  { change (2 ^ 46) with (32768 * 2147483648).
    assert (s * F <= srcW * F) by (apply Z.mul_le_mono_nonneg_r; lia).
    assert (srcW * F <= 32768 * F) by (apply Z.mul_le_mono_nonneg_r; lia).
    lia. }
  assert (Hrt : roundTrip F I dstX = s * F / 65536).
  { unfold roundTrip, sourceIndex, srcFP. rewrite wrap32_id
      by (unfold in_int32; change (2 ^ 31) with 2147483648; lia).
    rewrite shiftr_FP. fold s. apply mapToDst_div; lia. }
  rewrite Hrt.
  pose proof (div_bounds (s * F) 65536 ltac:(lia)) as Hxb.
  pose proof (div_bounds (F + 65535) 65536 ltac:(lia)) as Hcb.
  destruct (drift_core 65536 destW srcW F I dstX s (s * F / 65536)
              ltac:(lia) ltac:(lia) HD Hdim Hx ltac:(lia) ltac:(lia)
              ltac:(lia) ltac:(lia) ((F + 65535) / 65536) ltac:(lia))
    as [Hprod Hdrift].
  split; [lia|]. split; [exists 39321; split; reflexivity|]. exact Hdrift.
Qed.

Lemma C4_round_trip_drift_witness :
  (0 < 1000 < 2 ^ 15 /\ 0 < 999
   /\ 999 * 999 + 1000 * 1000 <= FP_ONE * 1000 /\ 0 <= 998 < 999)
  /\ exists I,
       computeInvScaleFP 999 1000 = Some I
       /\ 0 <= 998 - roundTrip (computeFineScaleFP 999 1000) I 998
            <= (computeFineScaleFP 999 1000 + FP_MASK) / FP_ONE + 1.
Proof.
  assert (H1 : 0 < 1000 < 2 ^ 15) by (vm_compute; split; reflexivity).
  assert (H2 : 0 < 999) by reflexivity.
  assert (H3 : 999 * 999 + 1000 * 1000 <= FP_ONE * 1000)
    by (vm_compute; discriminate).
  assert (H4 : 0 <= 998 < 999) by (vm_compute; split; [discriminate|reflexivity]).
  split; [tauto|].
  destruct (C4_round_trip_drift 999 1000 998 H1 H2 H3 H4)
    as (I & HI & _ & _ & _ & _ & Hdrift).
  exists I. split; [exact HI | exact Hdrift].
Defined.

(** C4 as stated fails.  With scaledSrcWidth 3 and destWidth 5 the factors
    are 109226 and 39321, column 3 maps to source sample 1 and back to
    column 1; with scaledSrcWidth 1000 and destWidth 999 the factors are 65470
    and 65601, column 998 maps to sample 998 and back to column 996.  Either
    drift of 2 pixels is more than one source sample, whether it is measured
    against the sample's extent in destination pixels ([fineScaleFP / 2^16]),
    converted to source samples through the inverse factor, or taken as one
    coordinate unit; in the second case the returned column also lies two
    source samples before the original one. *)
Lemma C4_drift_exceeds_one_sample :
  let F := computeFineScaleFP 5 3 in
  let I := 39321 in
  let F' := computeFineScaleFP 999 1000 in
  let I' := 65601 in
  (F = 109226 /\ computeInvScaleFP 5 3 = Some I
   /\ sourceIndex I 3 = 1 /\ roundTrip F I 3 = 1
   /\ ~ ((3 - roundTrip F I 3) * FP_ONE <= F)
   /\ ~ ((3 - roundTrip F I 3) * I <= FP_ONE)
   /\ ~ (3 - roundTrip F I 3 <= 1))
  /\ (F' = 65470 /\ computeInvScaleFP 999 1000 = Some I'
      /\ sourceIndex I' 998 = 998 /\ roundTrip F' I' 998 = 996
      /\ ~ ((998 - roundTrip F' I' 998) * FP_ONE <= F')
      /\ ~ ((998 - roundTrip F' I' 998) * I' <= FP_ONE)
      /\ ~ (998 - roundTrip F' I' 998 <= 1)
      /\ ~ (sourceIndex I' 998 - sourceIndex I' (roundTrip F' I' 998) <= 1)).
Proof.
  cbv zeta.
  repeat split; try reflexivity; vm_compute; intros H; apply H; reflexivity.
Qed.

(** ** Footprints *)

(** The clamps only shrink the range the block's edges map to. *)
Lemma footprint_start_lower (ctx : JpegContext) (b : JPEGDRAW.t) :
  mapToDst (fineScaleFP ctx) (JPEGDRAW.x b) <= dstXStart (footprint ctx b)
  /\ mapToDst (fineScaleFP ctx) (JPEGDRAW.y b) <= dstYStart (footprint ctx b).
Proof. unfold footprint; cbn -[mapToDst]. split; split_ifs; lia. Qed.

Lemma footprint_end_upper (ctx : JpegContext) (b : JPEGDRAW.t) :
  (JPEGDRAW.x b + JPEGDRAW.iWidthUsed b < scaledSrcWidth ctx ->
     dstXEnd (footprint ctx b)
       <= mapToDst (fineScaleFP ctx) (JPEGDRAW.x b + JPEGDRAW.iWidthUsed b))
  /\ (JPEGDRAW.y b + JPEGDRAW.iHeight b < scaledSrcHeight ctx ->
     dstYEnd (footprint ctx b)
       <= mapToDst (fineScaleFP ctx) (JPEGDRAW.y b + JPEGDRAW.iHeight b)).
Proof. unfold footprint; cbn -[mapToDst]. split; intros Hin; split_ifs; lia. Qed.

Lemma footprint_within_dst (ctx : JpegContext) (b : JPEGDRAW.t) :
  dstXEnd (footprint ctx b) <= dstWidth ctx
  /\ dstYEnd (footprint ctx b) <= dstHeight ctx.
Proof. unfold footprint; cbn -[mapToDst]. split; split_ifs; lia. Qed.

(** Footprints of blocks that cover different source samples share no
    destination pixel. *)
Lemma footprints_disjoint (ctx : JpegContext) (b1 b2 : JPEGDRAW.t) (dstX dstY : Z) :
  0 <= fineScaleFP ctx ->
  blockInImage ctx b1 -> blockInImage ctx b2 ->
  edgesFitInt ctx b1 -> edgesFitInt ctx b2 ->
  sourceDisjoint b1 b2 ->
  inFootprint (footprint ctx b1) dstX dstY ->
  inFootprint (footprint ctx b2) dstX dstY ->
  False.
Proof.
  intros HF (Hx1 & Hy1 & _ & Hw1 & Hh1) (Hx2 & Hy2 & _ & Hw2 & Hh2)
    [Hex1 Hey1] [Hex2 Hey2] Hdis [Hfx1 Hfy1] [Hfx2 Hfy2].
  destruct (footprint_start_lower ctx b1) as [Hsx1 Hsy1].
  destruct (footprint_start_lower ctx b2) as [Hsx2 Hsy2].
  destruct (footprint_end_upper ctx b1) as [Heux1 Heuy1].
  destruct (footprint_end_upper ctx b2) as [Heux2 Heuy2].
  destruct Hdis as [Hd|[Hd|[Hd|Hd]]].
  - pose proof (mapToDst_mono (fineScaleFP ctx)
      (JPEGDRAW.x b1 + JPEGDRAW.iWidthUsed b1) (JPEGDRAW.x b2)) as Hm.
    assert (JPEGDRAW.x b2 * fineScaleFP ctx
            <= (JPEGDRAW.x b2 + JPEGDRAW.iWidthUsed b2) * fineScaleFP ctx) by nia.
    lia.
  - pose proof (mapToDst_mono (fineScaleFP ctx)
      (JPEGDRAW.x b2 + JPEGDRAW.iWidthUsed b2) (JPEGDRAW.x b1)) as Hm.
    assert (JPEGDRAW.x b1 * fineScaleFP ctx
            <= (JPEGDRAW.x b1 + JPEGDRAW.iWidthUsed b1) * fineScaleFP ctx) by nia.
    lia.
  - pose proof (mapToDst_mono (fineScaleFP ctx)
      (JPEGDRAW.y b1 + JPEGDRAW.iHeight b1) (JPEGDRAW.y b2)) as Hm.
    assert (JPEGDRAW.y b2 * fineScaleFP ctx
            <= (JPEGDRAW.y b2 + JPEGDRAW.iHeight b2) * fineScaleFP ctx) by nia.
    lia.
  - pose proof (mapToDst_mono (fineScaleFP ctx)
      (JPEGDRAW.y b2 + JPEGDRAW.iHeight b2) (JPEGDRAW.y b1)) as Hm.
    assert (JPEGDRAW.y b1 * fineScaleFP ctx
            <= (JPEGDRAW.y b1 + JPEGDRAW.iHeight b1) * fineScaleFP ctx) by nia.
    lia.
Qed.

Lemma safeRange_ordered (ctx : JpegContext) (b : JPEGDRAW.t) :
  fst (safeRange ctx b) <= snd (safeRange ctx b).
Proof.
  unfold safeRange. cbn -[footprint wrap32 Z.shiftr FP_MASK FP_SHIFT].
  split_ifs; lia.
Qed.

(** The three column loops of the bilinear path tile the footprint's
    columns: [dstXStart <= safeXStart <= safeXEnd <= dstXEnd]. *)
Lemma safeRange_within (ctx : JpegContext) (b : JPEGDRAW.t) :
  0 <= fineScaleFP ctx ->
  0 <= JPEGDRAW.x b -> 0 < JPEGDRAW.iWidthUsed b ->
  edgesFitInt ctx b ->
  dstXStart (footprint ctx b) < dstXEnd (footprint ctx b) ->
  dstXStart (footprint ctx b) <= fst (safeRange ctx b)
  /\ fst (safeRange ctx b) <= snd (safeRange ctx b)
  /\ snd (safeRange ctx b) <= dstXEnd (footprint ctx b).
Proof.
  intros HF Hx Hw [Hex _] Hne.
  destruct (footprint_start_lower ctx b) as [Hlo _].
  assert (Hxf : 0 <= JPEGDRAW.x b * fineScaleFP ctx < 2 ^ 46) by nia.
  rewrite mapToDst_div in Hlo by lia.
  assert (Hraw : wrap32 (Z.shiftr (JPEGDRAW.x b * fineScaleFP ctx + FP_MASK) FP_SHIFT)
                 <= JPEGDRAW.x b * fineScaleFP ctx / 65536 + 1).
  { rewrite shiftr_FP. change FP_MASK with 65535.
    change (2 ^ 46) with 70368744177664 in Hxf.
    assert (Hd : (JPEGDRAW.x b * fineScaleFP ctx + 65535) / 65536
                 <= JPEGDRAW.x b * fineScaleFP ctx / 65536 + 1).
    { replace (JPEGDRAW.x b * fineScaleFP ctx / 65536 + 1)
        with ((JPEGDRAW.x b * fineScaleFP ctx + 1 * 65536) / 65536)
        by (rewrite Z.div_add by lia; reflexivity).
      apply Z.div_le_mono; lia. }
    assert (0 <= (JPEGDRAW.x b * fineScaleFP ctx + 65535) / 65536)
      by (apply Z.div_pos; lia).
    assert ((JPEGDRAW.x b * fineScaleFP ctx + 65535) / 65536 < 2147483648)
      by (apply Z.div_lt_upper_bound; lia).
    rewrite wrap32_id; [exact Hd|].
    unfold in_int32. change (2 ^ 31) with 2147483648. lia. }
  unfold safeRange. cbn -[footprint wrap32 Z.shiftr FP_MASK FP_SHIFT].
  set (fp := footprint ctx b) in *.
  set (rs := wrap32 _) in *. set (re := wrap32 _).
  split_ifs; lia.
Qed.

(** ** Events of the draw callback *)

Section CallbackEvents.

Variable dither : Z -> Z -> Z -> Z.

Lemma elem_of_emitPixel (ctx : JpegContext) (dstX dstY gray : Z) (e : Event) :
  e ∈ emitPixel dither ctx dstX dstY gray <->
  let outX := RenderConfig.x (config ctx) + dstX in
  let outY := RenderConfig.y (config ctx) + dstY in
  let level := quantize dither (RenderConfig.useDithering (config ctx)) gray outX outY in
  e = EvDrawPixel outX outY level
  \/ (caching ctx = true /\ e = EvCacheSetPixel outX outY level).
Proof.
  unfold emitPixel. cbn zeta. rewrite elem_of_cons.
  destruct (caching ctx).
  - rewrite list_elem_of_singleton. intuition.
  - rewrite elem_of_nil. intuition congruence.
Qed.

(** Every event of a block is a pixel of its footprint, shifted by the
    configured origin. *)
Lemma callback_event_in_footprint (ctx : JpegContext) (b : JPEGDRAW.t) (e : Event) :
  0 <= fineScaleFP ctx ->
  0 <= JPEGDRAW.x b ->
  edgesFitInt ctx b ->
  e ∈ jpegDrawCallback dither ctx b ->
  exists dstX dstY level,
    inFootprint (footprint ctx b) dstX dstY
    /\ (e = EvDrawPixel (RenderConfig.x (config ctx) + dstX)
                        (RenderConfig.y (config ctx) + dstY) level
        \/ e = EvCacheSetPixel (RenderConfig.x (config ctx) + dstX)
                               (RenderConfig.y (config ctx) + dstY) level).
Proof.
  intros HF Hx Hfit. unfold jpegDrawCallback.
  destruct (_ || _ || _) eqn:Hdims; [rewrite elem_of_nil; tauto|].
  apply orb_false_elim in Hdims as [Hdims Hw].
  apply orb_false_elim in Hdims as [Hs Hh]. zbool.
  destruct (_ || _) eqn:Hempty; [rewrite elem_of_nil; tauto|].
  apply orb_false_elim in Hempty as [Hey Hex]. zbool.
  assert (Hemit : forall dstX dstY gray,
            dstXStart (footprint ctx b) <= dstX < dstXEnd (footprint ctx b) ->
            dstYStart (footprint ctx b) <= dstY < dstYEnd (footprint ctx b) ->
            e ∈ emitPixel dither ctx dstX dstY gray ->
            exists dstX dstY level,
              inFootprint (footprint ctx b) dstX dstY
              /\ (e = EvDrawPixel (RenderConfig.x (config ctx) + dstX)
                                  (RenderConfig.y (config ctx) + dstY) level
                  \/ e = EvCacheSetPixel (RenderConfig.x (config ctx) + dstX)
                                         (RenderConfig.y (config ctx) + dstY) level)).
  { intros dstX dstY gray HX HY He. apply elem_of_emitPixel in He.
    exists dstX, dstY. eexists. split; [split; assumption|].
    destruct He as [He|[_ He]]; [left|right]; exact He. }
  destruct (fineScaleFP ctx =? FP_ONE); [|destruct (FP_ONE <? fineScaleFP ctx)].
  - unfold identityPath. cbn zeta.
    intros He. apply list_elem_of_bind in He as (dstY & He & HY).
    apply list_elem_of_bind in He as (dstX & He & HX).
    apply elem_of_range in HY, HX. eauto.
  - unfold bilinearPath. cbn zeta.
    pose proof (safeRange_within ctx b HF Hx Hw Hfit Hex) as Hsafe.
    destruct (safeRange ctx b) as [safeXStart safeXEnd].
    cbn [fst snd] in Hsafe. destruct Hsafe as (Hs1 & Hs2 & Hs3).
    intros He. apply list_elem_of_bind in He as (dstY & He & HY).
    apply elem_of_range in HY.
    rewrite !elem_of_app in He.
    destruct He as [He|[He|He]];
      apply list_elem_of_bind in He as (dstX & He & HX);
      apply elem_of_range in HX;
      (eapply Hemit; [| |exact He]; lia).
  - unfold nearestPath. cbn zeta.
    intros He. apply list_elem_of_bind in He as (dstY & He & HY).
    apply list_elem_of_bind in He as (dstX & He & HX).
    apply elem_of_range in HY, HX. eauto.
Qed.

End CallbackEvents.

(** ** Every pixel at most once *)

Lemma elem_of_drawCoords (l : list Event) (outX outY : Z) :
  (outX, outY) ∈ drawCoords l <-> exists level, EvDrawPixel outX outY level ∈ l.
Proof.
  unfold drawCoords. rewrite list_elem_of_bind. split.
  - intros (e & Hin & He). destruct e; try (apply elem_of_nil in Hin; tauto).
    apply list_elem_of_singleton in Hin. injection Hin as -> ->. eauto.
  - intros (level & He). exists (EvDrawPixel outX outY level).
    split; [apply list_elem_of_singleton; reflexivity|exact He].
Qed.

Lemma drawCoords_app (l k : list Event) :
  drawCoords (l ++ k) = drawCoords l ++ drawCoords k.
Proof. unfold drawCoords. apply bind_app. Qed.

Lemma drawCoords_bind {A : Type} (f : A -> list Event) (l : list A) :
  drawCoords (l ≫= f) = l ≫= (fun a => drawCoords (f a)).
Proof.
  induction l as [|a l IH]; [reflexivity|].
  cbn. rewrite drawCoords_app, IH. reflexivity.
Qed.

(** Coordinates of a row-major sweep over the columns [cols] of the rows
    [rows], shifted by an origin. *)
Lemma NoDup_sweep (cx cy : Z) (rows cols : list Z) :
  NoDup rows -> NoDup cols ->
  NoDup (dstY ← rows; dstX ← cols; [(cx + dstX, cy + dstY)]).
Proof.
  intros Hr Hc. apply NoDup_bind; [| |exact Hr].
  - intros y1 y2 p _ _ H1 H2.
    apply list_elem_of_bind in H1 as (x1 & H1 & _).
    apply list_elem_of_bind in H2 as (x2 & H2 & _).
    apply list_elem_of_singleton in H1, H2. subst p. injection H2. lia.
  - intros dstY _. apply NoDup_bind; [| |exact Hc].
    + intros x1 x2 p _ _ H1 H2.
      apply list_elem_of_singleton in H1, H2. subst p. injection H2. lia.
    + intros dstX _. apply NoDup_singleton.
Qed.

Lemma NoDup_three_ranges (a s e d : Z) :
  s <= e -> NoDup (range a s ++ range s e ++ range e d).
Proof.
  intros Hse. apply NoDup_app. split; [apply NoDup_range|]. split.
  - intros x Hx Hin. apply elem_of_range in Hx.
    apply elem_of_app in Hin as [Hin|Hin]; apply elem_of_range in Hin; lia.
  - apply NoDup_app. split; [apply NoDup_range|]. split; [|apply NoDup_range].
    intros x Hx Hin. apply elem_of_range in Hx, Hin. lia.
Qed.

Section Once.

Variable dither : Z -> Z -> Z -> Z.

Lemma drawCoords_emitPixel (ctx : JpegContext) (dstX dstY gray : Z) :
  drawCoords (emitPixel dither ctx dstX dstY gray)
  = [(RenderConfig.x (config ctx) + dstX, RenderConfig.y (config ctx) + dstY)].
Proof. unfold emitPixel. destruct (caching ctx); reflexivity. Qed.

Lemma drawCoords_cols (ctx : JpegContext) (cols : list Z) (dstY : Z) (gray : Z -> Z) :
  drawCoords (dstX ← cols; emitPixel dither ctx dstX dstY (gray dstX))
  = dstX ← cols;
    [(RenderConfig.x (config ctx) + dstX, RenderConfig.y (config ctx) + dstY)].
Proof.
  rewrite drawCoords_bind. apply bind_ext_in. intros dstX.
  apply drawCoords_emitPixel.
Qed.

(** One block draws no output coordinate twice. *)
Lemma callback_draws_each_pixel_once (ctx : JpegContext) (b : JPEGDRAW.t) :
  NoDup (drawCoords (jpegDrawCallback dither ctx b)).
Proof.
  set (cx := RenderConfig.x (config ctx)). set (cy := RenderConfig.y (config ctx)).
  unfold jpegDrawCallback.
  destruct (_ || _ || _); [apply NoDup_nil_2|].
  destruct (_ || _); [apply NoDup_nil_2|].
  destruct (fineScaleFP ctx =? FP_ONE); [|destruct (FP_ONE <? fineScaleFP ctx)].
  - unfold identityPath. cbn zeta. rewrite drawCoords_bind.
    rewrite (bind_ext_in _
      (fun dstY => dstX ← range (dstXStart (footprint ctx b))
                                (dstXEnd (footprint ctx b));
                   [(cx + dstX, cy + dstY)]))
      by (intros dstY; apply drawCoords_cols).
    apply NoDup_sweep; apply NoDup_range.
  - unfold bilinearPath. cbn zeta.
    pose proof (safeRange_ordered ctx b) as Hord.
    destruct (safeRange ctx b) as [safeXStart safeXEnd]. cbn [fst snd] in Hord.
    rewrite drawCoords_bind.
    rewrite (bind_ext_in _
      (fun dstY => dstX ← range (dstXStart (footprint ctx b)) safeXStart
                          ++ range safeXStart safeXEnd
                          ++ range safeXEnd (dstXEnd (footprint ctx b));
                   [(cx + dstX, cy + dstY)])).
    + apply NoDup_sweep; [apply NoDup_range|].
      apply NoDup_three_ranges; exact Hord.
    + intros dstY. rewrite !drawCoords_app, !bind_app.
      rewrite !drawCoords_cols. reflexivity.
  - unfold nearestPath. cbn zeta. rewrite drawCoords_bind.
    rewrite (bind_ext_in _
      (fun dstY => dstX ← range (dstXStart (footprint ctx b))
                                (dstXEnd (footprint ctx b));
                   [(cx + dstX, cy + dstY)]))
      by (intros dstY; apply drawCoords_cols).
    apply NoDup_sweep; apply NoDup_range.
Qed.

(** Over a whole decode call, with blocks that cover pairwise different
    source samples, no output coordinate is drawn twice. *)
Lemma decode_draws_each_pixel_once (ctx : JpegContext) (blocks : list JPEGDRAW.t) :
  0 <= fineScaleFP ctx ->
  Forall (blockInImage ctx) blocks ->
  Forall (edgesFitInt ctx) blocks ->
  pairwiseDisjoint blocks ->
  NoDup (drawCoords (blocks ≫= jpegDrawCallback dither ctx)).
Proof.
  intros HF Himg Hfit Hdis.
  induction blocks as [|b rest IH]; [apply NoDup_nil_2|].
  apply Forall_cons in Himg as [Hb Himg].
  apply Forall_cons in Hfit as [Hbf Hfit].
  destruct Hdis as [Hb_rest Hdis].
  cbn. rewrite drawCoords_app. apply NoDup_app.
  split; [apply callback_draws_each_pixel_once|].
  split; [|apply IH; assumption].
  intros [outX outY] H1 H2.
  apply elem_of_drawCoords in H1 as (l1 & H1).
  apply elem_of_drawCoords in H2 as (l2 & H2).
  apply list_elem_of_bind in H2 as (b' & H2 & Hin).
  rewrite Forall_forall in Himg, Hfit, Hb_rest.
  assert (Hx : 0 <= JPEGDRAW.x b) by (destruct Hb as [? _]; lia).
  assert (Hx' : 0 <= JPEGDRAW.x b')
    by (destruct (Himg b' Hin) as [? _]; lia).
  apply (callback_event_in_footprint dither ctx b _ HF Hx Hbf) in H1
    as (x1 & y1 & v1 & Hin1 & He1).
  apply (callback_event_in_footprint dither ctx b' _ HF Hx' (Hfit b' Hin)) in H2
    as (x2 & y2 & v2 & Hin2 & He2).
  destruct He1 as [He1|He1]; [|discriminate He1].
  destruct He2 as [He2|He2]; [|discriminate He2].
  injection He1 as -> -> _. injection He2 as Hxe Hye _.
  assert (x2 = x1) by lia. assert (y2 = y1) by lia. subst x2 y2.
  exact (footprints_disjoint ctx b b' x1 y1 HF Hb (Himg b' Hin) Hbf
           (Hfit b' Hin) (Hb_rest b' Hin) Hin1 Hin2).
Qed.

End Once.

(** C3.  For two blocks of one decode call that cover different samples of
    the scaled source, the clamped destination footprints share no pixel, so
    no output coordinate is drawn to the graphics sink by both blocks and
    none is written to the cache by both. *)
Theorem C3_distinct_blocks_disjoint_footprints
    (dither : Z -> Z -> Z -> Z) (ctx : JpegContext) (b1 b2 : JPEGDRAW.t) :
  0 <= fineScaleFP ctx ->
  blockInImage ctx b1 -> blockInImage ctx b2 ->
  edgesFitInt ctx b1 -> edgesFitInt ctx b2 ->
  sourceDisjoint b1 b2 ->
  (forall dstX dstY,
     ~ (inFootprint (footprint ctx b1) dstX dstY
        /\ inFootprint (footprint ctx b2) dstX dstY))
  /\ (forall outX outY l1 l2,
        ~ (EvDrawPixel outX outY l1 ∈ jpegDrawCallback dither ctx b1
           /\ EvDrawPixel outX outY l2 ∈ jpegDrawCallback dither ctx b2))
  /\ (forall outX outY l1 l2,
        ~ (EvCacheSetPixel outX outY l1 ∈ jpegDrawCallback dither ctx b1
           /\ EvCacheSetPixel outX outY l2 ∈ jpegDrawCallback dither ctx b2)).
Proof.
  intros HF Hb1 Hb2 Hf1 Hf2 Hdis.
  assert (Hfp : forall dstX dstY,
            ~ (inFootprint (footprint ctx b1) dstX dstY
               /\ inFootprint (footprint ctx b2) dstX dstY)).
  { intros dstX dstY [H1 H2].
    exact (footprints_disjoint ctx b1 b2 dstX dstY HF Hb1 Hb2 Hf1 Hf2 Hdis H1 H2). }
  assert (Hx1 : 0 <= JPEGDRAW.x b1) by (destruct Hb1 as [? _]; lia).
  assert (Hx2 : 0 <= JPEGDRAW.x b2) by (destruct Hb2 as [? _]; lia).
  split; [exact Hfp|].
  split; intros outX outY l1 l2 [H1 H2];
    apply (callback_event_in_footprint dither ctx b1 _ HF Hx1 Hf1) in H1
      as (x1 & y1 & v1 & Hin1 & He1);
    apply (callback_event_in_footprint dither ctx b2 _ HF Hx2 Hf2) in H2
      as (x2 & y2 & v2 & Hin2 & He2);
    destruct He1 as [He1|He1]; destruct He2 as [He2|He2];
    try discriminate He1; try discriminate He2;
    injection He1 as -> -> _; injection He2 as Hx Hy _;
    assert (x2 = x1) by lia; assert (y2 = y1) by lia; subst x2 y2;
    exact (Hfp x1 y1 (conj Hin1 Hin2)).
Qed.

Lemma C3_distinct_blocks_witness :
  (0 <= fineScaleFP progressiveCtx
   /\ blockInImage progressiveCtx secondColumnBlock
   /\ blockInImage progressiveCtx lastColumnBlock
   /\ edgesFitInt progressiveCtx secondColumnBlock
   /\ edgesFitInt progressiveCtx lastColumnBlock
   /\ sourceDisjoint secondColumnBlock lastColumnBlock)
  /\ (forall outX outY l1 l2,
        ~ (EvDrawPixel outX outY l1
             ∈ jpegDrawCallback thresholdDither progressiveCtx secondColumnBlock
           /\ EvDrawPixel outX outY l2
                ∈ jpegDrawCallback thresholdDither progressiveCtx lastColumnBlock)).
Proof.
  assert (H0 : 0 <= fineScaleFP progressiveCtx) by (vm_compute; discriminate).
  assert (H1 : blockInImage progressiveCtx secondColumnBlock)
    by (unfold blockInImage; vm_compute; intuition discriminate).
  assert (H2 : blockInImage progressiveCtx lastColumnBlock)
    by (unfold blockInImage; vm_compute; intuition discriminate).
  assert (H3 : edgesFitInt progressiveCtx secondColumnBlock)
    by (unfold edgesFitInt; vm_compute; intuition discriminate).
  assert (H4 : edgesFitInt progressiveCtx lastColumnBlock)
    by (unfold edgesFitInt; vm_compute; intuition discriminate).
  assert (H5 : sourceDisjoint secondColumnBlock lastColumnBlock)
    by (left; vm_compute; discriminate).
  split; [tauto|].
  exact (proj1 (proj2 (C3_distinct_blocks_disjoint_footprints thresholdDither
           progressiveCtx secondColumnBlock lastColumnBlock H0 H1 H2 H3 H4 H5))).
Defined.

(** ** Identity path *)

Lemma quantize_plain (dither : Z -> Z -> Z -> Z) (gray outX outY : Z) :
  0 <= gray < 256 ->
  quantize dither false gray outX outY = Z.min (gray / 85) 3.
Proof.
  intros Hg. unfold quantize. rewrite Z.quot_div_nonneg by lia.
  assert (0 <= gray / 85) by (apply Z.div_pos; lia).
  assert (gray / 85 < 4) by (apply Z.div_lt_upper_bound; lia).
  rewrite wrap8_id by lia.
  destruct (3 <? gray / 85) eqn:E; zbool; lia.
Qed.

(** On the identity path a footprint pixel reads a valid sample of its block
    when the destination is not larger than the scaled source. *)
Lemma identity_sample_valid (ctx : JpegContext) (b : JPEGDRAW.t) (dstX dstY : Z) :
  fineScaleFP ctx = FP_ONE ->
  blockInImage ctx b ->
  JPEGDRAW.x b + JPEGDRAW.iWidthUsed b < 2 ^ 30 ->
  JPEGDRAW.y b + JPEGDRAW.iHeight b < 2 ^ 30 ->
  dstWidth ctx <= scaledSrcWidth ctx ->
  dstHeight ctx <= scaledSrcHeight ctx ->
  inFootprint (footprint ctx b) dstX dstY ->
  validSample b (dstX - JPEGDRAW.x b) (dstY - JPEGDRAW.y b).
Proof.
  intros HF (Hx & Hy & _ & Hw & Hh) Hbx Hby HDw HDh [HX HY].
  change (2 ^ 30) with 1073741824 in *.
  assert (Hmap : forall v, 0 <= v < 1073741824 -> mapToDst (fineScaleFP ctx) v = v).
  { intros v Hv. rewrite HF, FP_ONE_val.
    rewrite mapToDst_div by (change (2 ^ 46) with 70368744177664; lia).
    apply Z.div_mul; lia. }
  destruct (footprint_start_lower ctx b) as [Hsx Hsy].
  destruct (footprint_end_upper ctx b) as [Hex Hey].
  destruct (footprint_within_dst ctx b) as [Hdx Hdy].
  rewrite Hmap in Hsx, Hsy, Hex, Hey by lia.
  unfold validSample. split.
  - destruct (Z_lt_le_dec (JPEGDRAW.x b + JPEGDRAW.iWidthUsed b) (scaledSrcWidth ctx)); lia.
  - destruct (Z_lt_le_dec (JPEGDRAW.y b + JPEGDRAW.iHeight b) (scaledSrcHeight ctx)); lia.
Qed.

(** With [fineScaleFP = FP_ONE] and dithering off, the level drawn at a
    footprint pixel (dstX, dstY) of a block is [min (s / 85) 3], where [s] is
    the one byte at the block-local offset (dstX - blockX, dstY - blockY),
    inside the block or not; a sample of 255 gives level 3; and that offset
    is a valid sample of the block whenever the destination is not larger
    than the scaled source. *)
Lemma identity_path_level
    (dither : Z -> Z -> Z -> Z) (ctx : JpegContext) (pDraw : JPEGDRAW.t)
    (dstX dstY : Z) :
  fineScaleFP ctx = FP_ONE ->
  RenderConfig.useDithering (config ctx) = false ->
  0 < JPEGDRAW.iWidth pDraw -> 0 < JPEGDRAW.iWidthUsed pDraw ->
  0 < JPEGDRAW.iHeight pDraw ->
  inFootprint (footprint ctx pDraw) dstX dstY ->
  let sample :=
    load (JPEGDRAW.pPixels pDraw)
         ((dstY - JPEGDRAW.y pDraw) * JPEGDRAW.iWidth pDraw
          + (dstX - JPEGDRAW.x pDraw)) in
  (forall level,
     EvDrawPixel (RenderConfig.x (config ctx) + dstX)
                 (RenderConfig.y (config ctx) + dstY) level
       ∈ jpegDrawCallback dither ctx pDraw
     <-> level = Z.min (sample / 85) 3)
  /\ (forall outX outY, quantize dither false 255 outX outY = 3)
  /\ (blockInImage ctx pDraw ->
      JPEGDRAW.x pDraw + JPEGDRAW.iWidthUsed pDraw < 2 ^ 30 ->
      JPEGDRAW.y pDraw + JPEGDRAW.iHeight pDraw < 2 ^ 30 ->
      dstWidth ctx <= scaledSrcWidth ctx ->
      dstHeight ctx <= scaledSrcHeight ctx ->
      validSample pDraw (dstX - JPEGDRAW.x pDraw) (dstY - JPEGDRAW.y pDraw)).
Proof.
  intros HF Hdith Hs Hw Hh Hin sample.
  split; [|split; [intros; reflexivity|]].
  2: { intros Himg Hbx Hby HDw HDh.
       apply (identity_sample_valid ctx pDraw dstX dstY); assumption. }
  destruct Hin as [HX HY].
  intros level. unfold jpegDrawCallback.
  replace (JPEGDRAW.iWidth pDraw <=? 0) with false by (symmetry; apply Z.leb_gt; lia).
  replace (JPEGDRAW.iHeight pDraw <=? 0) with false by (symmetry; apply Z.leb_gt; lia).
  replace (JPEGDRAW.iWidthUsed pDraw <=? 0) with false by (symmetry; apply Z.leb_gt; lia).
  replace (dstYEnd (footprint ctx pDraw) <=? dstYStart (footprint ctx pDraw))
    with false by (symmetry; apply Z.leb_gt; lia).
  replace (dstXEnd (footprint ctx pDraw) <=? dstXStart (footprint ctx pDraw))
    with false by (symmetry; apply Z.leb_gt; lia).
  cbn [orb]. rewrite HF, Z.eqb_refl.
  unfold identityPath. cbn zeta. split.
  - intros He. apply list_elem_of_bind in He as (y' & He & _).
    apply list_elem_of_bind in He as (x' & He & _).
    apply elem_of_emitPixel in He. cbn zeta in He.
    destruct He as [He|[_ He]]; [|discriminate He].
    injection He as Hx Hy ->.
    assert (x' = dstX) by lia. assert (y' = dstY) by lia. subst x' y'.
    rewrite Hdith. apply quantize_plain, load_range.
  - intros ->. apply list_elem_of_bind. exists dstY. split.
    + apply list_elem_of_bind. exists dstX. split.
      * apply elem_of_emitPixel. cbn zeta. left.
        rewrite Hdith, quantize_plain by apply load_range. reflexivity.
      * apply elem_of_range; exact HX.
    + apply elem_of_range; exact HY.
Qed.

(** Outside that condition the co-located offset can leave the block.  With
    exact dimensions taller than the scaled source the footprint of the last
    block row runs to [dstHeight], and the identity path, which has no row
    clamp, addresses row 54 of a 16-row block for destination row 150. *)
Example identity_path_tall_destination :
  fineScaleFP tallCtx = FP_ONE
  /\ inFootprint (footprint tallCtx bottomBlock) 0 150
  /\ ~ validSample bottomBlock (0 - JPEGDRAW.x bottomBlock)
                                (150 - JPEGDRAW.y bottomBlock).
Proof.
  split; [reflexivity|].
  split; [unfold inFootprint; vm_compute; intuition discriminate|].
  unfold validSample. vm_compute. intros [_ [_ H]]. discriminate H.
Qed.

(** C5, evaluated on the code.  A baseline 100x100 source shown at exactly
    100x200 has the identity factor, and the footprint of its last block row
    (16 rows from y = 96) runs to destination row 199.  The identity path
    has no row clamp, where the nearest-neighbour and the bilinear path
    clamp the row to the block (row 15 here): for destination row 150 it
    addresses row 54 of the 16-row block.  With every sample of the block at
    255, which is level 3, and the memory behind the block at 0, the pixel
    (0, 150) is drawn at level 0: no sample of the source gives it. *)
Theorem C5_identity_path_reads_past_block :
  fineScaleFP tallCtx = FP_ONE
  /\ RenderConfig.useDithering (config tallCtx) = false
  /\ inFootprint (footprint tallCtx brightBottomBlock) 0 150
  /\ ~ validSample brightBottomBlock (0 - JPEGDRAW.x brightBottomBlock)
                                      (150 - JPEGDRAW.y brightBottomBlock)
  /\ (forall lx ly,
        validSample brightBottomBlock lx ly ->
        Z.min (load (JPEGDRAW.pPixels brightBottomBlock)
                    (ly * JPEGDRAW.iWidth brightBottomBlock + lx) / 85) 3 = 3)
  /\ (forall level,
        EvDrawPixel 0 150 level
          ∈ jpegDrawCallback thresholdDither tallCtx brightBottomBlock
        <-> level = 0)
  /\ nearestLy tallCtx brightBottomBlock 150 = 15
  /\ bilinearRows tallCtx brightBottomBlock 150 = (15, 15).
Proof.
  assert (Hin : inFootprint (footprint tallCtx brightBottomBlock) 0 150)
    by (unfold inFootprint; vm_compute; intuition discriminate).
  split; [reflexivity|]. split; [reflexivity|]. split; [exact Hin|].
  split.
  { unfold validSample. vm_compute. intros [_ [_ H]]. discriminate H. }
  split.
  { intros lx ly [Hx Hy]. cbn [JPEGDRAW.iWidthUsed JPEGDRAW.iHeight
      JPEGDRAW.iWidth JPEGDRAW.pPixels brightBottomBlock] in *.
    unfold load.
    replace ((0 <=? ly * 112 + lx) && (ly * 112 + lx <? 112 * 16)) with true
      by (symmetry; apply andb_true_intro; split;
          [apply Z.leb_le | apply Z.ltb_lt]; lia).
    reflexivity. }
  split; [|split; reflexivity].
  intros level.
  pose proof (identity_path_level thresholdDither tallCtx brightBottomBlock
                0 150 eq_refl eq_refl eq_refl eq_refl eq_refl Hin)
    as (Hlevel & _).
  exact (Hlevel level).
Qed.

(** ** Bilinear path *)

(** When the four sampled offsets hold the same byte, the weighted sums give
    that byte back: the weights add up to [FP_ONE] and the shifts are exact. *)
Lemma bilinearGray_constant (ctx : JpegContext) (pDraw : JPEGDRAW.t)
    (rows cols : Z * Z) (dstX dstY v : Z) :
  let stride := JPEGDRAW.iWidth pDraw in
  let px := load (JPEGDRAW.pPixels pDraw) in
  px (fst rows * stride + fst cols) = v ->
  px (fst rows * stride + snd cols) = v ->
  px (snd rows * stride + fst cols) = v ->
  px (snd rows * stride + snd cols) = v ->
  bilinearGray ctx pDraw rows cols dstX dstY = v.
Proof.
  intros stride px H00 H01 H10 H11. unfold bilinearGray.
  fold stride. fold px. rewrite H00, H01, H10, H11.
  assert (Hv : 0 <= v < 256) by (rewrite <- H00; apply load_range).
  rewrite !shiftr_FP, FP_ONE_val.
  set (fx := Z.land _ FP_MASK). set (fy := Z.land (srcFP _ dstY) FP_MASK).
  replace (v * (65536 - fx) + v * fx) with (v * 65536) by ring.
  rewrite Z.div_mul by lia.
  replace (v * (65536 - fy) + v * fy) with (v * 65536) by ring.
  rewrite Z.div_mul by lia.
  apply wrap8_id; exact Hv.
Qed.

(** The upper half of the interior guarantee holds: inside the safe range
    the upper column index [lx0 + 1] stays within the block's valid columns.
    Only the lower bound [0 <= lx0] can fail. *)
Lemma interior_upper_index_in_range (ctx : JpegContext) (b : JPEGDRAW.t) (dstX : Z) :
  0 <= fineScaleFP ctx -> 0 < invScaleFP ctx ->
  fineScaleFP ctx * invScaleFP ctx <= FP_ONE * FP_ONE ->
  0 <= JPEGDRAW.x b -> 0 < JPEGDRAW.iWidthUsed b ->
  edgesFitInt ctx b ->
  in_int32 (dstX * invScaleFP ctx) ->
  fst (safeRange ctx b) <= dstX < snd (safeRange ctx b) ->
  snd (interiorCols ctx b dstX) <= JPEGDRAW.iWidthUsed b - 1.
Proof.
  intros HF HI Hprod Hx Hw [Hfit _] Hno Hsafe.
  rewrite FP_ONE_val in Hprod.
  set (F := fineScaleFP ctx) in *. set (I := invScaleFP ctx) in *.
  set (bx := JPEGDRAW.x b) in *. set (vw := JPEGDRAW.iWidthUsed b) in *.
  assert (Hend : dstX < mapToDst F (bx + vw - 1)).
  { revert Hsafe. unfold safeRange. cbn -[footprint wrap32 Z.shiftr FP_MASK FP_SHIFT].
    fold F bx vw. fold (mapToDst F (bx + vw - 1)).
    set (fp := footprint ctx b). set (rs := wrap32 _).
    split_ifs; lia. }
  assert (Hle : (bx + vw - 1) * F <= (bx + vw) * F) by (apply Z.mul_le_mono_nonneg_r; lia).
  rewrite mapToDst_div in Hend by lia.
  assert (Hmul : (dstX + 1) * 65536 <= (bx + vw - 1) * F).
  { pose proof (div_bounds ((bx + vw - 1) * F) 65536 ltac:(lia)). lia. }
  assert (H1 : (dstX + 1) * 65536 * I <= (bx + vw - 1) * F * I)
    by (apply Z.mul_le_mono_nonneg_r; lia).
  assert (H2 : (bx + vw - 1) * (F * I) <= (bx + vw - 1) * (65536 * 65536))
    by (apply Z.mul_le_mono_nonneg_l; lia).
  assert (H3 : (dstX + 1) * I * 65536 <= (bx + vw - 1) * 65536 * 65536) by lia.
  assert (H4 : (dstX + 1) * I <= (bx + vw - 1) * 65536)
    by (apply Z.mul_le_mono_pos_r with (p := 65536); lia).
  assert (H5 : dstX * I / 65536 < bx + vw - 1)
    by (apply Z.div_lt_upper_bound; lia).
  unfold interiorCols, bilinearLx0, srcFP. cbn [snd].
  fold I bx vw. rewrite wrap32_id by exact Hno. rewrite shiftr_FP. lia.
Qed.

(** C1, evaluated on the code.  For the progressive 800x600 source shown at
    300x225, the block at x = 16 of width 16 has the safe interior range
    [48, 93), and at its first destination column 48 the unclamped lower
    index is [lx0 = -1]: the interior loop reads one byte before the row.
    The upper index is in range there, as [interior_upper_index_in_range]
    shows in general. *)
Theorem C1_interior_index_before_row :
  FP_ONE < fineScaleFP progressiveCtx
  /\ blockInImage progressiveCtx secondColumnBlock
  /\ safeRange progressiveCtx secondColumnBlock = (48, 93)
  /\ interiorCols progressiveCtx secondColumnBlock 48 = (-1, 0)
  /\ ~ validSample secondColumnBlock (fst (interiorCols progressiveCtx secondColumnBlock 48)) 0.
Proof.
  split; [reflexivity|]. split.
  { unfold blockInImage. vm_compute. intuition congruence. }
  split; [reflexivity|]. split; [reflexivity|].
  unfold validSample. vm_compute. intros [[H _] _]. apply H. reflexivity.
Qed.

(** C10, evaluated on the code.  Every valid sample of the block at x = 96 is
    85, destination pixel (288, 28) lies in the block's footprint and in its
    safe interior range, and the interpolated gray is 84: the lower column
    index is -1 and the weighted sum blends in the padding byte of the
    previous row. *)
Theorem C10_constant_block_not_preserved :
  (forall lx ly, validSample lastColumnBlock lx ly ->
     load (JPEGDRAW.pPixels lastColumnBlock)
          (ly * JPEGDRAW.iWidth lastColumnBlock + lx) = 85)
  /\ inFootprint (footprint progressiveCtx lastColumnBlock) 288 28
  /\ fst (safeRange progressiveCtx lastColumnBlock) <= 288
       < snd (safeRange progressiveCtx lastColumnBlock)
  /\ bilinearRows progressiveCtx lastColumnBlock 28 = (1, 1)
  /\ interiorCols progressiveCtx lastColumnBlock 288 = (-1, 0)
  /\ bilinearGray progressiveCtx lastColumnBlock
       (bilinearRows progressiveCtx lastColumnBlock 28)
       (interiorCols progressiveCtx lastColumnBlock 288) 288 28 = 84
  /\ EvDrawPixel 288 28 0
       ∈ jpegDrawCallback thresholdDither progressiveCtx lastColumnBlock
  /\ quantize thresholdDither false 85 288 28 = 1.
Proof.
  split.
  { intros lx ly [Hx Hy]. cbn in Hx, Hy.
    assert (Hlx : lx = 0 \/ lx = 1 \/ lx = 2 \/ lx = 3) by lia.
    assert (Hly : ly = 0 \/ ly = 1) by lia.
    destruct Hlx as [->|[->|[->| ->]]]; destruct Hly as [->| ->]; reflexivity. }
  split; [unfold inFootprint; vm_compute; intuition congruence|].
  split; [vm_compute; intuition congruence|].
  split; [reflexivity|]. split; [reflexivity|].
  split; [reflexivity|]. split; [|reflexivity].
  apply list_elem_of_In. vm_compute. tauto.
Qed.

(** The right edge loop clamps from above only.  When the block has a single
    valid column the safe range is empty, the right edge loop starts at the
    block's first destination column, and the same index -1 is read there. *)
Example right_edge_index_before_row :
  safeRange narrowCtx singleColumnBlock = (288, 288)
  /\ inFootprint (footprint narrowCtx singleColumnBlock) 288 28
  /\ rightEdgeCols narrowCtx singleColumnBlock 288 = (-1, 0)
  /\ bilinearGray narrowCtx singleColumnBlock
       (bilinearRows narrowCtx singleColumnBlock 28)
       (rightEdgeCols narrowCtx singleColumnBlock 288) 288 28 = 84.
Proof.
  split; [reflexivity|].
  split; [unfold inFootprint; vm_compute; intuition congruence|].
  split; reflexivity.
Qed.

(** ** Nearest-neighbour path *)

(** C9.  On the nearest-neighbour path the clamped source column [lx] read
    for destination column [dstX] does not decrease when [dstX] grows, as
    long as the 32-bit product [dstX * invScaleFP] does not overflow. *)
Theorem C9_nearest_column_monotone
    (ctx : JpegContext) (pDraw : JPEGDRAW.t) (x1 x2 : Z) :
  0 <= invScaleFP ctx ->
  in_int32 (x1 * invScaleFP ctx) ->
  in_int32 (x2 * invScaleFP ctx) ->
  x1 <= x2 ->
  nearestLx ctx pDraw x1 <= nearestLx ctx pDraw x2.
Proof.
  intros HI H1 H2 Hle. unfold nearestLx, srcFP.
  rewrite !wrap32_id by assumption. rewrite !shiftr_FP.
  assert (Hm : x1 * invScaleFP ctx / 65536 <= x2 * invScaleFP ctx / 65536)
    by (apply Z.div_le_mono; nia).
  cbn zeta. split_ifs; lia.
Qed.

Lemma C9_nearest_column_witness :
  (0 <= invScaleFP downscaleCtx
   /\ in_int32 (3 * invScaleFP downscaleCtx)
   /\ in_int32 (7 * invScaleFP downscaleCtx)
   /\ 3 <= 7)
  /\ nearestLx downscaleCtx rampBlock 3 <= nearestLx downscaleCtx rampBlock 7.
Proof.
  assert (H0 : 0 <= invScaleFP downscaleCtx) by (vm_compute; discriminate).
  assert (H1 : in_int32 (3 * invScaleFP downscaleCtx))
    by (unfold in_int32; vm_compute; intuition discriminate).
  assert (H2 : in_int32 (7 * invScaleFP downscaleCtx))
    by (unfold in_int32; vm_compute; intuition discriminate).
  assert (H3 : 3 <= 7) by (vm_compute; discriminate).
  split; [tauto|].
  exact (C9_nearest_column_monotone downscaleCtx rampBlock 3 7 H0 H1 H2 H3).
Defined.

(** ** The orchestrator: heap guard and cache write-through *)

(** C7.  With less free heap than [MIN_FREE_HEAP_FOR_JPEG] the call returns
    [false] with no event at all: no decoder instance is allocated and the
    source file is not opened. *)
Theorem C7_low_heap_fails_before_engine
    (dither : Z -> Z -> Z -> Z) (w : World) (imagePath : string)
    (cfg : RenderConfig.t) :
  freeHeap w < MIN_FREE_HEAP_FOR_JPEG ->
  decodeToFramebuffer dither w imagePath cfg = Some (false, [])
  /\ (forall run,
        decodeToFramebuffer dither w imagePath cfg = Some run ->
        (EvNewDecoder ∉ snd run) /\ (forall path, EvOpen path ∉ snd run)).
Proof.
  intros Hheap.
  assert (Hrun : decodeToFramebuffer dither w imagePath cfg = Some (false, [])).
  { unfold decodeToFramebuffer.
    replace (freeHeap w <? MIN_FREE_HEAP_FOR_JPEG) with true
      by (symmetry; apply Z.ltb_lt; exact Hheap).
    reflexivity. }
  split; [exact Hrun|]. intros run Hsome. rewrite Hrun in Hsome.
  injection Hsome as <-. cbn [snd].
  split; [|intros path]; apply not_elem_of_nil.
Qed.

Lemma C7_low_heap_witness :
  freeHeap (withFreeHeap (referenceWorld 800 600 false []) 36863)
    < MIN_FREE_HEAP_FOR_JPEG
  /\ decodeToFramebuffer thresholdDither
       (withFreeHeap (referenceWorld 800 600 false []) 36863)
       "/book/cover.jpg" identityConfig = Some (false, []).
Proof.
  assert (H : freeHeap (withFreeHeap (referenceWorld 800 600 false []) 36863)
              < MIN_FREE_HEAP_FOR_JPEG) by reflexivity.
  split; [exact H|].
  exact (proj1 (C7_low_heap_fails_before_engine thresholdDither _
                  "/book/cover.jpg" identityConfig H)).
Defined.

Section OrchestratorFacts.

Variable dither : Z -> Z -> Z -> Z.






End OrchestratorFacts.




(** * Further properties of the converter *)

(** ** What a block emits *)

Lemma filter_mirror_bind {A : Type} (p q : Event -> bool) (m : Event -> Event)
    (f : A -> list Event) (l : list A) :
  (forall a, List.filter p (f a) = map m (List.filter q (f a))) ->
  List.filter p (l ≫= f) = map m (List.filter q (l ≫= f)).
Proof.
  intros Hf. induction l as [|a l IH]; [reflexivity|].
  cbn. rewrite !List.filter_app, map_app, Hf, IH. reflexivity.
Qed.

Section BlockEvents.

Variable dither : Z -> Z -> Z -> Z.

(** A block emits draw events, and cache events only while caching. *)
Lemma callback_events_are_pixels (ctx : JpegContext) (b : JPEGDRAW.t) (e : Event) :
  e ∈ jpegDrawCallback dither ctx b ->
  exists outX outY level,
    e = EvDrawPixel outX outY level
    \/ (caching ctx = true /\ e = EvCacheSetPixel outX outY level).
Proof.
  assert (Hemit : forall dstX dstY gray,
            e ∈ emitPixel dither ctx dstX dstY gray ->
            exists outX outY level,
              e = EvDrawPixel outX outY level
              \/ (caching ctx = true /\ e = EvCacheSetPixel outX outY level)).
  { intros dstX dstY gray He. apply elem_of_emitPixel in He. cbn zeta in He.
    do 3 eexists. exact He. }
  unfold jpegDrawCallback.
  destruct (_ || _ || _); [rewrite elem_of_nil; tauto|].
  destruct (_ || _); [rewrite elem_of_nil; tauto|].
  destruct (fineScaleFP ctx =? FP_ONE); [|destruct (FP_ONE <? fineScaleFP ctx)].
  - unfold identityPath. cbn zeta. intros He.
    apply list_elem_of_bind in He as (dstY & He & _).
    apply list_elem_of_bind in He as (dstX & He & _). eauto.
  - unfold bilinearPath. cbn zeta.
    destruct (safeRange ctx b) as [safeXStart safeXEnd]. intros He.
    apply list_elem_of_bind in He as (dstY & He & _).
    rewrite !elem_of_app in He.
    destruct He as [He|[He|He]];
      apply list_elem_of_bind in He as (dstX & He & _); eauto.
  - unfold nearestPath. cbn zeta. intros He.
    apply list_elem_of_bind in He as (dstY & He & _).
    apply list_elem_of_bind in He as (dstX & He & _). eauto.
Qed.

Lemma no_lifecycle_event_in_blocks (p : Event -> bool) (ctx : JpegContext)
    (blocks : list JPEGDRAW.t) :
  (forall outX outY level, p (EvDrawPixel outX outY level) = false) ->
  (forall outX outY level, p (EvCacheSetPixel outX outY level) = false) ->
  List.filter p (blocks ≫= jpegDrawCallback dither ctx) = [].
Proof.
  intros Hd Hc. apply filter_none. intros e He.
  apply list_elem_of_bind in He as (b & He & _).
  apply callback_events_are_pixels in He as (x & y & l & [->|[_ ->]]); auto.
Qed.

Lemma mirror_of_emitPixel (ctx : JpegContext) (dstX dstY gray : Z) :
  caching ctx = true ->
  List.filter isCacheSet (emitPixel dither ctx dstX dstY gray)
  = map mirrorToCache (List.filter isDraw (emitPixel dither ctx dstX dstY gray)).
Proof. intros Hc. unfold emitPixel. rewrite Hc. reflexivity. Qed.

(** While caching, the cache pixels of a block are its drawn pixels, one for
    one and in the same order. *)
Lemma mirror_of_callback (ctx : JpegContext) (b : JPEGDRAW.t) :
  caching ctx = true ->
  List.filter isCacheSet (jpegDrawCallback dither ctx b)
  = map mirrorToCache (List.filter isDraw (jpegDrawCallback dither ctx b)).
Proof.
  intros Hc. unfold jpegDrawCallback.
  destruct (_ || _ || _); [reflexivity|].
  destruct (_ || _); [reflexivity|].
  destruct (fineScaleFP ctx =? FP_ONE); [|destruct (FP_ONE <? fineScaleFP ctx)].
  - unfold identityPath. cbn zeta.
    apply filter_mirror_bind. intros dstY.
    apply filter_mirror_bind. intros dstX.
    apply mirror_of_emitPixel, Hc.
  - unfold bilinearPath. cbn zeta.
    destruct (safeRange ctx b) as [safeXStart safeXEnd].
    apply filter_mirror_bind. intros dstY.
    rewrite !List.filter_app, !map_app.
    f_equal; [|f_equal]; apply filter_mirror_bind; intros dstX;
      apply mirror_of_emitPixel, Hc.
  - unfold nearestPath. cbn zeta.
    apply filter_mirror_bind. intros dstY.
    apply filter_mirror_bind. intros dstX.
    apply mirror_of_emitPixel, Hc.
Qed.

Lemma no_cache_set_without_caching (ctx : JpegContext) (blocks : list JPEGDRAW.t) :
  caching ctx = false ->
  List.filter isCacheSet (blocks ≫= jpegDrawCallback dither ctx) = [].
Proof.
  intros Hc. apply filter_none. intros e He.
  apply list_elem_of_bind in He as (b & He & _).
  apply callback_events_are_pixels in He as (x & y & l & [->|[Ht ->]]);
    [reflexivity|congruence].
Qed.

End BlockEvents.

(** ** Cache write-through *)

Lemma makeContext_caching (w : World) (cfg : RenderConfig.t) (size : TargetSize)
    (jpegScaleDenom : Z) (cachingActive : bool) (ctx : JpegContext) :
  makeContext w cfg size jpegScaleDenom cachingActive = Some ctx ->
  caching ctx = cachingActive.
Proof.
  unfold makeContext. destruct (computeInvScaleFP _ _); [|discriminate].
  intros [= <-]. reflexivity.
Qed.

(** X1.  The pixels stored in the cache during a call that returns are
    exactly the pixels drawn, with the same coordinates and levels and in the
    same order, when caching is requested and allocated; otherwise none is
    stored. *)
Theorem X1_cache_mirrors_drawn_pixels
    (dither : Z -> Z -> Z -> Z) (w : World) (imagePath : string)
    (cfg : RenderConfig.t) (run : bool * list Event) :
  decodeToFramebuffer dither w imagePath cfg = Some run ->
  let size := computeTargetSize cfg (jpegWidth w) (jpegHeight w) in
  let cachingActive :=
    negb (stringEmpty (RenderConfig.cachePath cfg))
    && cacheAllocate w (destWidth size) (destHeight size)
                     (RenderConfig.x cfg) (RenderConfig.y cfg) in
  cacheSets run
  = if cachingActive then map mirrorToCache (drawnPixels run) else [].
Proof.
  cbv zeta. unfold cacheSets, drawnPixels, decodeToFramebuffer.
  set (active := negb _ && cacheAllocate w _ _ _ _).
  destruct (freeHeap w <? MIN_FREE_HEAP_FOR_JPEG);
    [intros [= <-]; destruct active; reflexivity|].
  destruct (negb (newDecoderOk w));
    [intros [= <-]; destruct active; reflexivity|].
  destruct (negb (openResult w =? 1));
    [intros [= <-]; destruct active; reflexivity|].
  destruct (_ || _); [intros [= <-]; destruct active; reflexivity|].
  destruct (negb (validateImageDimensions w _ _));
    [intros [= <-]; destruct active; reflexivity|].
  set (size := computeTargetSize cfg (jpegWidth w) (jpegHeight w)) in *.
  destruct (selectJpegScale (jpegProgressive w) (targetScale size))
    as [jpegScaleDenom jpegScaleOption].
  destruct (makeContext w cfg size jpegScaleDenom active) as [ctx|] eqn:Hmk;
    [|discriminate].
  apply makeContext_caching in Hmk as Hctx.
  set (blocks := decodeBlocks w jpegScaleOption).
  assert (Hsets :
    List.filter isCacheSet
      (blocks ≫= (fun pDraw => jpegDrawCallback dither ctx pDraw))
    = if active
      then map mirrorToCache
             (List.filter isDraw
                (blocks ≫= (fun pDraw => jpegDrawCallback dither ctx pDraw)))
      else []).
  { destruct active eqn:Ha.
    - apply filter_mirror_bind. intros b. apply mirror_of_callback. exact Hctx.
    - apply (no_cache_set_without_caching dither ctx blocks). exact Hctx. }
  cbv zeta.
  destruct (negb (decodeResult w jpegScaleOption =? 1));
    intros [= <-]; cbn [snd]; cbn [List.filter isCacheSet isDraw];
    rewrite !List.filter_app, Hsets;
    destruct (negb (stringEmpty (RenderConfig.cachePath cfg)));
    destruct active; cbn; rewrite ?app_nil_r; reflexivity.
Qed.

Lemma X1_cache_mirrors_witness :
  exists run,
    decodeToFramebuffer thresholdDither
      (referenceWorld 800 600 false [rampBlock]) "/book/img_0.jpg"
      (withCachePath identityConfig "/cache/img_0.pxc") = Some run
    /\ cacheSets run = map mirrorToCache (drawnPixels run)
    /\ length (cacheSets run) = 256%nat.
Proof.
  assert (Hr : exists r,
            decodeToFramebuffer thresholdDither
              (referenceWorld 800 600 false [rampBlock]) "/book/img_0.jpg"
              (withCachePath identityConfig "/cache/img_0.pxc") = Some r)
    by (eexists; vm_compute; reflexivity).
  destruct Hr as [r Hr]. exists r. split; [exact Hr|].
  pose proof (X1_cache_mirrors_drawn_pixels thresholdDither _ _ _ r Hr) as Hm.
  cbv zeta in Hm. split; [exact Hm|].
  revert Hr. vm_compute. intros [= <-]. reflexivity.
Defined.

(** ** Resources *)

(** X2.  On every path on which the call returns, the decoder instance is
    released as often as it was created (at most once), and the source is
    closed exactly when the decoder was created and the engine opened it. *)
Theorem X2_decoder_released_on_every_return
    (dither : Z -> Z -> Z -> Z) (w : World) (imagePath : string)
    (cfg : RenderConfig.t) (run : bool * list Event) :
  decodeToFramebuffer dither w imagePath cfg = Some run ->
  let events := snd run in
  countEvents isNewDecoder events = countEvents isDeleteDecoder events
  /\ (countEvents isNewDecoder events <= 1)%nat
  /\ countEvents isClose events
     = (if (openResult w =? 1) then countEvents isNewDecoder events else 0%nat).
Proof.
  cbv zeta. unfold countEvents, decodeToFramebuffer.
  destruct (freeHeap w <? MIN_FREE_HEAP_FOR_JPEG);
    [intros [= <-]; destruct (openResult w =? 1); cbn; auto|].
  destruct (negb (newDecoderOk w));
    [intros [= <-]; destruct (openResult w =? 1); cbn; auto|].
  destruct (openResult w =? 1) eqn:Hopen; cbn [negb];
    [|intros [= <-]; cbn; auto].
  destruct (_ || _); [intros [= <-]; cbn; auto|].
  destruct (negb (validateImageDimensions w _ _)); [intros [= <-]; cbn; auto|].
  set (size := computeTargetSize cfg (jpegWidth w) (jpegHeight w)).
  destruct (selectJpegScale (jpegProgressive w) (targetScale size))
    as [jpegScaleDenom jpegScaleOption].
  destruct (makeContext w cfg size jpegScaleDenom _) as [ctx|]; [|discriminate].
  cbv zeta.
  destruct (negb (decodeResult w jpegScaleOption =? 1));
    intros [= <-]; cbn [snd];
    cbn [List.filter isNewDecoder isDeleteDecoder isClose];
    rewrite !List.filter_app;
    rewrite !(no_lifecycle_event_in_blocks dither _ ctx) by reflexivity;
    destruct (negb (stringEmpty (RenderConfig.cachePath cfg)));
    try destruct (cacheAllocate w _ _ _ _); cbn; auto.
Qed.

Lemma X2_decoder_released_witness :
  exists run,
    decodeToFramebuffer thresholdDither twoBlockWorld "/book/cover.jpg"
      progressiveConfig = Some run
    /\ countEvents isNewDecoder (snd run) = 1%nat
    /\ countEvents isDeleteDecoder (snd run) = 1%nat
    /\ countEvents isClose (snd run) = 1%nat.
Proof.
  assert (Hr : exists r,
            decodeToFramebuffer thresholdDither twoBlockWorld "/book/cover.jpg"
              progressiveConfig = Some r)
    by (eexists; vm_compute; reflexivity).
  destruct Hr as [r Hr]. exists r. split; [exact Hr|].
  pose proof (X2_decoder_released_on_every_return thresholdDither _ _ _ r Hr)
    as (Heq & _ & Hclose).
  cbv zeta in Heq, Hclose. change (openResult twoBlockWorld =? 1) with true in Hclose.
  assert (Hnew : countEvents isNewDecoder (snd r) = 1%nat)
    by (revert Hr; vm_compute; intros [= <-]; reflexivity).
  split; [exact Hnew|]. split; [rewrite <- Heq; exact Hnew|].
  rewrite Hclose. exact Hnew.
Defined.

(** ** Where a block draws *)

(** The clamped footprint lies inside the screen and inside the destination
    rectangle, whatever the block. *)
Lemma footprint_clamped (ctx : JpegContext) (b : JPEGDRAW.t) :
  let fp := footprint ctx b in
  let cfgX := RenderConfig.x (config ctx) in
  let cfgY := RenderConfig.y (config ctx) in
  - cfgX <= dstXStart fp /\ - cfgY <= dstYStart fp
  /\ dstXEnd fp <= screenWidth ctx - cfgX
  /\ dstYEnd fp <= screenHeight ctx - cfgY
  /\ dstXEnd fp <= dstWidth ctx /\ dstYEnd fp <= dstHeight ctx.
Proof.
  unfold footprint; cbn -[mapToDst]. repeat split; split_ifs; lia.
Qed.

(** X3.  Every pixel a block draws or stores in the cache is on the screen
    and inside the destination rectangle the cache is allocated for. *)
Theorem X3_pixels_inside_screen_and_destination
    (dither : Z -> Z -> Z -> Z) (ctx : JpegContext) (b : JPEGDRAW.t)
    (e : Event) (outX outY level : Z) :
  0 <= fineScaleFP ctx ->
  0 <= JPEGDRAW.x b -> 0 <= JPEGDRAW.y b ->
  0 < JPEGDRAW.iWidthUsed b -> 0 < JPEGDRAW.iHeight b ->
  edgesFitInt ctx b ->
  e ∈ jpegDrawCallback dither ctx b ->
  e = EvDrawPixel outX outY level \/ e = EvCacheSetPixel outX outY level ->
  (0 <= outX < screenWidth ctx /\ 0 <= outY < screenHeight ctx)
  /\ (RenderConfig.x (config ctx) <= outX < RenderConfig.x (config ctx) + dstWidth ctx
      /\ RenderConfig.y (config ctx) <= outY < RenderConfig.y (config ctx) + dstHeight ctx).
Proof.
  intros HF Hx Hy Hw Hh [Hfx Hfy] He Hshape.
  apply (callback_event_in_footprint dither ctx b e HF Hx (conj Hfx Hfy)) in He
    as (dstX & dstY & v & [HX HY] & He).
  assert (Hout : outX = RenderConfig.x (config ctx) + dstX
                 /\ outY = RenderConfig.y (config ctx) + dstY).
  { destruct Hshape as [->| ->]; destruct He as [He|He];
      try discriminate He; injection He as -> -> _; split; reflexivity. }
  destruct Hout as [-> ->].
  pose proof (footprint_clamped ctx b) as Hc. cbv zeta in Hc.
  destruct Hc as (Hc1 & Hc2 & Hc3 & Hc4 & Hc5 & Hc6).
  destruct (footprint_start_lower ctx b) as [Hsx Hsy].
  assert (Hxf : JPEGDRAW.x b * fineScaleFP ctx
                <= (JPEGDRAW.x b + JPEGDRAW.iWidthUsed b) * fineScaleFP ctx) by nia.
  assert (Hyf : JPEGDRAW.y b * fineScaleFP ctx
                <= (JPEGDRAW.y b + JPEGDRAW.iHeight b) * fineScaleFP ctx) by nia.
  rewrite mapToDst_div in Hsx, Hsy by lia.
  assert (0 <= JPEGDRAW.x b * fineScaleFP ctx / 65536)
    by (apply Z.div_pos; [apply Z.mul_nonneg_nonneg|]; lia).
  assert (0 <= JPEGDRAW.y b * fineScaleFP ctx / 65536)
    by (apply Z.div_pos; [apply Z.mul_nonneg_nonneg|]; lia).
  lia.
Qed.

Lemma X3_pixels_inside_witness :
  EvDrawPixel 48 0 1 ∈ jpegDrawCallback thresholdDither progressiveCtx secondColumnBlock
  /\ (0 <= 48 < screenWidth progressiveCtx /\ 0 <= 0 < screenHeight progressiveCtx)
  /\ (RenderConfig.x (config progressiveCtx) <= 48
        < RenderConfig.x (config progressiveCtx) + dstWidth progressiveCtx
      /\ RenderConfig.y (config progressiveCtx) <= 0
           < RenderConfig.y (config progressiveCtx) + dstHeight progressiveCtx).
Proof.
  assert (He : EvDrawPixel 48 0 1
               ∈ jpegDrawCallback thresholdDither progressiveCtx secondColumnBlock)
    by (apply list_elem_of_In; vm_compute; left; reflexivity).
  split; [exact He|].
  apply (X3_pixels_inside_screen_and_destination thresholdDither progressiveCtx
           secondColumnBlock (EvDrawPixel 48 0 1) 48 0 1).
  - vm_compute. discriminate.
  - vm_compute. discriminate.
  - vm_compute. discriminate.
  - vm_compute. reflexivity.
  - vm_compute. reflexivity.
  - unfold edgesFitInt. vm_compute. intuition discriminate.
  - exact He.
  - left. reflexivity.
Defined.

(** X4.  A block draws exactly the pixels of its clamped footprint, each of
    them once. *)
Theorem X4_block_draws_its_footprint_once
    (dither : Z -> Z -> Z -> Z) (ctx : JpegContext) (b : JPEGDRAW.t) :
  0 <= fineScaleFP ctx ->
  0 <= JPEGDRAW.x b ->
  0 < JPEGDRAW.iWidth b -> 0 < JPEGDRAW.iWidthUsed b -> 0 < JPEGDRAW.iHeight b ->
  edgesFitInt ctx b ->
  (forall dstX dstY,
     (RenderConfig.x (config ctx) + dstX, RenderConfig.y (config ctx) + dstY)
       ∈ drawCoords (jpegDrawCallback dither ctx b)
     <-> inFootprint (footprint ctx b) dstX dstY)
  /\ NoDup (drawCoords (jpegDrawCallback dither ctx b)).
Proof.
  intros HF Hx Hs Hw Hh Hfit.
  split; [|apply callback_draws_each_pixel_once].
  intros dstX dstY. rewrite elem_of_drawCoords. split.
  - intros (level & He).
    apply (callback_event_in_footprint dither ctx b _ HF Hx Hfit) in He
      as (x' & y' & v & Hin & He).
    destruct He as [He|He]; [|discriminate He].
    injection He as Hxe Hye _.
    assert (x' = dstX) by lia. assert (y' = dstY) by lia. subst. exact Hin.
  - intros [HX HY].
    assert (Hemit : forall gray, exists level,
              EvDrawPixel (RenderConfig.x (config ctx) + dstX)
                          (RenderConfig.y (config ctx) + dstY) level
                ∈ emitPixel dither ctx dstX dstY gray).
    { intros gray. eexists. apply elem_of_emitPixel. cbn zeta. left. reflexivity. }
    unfold jpegDrawCallback.
    replace (JPEGDRAW.iWidth b <=? 0) with false by (symmetry; apply Z.leb_gt; lia).
    replace (JPEGDRAW.iHeight b <=? 0) with false by (symmetry; apply Z.leb_gt; lia).
    replace (JPEGDRAW.iWidthUsed b <=? 0) with false by (symmetry; apply Z.leb_gt; lia).
    replace (dstYEnd (footprint ctx b) <=? dstYStart (footprint ctx b))
      with false by (symmetry; apply Z.leb_gt; lia).
    replace (dstXEnd (footprint ctx b) <=? dstXStart (footprint ctx b))
      with false by (symmetry; apply Z.leb_gt; lia).
    cbn [orb].
    destruct (fineScaleFP ctx =? FP_ONE); [|destruct (FP_ONE <? fineScaleFP ctx)].
    + unfold identityPath. cbn zeta.
      destruct (Hemit (load (JPEGDRAW.pPixels b)
                  ((dstY - JPEGDRAW.y b) * JPEGDRAW.iWidth b
                   + (dstX - JPEGDRAW.x b)))) as (level & He).
      exists level. apply list_elem_of_bind. exists dstY.
      split; [|apply elem_of_range; exact HY].
      apply list_elem_of_bind. exists dstX.
      split; [exact He|apply elem_of_range; exact HX].
    + unfold bilinearPath. cbn zeta.
      pose proof (safeRange_within ctx b HF Hx Hw Hfit ltac:(lia)) as Hsafe.
      destruct (safeRange ctx b) as [safeXStart safeXEnd].
      cbn [fst snd] in Hsafe. destruct Hsafe as (Hs1 & Hs2 & Hs3).
      set (rows := bilinearRows ctx b dstY).
      destruct (Z_lt_le_dec dstX safeXStart) as [Hl|Hl];
        [|destruct (Z_lt_le_dec dstX safeXEnd) as [Hm|Hm]].
      * destruct (Hemit (bilinearGray ctx b rows (leftEdgeCols ctx b dstX) dstX dstY))
          as (level & He).
        exists level. apply list_elem_of_bind. exists dstY.
        split; [|apply elem_of_range; exact HY].
        apply elem_of_app. left. apply list_elem_of_bind. exists dstX.
        split; [exact He|apply elem_of_range; lia].
      * destruct (Hemit (bilinearGray ctx b rows (interiorCols ctx b dstX) dstX dstY))
          as (level & He).
        exists level. apply list_elem_of_bind. exists dstY.
        split; [|apply elem_of_range; exact HY].
        apply elem_of_app. right. apply elem_of_app. left.
        apply list_elem_of_bind. exists dstX.
        split; [exact He|apply elem_of_range; lia].
      * destruct (Hemit (bilinearGray ctx b rows (rightEdgeCols ctx b dstX) dstX dstY))
          as (level & He).
        exists level. apply list_elem_of_bind. exists dstY.
        split; [|apply elem_of_range; exact HY].
        apply elem_of_app. right. apply elem_of_app. right.
        apply list_elem_of_bind. exists dstX.
        split; [exact He|apply elem_of_range; lia].
    + unfold nearestPath. cbn zeta.
      destruct (Hemit (load (JPEGDRAW.pPixels b)
                  (nearestLy ctx b dstY * JPEGDRAW.iWidth b
                   + nearestLx ctx b dstX))) as (level & He).
      exists level. apply list_elem_of_bind. exists dstY.
      split; [|apply elem_of_range; exact HY].
      apply list_elem_of_bind. exists dstX.
      split; [exact He|apply elem_of_range; exact HX].
Qed.

Lemma X4_block_draws_its_footprint_witness :
  ((RenderConfig.x (config progressiveCtx) + 48,
    RenderConfig.y (config progressiveCtx) + 0)
     ∈ drawCoords (jpegDrawCallback thresholdDither progressiveCtx secondColumnBlock)
   <-> inFootprint (footprint progressiveCtx secondColumnBlock) 48 0)
  /\ NoDup (drawCoords (jpegDrawCallback thresholdDither progressiveCtx secondColumnBlock)).
Proof.
  destruct (X4_block_draws_its_footprint_once thresholdDither progressiveCtx
              secondColumnBlock) as [Hin Hnodup].
  - vm_compute. discriminate.
  - vm_compute. discriminate.
  - vm_compute. reflexivity.
  - vm_compute. reflexivity.
  - vm_compute. reflexivity.
  - unfold edgesFitInt. vm_compute. intuition discriminate.
  - split; [exact (Hin 48 0) | exact Hnodup].
Defined.

(** X5.  Blocks that are neighbours in the scaled source leave no gap in the
    destination: a column between the start of the left footprint and the
    end of the right one belongs to one of the two, and likewise for rows of
    blocks one above the other. *)
Theorem X5_neighbour_footprints_leave_no_gap
    (ctx : JpegContext) (b1 b2 : JPEGDRAW.t) (d : Z) :
  (JPEGDRAW.x b1 + JPEGDRAW.iWidthUsed b1 = JPEGDRAW.x b2 ->
   JPEGDRAW.x b2 < scaledSrcWidth ctx ->
   dstXStart (footprint ctx b1) <= d < dstXEnd (footprint ctx b2) ->
   dstXStart (footprint ctx b1) <= d < dstXEnd (footprint ctx b1)
   \/ dstXStart (footprint ctx b2) <= d < dstXEnd (footprint ctx b2))
  /\ (JPEGDRAW.y b1 + JPEGDRAW.iHeight b1 = JPEGDRAW.y b2 ->
      JPEGDRAW.y b2 < scaledSrcHeight ctx ->
      dstYStart (footprint ctx b1) <= d < dstYEnd (footprint ctx b2) ->
      dstYStart (footprint ctx b1) <= d < dstYEnd (footprint ctx b1)
      \/ dstYStart (footprint ctx b2) <= d < dstYEnd (footprint ctx b2)).
Proof.
  split; intros Hadj Hin.
  - unfold footprint; cbn -[mapToDst]. rewrite Hadj.
    replace (scaledSrcWidth ctx <=? JPEGDRAW.x b2) with false
      by (symmetry; apply Z.leb_gt; lia).
    intros Hd. split_ifs; lia.
  - unfold footprint; cbn -[mapToDst]. rewrite Hadj.
    replace (scaledSrcHeight ctx <=? JPEGDRAW.y b2) with false
      by (symmetry; apply Z.leb_gt; lia).
    intros Hd. split_ifs; lia.
Qed.

Lemma X5_neighbour_footprints_witness :
  (dstXStart (footprint progressiveCtx firstColumnBlock) <= 47
     < dstXEnd (footprint progressiveCtx firstColumnBlock)
   \/ dstXStart (footprint progressiveCtx secondColumnBlock) <= 47
        < dstXEnd (footprint progressiveCtx secondColumnBlock))
  /\ (dstYStart (footprint progressiveCtx firstColumnBlock) <= 6
        < dstYEnd (footprint progressiveCtx firstColumnBlock)
      \/ dstYStart (footprint progressiveCtx secondRowBlock) <= 6
           < dstYEnd (footprint progressiveCtx secondRowBlock)).
Proof.
  split.
  - apply (proj1 (X5_neighbour_footprints_leave_no_gap progressiveCtx
                    firstColumnBlock secondColumnBlock 47)).
    + reflexivity.
    + reflexivity.
    + vm_compute. intuition discriminate.
  - apply (proj2 (X5_neighbour_footprints_leave_no_gap progressiveCtx
                    firstColumnBlock secondRowBlock 6)).
    + reflexivity.
    + reflexivity.
    + vm_compute. intuition discriminate.
Defined.

(** ** Which samples are read *)

(** X6.  The nearest-neighbour path reads valid samples only: for a block
    with at least one valid column and one row the clamped column and row
    address a sample of the block, for every destination pixel and every
    inverse factor. *)
Theorem X6_nearest_path_reads_valid_samples
    (ctx : JpegContext) (b : JPEGDRAW.t) (dstX dstY : Z) :
  0 < JPEGDRAW.iWidthUsed b -> 0 < JPEGDRAW.iHeight b ->
  validSample b (nearestLx ctx b dstX) (nearestLy ctx b dstY).
Proof.
  intros Hw Hh. unfold validSample, nearestLx, nearestLy. cbn zeta.
  split; split_ifs; lia.
Qed.

Lemma X6_nearest_path_witness :
  validSample rampBlock (nearestLx downscaleCtx rampBlock 3)
    (nearestLy downscaleCtx rampBlock 2)
  /\ nearestLx downscaleCtx rampBlock 3 = 4
  /\ nearestLy downscaleCtx rampBlock 2 = 3.
Proof.
  split; [|split; reflexivity].
  apply (X6_nearest_path_reads_valid_samples downscaleCtx rampBlock 3 2).
  - vm_compute. reflexivity.
  - vm_compute. reflexivity.
Defined.

(** X7.  In the bilinear path the left edge loop reads two valid columns,
    the right edge loop never reads past the last valid column, the lower
    row is a row of the block and the upper row is not past its last row. *)
Theorem X7_bilinear_clamps
    (ctx : JpegContext) (b : JPEGDRAW.t) (dstX dstY : Z) :
  0 < JPEGDRAW.iWidthUsed b -> 0 < JPEGDRAW.iHeight b ->
  (0 <= fst (leftEdgeCols ctx b dstX) < JPEGDRAW.iWidthUsed b
   /\ 0 <= snd (leftEdgeCols ctx b dstX) < JPEGDRAW.iWidthUsed b)
  /\ (fst (rightEdgeCols ctx b dstX) < JPEGDRAW.iWidthUsed b
      /\ snd (rightEdgeCols ctx b dstX) < JPEGDRAW.iWidthUsed b)
  /\ (0 <= fst (bilinearRows ctx b dstY) < JPEGDRAW.iHeight b
      /\ snd (bilinearRows ctx b dstY) < JPEGDRAW.iHeight b).
Proof.
  intros Hw Hh.
  unfold leftEdgeCols, rightEdgeCols, bilinearRows. cbn [fst snd].
  set (lx0 := bilinearLx0 ctx b dstX).
  set (ly0 := Z.shiftr _ FP_SHIFT - JPEGDRAW.y b).
  repeat split; split_ifs; lia.
Qed.

Lemma X7_bilinear_clamps_witness :
  (0 <= fst (leftEdgeCols progressiveCtx secondColumnBlock 48)
     < JPEGDRAW.iWidthUsed secondColumnBlock
   /\ 0 <= snd (leftEdgeCols progressiveCtx secondColumnBlock 48)
        < JPEGDRAW.iWidthUsed secondColumnBlock)
  /\ (fst (rightEdgeCols progressiveCtx secondColumnBlock 95)
        < JPEGDRAW.iWidthUsed secondColumnBlock
      /\ snd (rightEdgeCols progressiveCtx secondColumnBlock 95)
           < JPEGDRAW.iWidthUsed secondColumnBlock).
Proof.
  split.
  - apply (proj1 (X7_bilinear_clamps progressiveCtx secondColumnBlock 48 0
                    ltac:(vm_compute; reflexivity) ltac:(vm_compute; reflexivity))).
  - apply (proj1 (proj2 (X7_bilinear_clamps progressiveCtx secondColumnBlock 95 0
                    ltac:(vm_compute; reflexivity) ltac:(vm_compute; reflexivity)))).
Defined.

(** ** Interpolation and quantisation *)

Lemma blend_between (a c f : Z) :
  0 <= f < 65536 ->
  Z.min a c <= (a * (65536 - f) + c * f) / 65536 <= Z.max a c.
Proof.
  intros Hf. split.
  - apply Z.div_le_lower_bound; [lia|].
    assert (Z.min a c * (65536 - f) <= a * (65536 - f))
      by (apply Z.mul_le_mono_nonneg_r; lia).
    assert (Z.min a c * f <= c * f) by (apply Z.mul_le_mono_nonneg_r; lia).
    lia.
  - apply Z.div_le_upper_bound; [lia|].
    assert (a * (65536 - f) <= Z.max a c * (65536 - f))
      by (apply Z.mul_le_mono_nonneg_r; lia).
    assert (c * f <= Z.max a c * f) by (apply Z.mul_le_mono_nonneg_r; lia).
    lia.
Qed.

(** X8.  The interpolated gray never leaves the range of the four bytes it
    blends, so the final cast to a byte loses nothing. *)
Theorem X8_bilinear_gray_within_samples
    (ctx : JpegContext) (b : JPEGDRAW.t) (rows cols : Z * Z) (dstX dstY : Z) :
  let px i := load (JPEGDRAW.pPixels b) i in
  let stride := JPEGDRAW.iWidth b in
  let s00 := px (fst rows * stride + fst cols) in
  let s01 := px (fst rows * stride + snd cols) in
  let s10 := px (snd rows * stride + fst cols) in
  let s11 := px (snd rows * stride + snd cols) in
  Z.min (Z.min s00 s01) (Z.min s10 s11)
    <= bilinearGray ctx b rows cols dstX dstY
    <= Z.max (Z.max s00 s01) (Z.max s10 s11).
Proof.
  cbv zeta. unfold bilinearGray. cbn zeta.
  set (s00 := load _ (fst rows * _ + fst cols)).
  set (s01 := load _ (fst rows * _ + snd cols)).
  set (s10 := load _ (snd rows * _ + fst cols)).
  set (s11 := load _ (snd rows * _ + snd cols)).
  rewrite !shiftr_FP, FP_ONE_val, !land_FP_MASK.
  set (fx := srcFP (invScaleFP ctx) dstX mod 65536).
  set (fy := srcFP (invScaleFP ctx) dstY mod 65536).
  assert (Hfx : 0 <= fx < 65536) by (apply Z.mod_pos_bound; lia).
  assert (Hfy : 0 <= fy < 65536) by (apply Z.mod_pos_bound; lia).
  pose proof (blend_between s00 s01 fx Hfx) as Htop.
  pose proof (blend_between s10 s11 fx Hfx) as Hbot.
  set (top := (s00 * (65536 - fx) + s01 * fx) / 65536) in *.
  set (bot := (s10 * (65536 - fx) + s11 * fx) / 65536) in *.
  pose proof (blend_between top bot fy Hfy) as Hgray.
  pose proof (load_range (JPEGDRAW.pPixels b)) as Hb.
  assert (H00 : 0 <= s00 < 256) by apply Hb.
  assert (H01 : 0 <= s01 < 256) by apply Hb.
  assert (H10 : 0 <= s10 < 256) by apply Hb.
  assert (H11 : 0 <= s11 < 256) by apply Hb.
  rewrite wrap8_id by lia. lia.
Qed.

(** X9.  Without dithering the quantiser maps a byte to [gray / 85]: the
    level is between 0 and 3, does not decrease when the sample grows, and
    is 3 for the sample 255 only. *)
Theorem X9_plain_quantiser_levels
    (dither : Z -> Z -> Z -> Z) (gray gray' outX outY : Z) :
  0 <= gray < 256 -> 0 <= gray' < 256 ->
  0 <= quantize dither false gray outX outY <= 3
  /\ (gray <= gray' ->
      quantize dither false gray outX outY <= quantize dither false gray' outX outY)
  /\ (quantize dither false gray outX outY = 3 <-> gray = 255)
  /\ (quantize dither false gray outX outY = 0 <-> gray < 85).
Proof.
  intros Hg Hg'. rewrite !quantize_plain by assumption.
  pose proof (div_bounds gray 85 ltac:(lia)) as Hd.
  pose proof (div_bounds gray' 85 ltac:(lia)) as Hd'.
  assert (H0 : 0 <= gray / 85) by (apply Z.div_pos; lia).
  repeat split; lia.
Qed.

Lemma X9_plain_quantiser_witness :
  0 <= quantize thresholdDither false 100 7 9 <= 3
  /\ quantize thresholdDither false 100 7 9 <= quantize thresholdDither false 200 7 9.
Proof.
  destruct (X9_plain_quantiser_levels thresholdDither 100 200 7 9
              ltac:(lia) ltac:(lia)) as (Hrange & Hmono & _).
  split; [exact Hrange | apply Hmono; lia].
Defined.

(** ** The interior loop *)

(** X10.  With the two factors the orchestrator computes, the upper column
    the interior loop reads is never past the last valid column of the
    block: for widths below 2^15 and every destination column of the safe
    range, [lx0 + 1 <= validW - 1].  Truncating both factors makes their
    product at most one, which is the side this bound needs. *)
Theorem X10_interior_upper_column_in_range
    (ctx : JpegContext) (b : JPEGDRAW.t) (dstX : Z) :
  0 < scaledSrcWidth ctx < 2 ^ 15 -> 0 < dstWidth ctx < 2 ^ 15 ->
  fineScaleFP ctx = computeFineScaleFP (dstWidth ctx) (scaledSrcWidth ctx) ->
  computeInvScaleFP (dstWidth ctx) (scaledSrcWidth ctx) = Some (invScaleFP ctx) ->
  0 <= JPEGDRAW.x b -> 0 < JPEGDRAW.iWidthUsed b ->
  edgesFitInt ctx b ->
  fst (safeRange ctx b) <= dstX < snd (safeRange ctx b) ->
  snd (interiorCols ctx b dstX) <= JPEGDRAW.iWidthUsed b - 1.
Proof.
  intros HS HD HFeq HIeq Hx Hw Hfit Hsafe.
  change (2 ^ 15) with 32768 in *.
  set (S := scaledSrcWidth ctx) in *. set (D := dstWidth ctx) in *.
  assert (HF : fineScaleFP ctx = D * 65536 / S)
    by (rewrite HFeq; apply computeFineScaleFP_div; nia).
  assert (HI : invScaleFP ctx = S * 65536 / D).
  { rewrite computeInvScaleFP_div in HIeq by nia. injection HIeq as <-.
    reflexivity. }
  assert (HF0 : 0 <= fineScaleFP ctx)
    by (rewrite HF; apply Z.div_pos; lia).
  assert (HI0 : 0 < invScaleFP ctx).
  { rewrite HI. apply Z.div_str_pos. lia. }
  assert (Hprod : fineScaleFP ctx * invScaleFP ctx <= FP_ONE * FP_ONE).
  { rewrite FP_ONE_val, HF, HI.
    pose proof (div_bounds (D * 65536) S ltac:(lia)) as HbF.
    pose proof (div_bounds (S * 65536) D ltac:(lia)) as HbI.
    set (F := D * 65536 / S) in *. set (I := S * 65536 / D) in *.
    assert (0 <= F) by (apply Z.div_pos; lia).
    assert (0 <= I) by (apply Z.div_pos; lia).
    assert (H1 : F * S * (I * D) <= D * 65536 * (S * 65536))
      by (apply Z.mul_le_mono_nonneg; nia).
    assert (H2 : F * I * (S * D) <= 65536 * 65536 * (S * D)) by lia.
    apply Z.mul_le_mono_pos_r with (p := S * D); [nia | exact H2]. }
  assert (Hrange : 0 <= dstX <= D).
  { destruct (footprint_start_lower ctx b) as [Hlow _].
    destruct (footprint_within_dst ctx b) as [Hup _]. fold D in Hup.
    destruct Hfit as [Hfx _].
    assert (Hxf : JPEGDRAW.x b * fineScaleFP ctx
                  <= (JPEGDRAW.x b + JPEGDRAW.iWidthUsed b) * fineScaleFP ctx)
      by (apply Z.mul_le_mono_nonneg_r; lia).
    rewrite mapToDst_div in Hlow by lia.
    assert (0 <= JPEGDRAW.x b * fineScaleFP ctx / 65536)
      by (apply Z.div_pos; [apply Z.mul_nonneg_nonneg|]; lia).
    revert Hsafe. unfold safeRange.
    cbn -[footprint wrap32 Z.shiftr FP_MASK FP_SHIFT mapToDst].
    set (fp := footprint ctx b) in *. set (rs := wrap32 _). set (re := wrap32 _).
    split_ifs; lia. }
  apply interior_upper_index_in_range; try assumption.
  destruct (inverse_product_fits D S dstX) as (I & HIs & _ & Hfits);
    [change (2 ^ 15) with 32768; lia|lia|lia|].
  rewrite HIeq in HIs. injection HIs as <-. exact Hfits.
Qed.

Lemma X10_interior_upper_column_witness :
  snd (interiorCols progressiveCtx secondColumnBlock 50)
  <= JPEGDRAW.iWidthUsed secondColumnBlock - 1.
Proof.
  apply (X10_interior_upper_column_in_range progressiveCtx secondColumnBlock 50).
  - vm_compute. intuition discriminate.
  - vm_compute. intuition discriminate.
  - reflexivity.
  - reflexivity.
  - vm_compute. discriminate.
  - vm_compute. reflexivity.
  - unfold edgesFitInt. vm_compute. intuition discriminate.
  - vm_compute. intuition discriminate.
Defined.

(** ** Scaled dimensions and the choice of the path *)

(** X11.  The scaled source dimension is the quotient rounded up: it is at
    least 1 for a positive source, so the forward factor never divides by
    zero, and [denom] times it covers the source with less than one
    [denom] to spare. *)
Theorem X11_scaled_dimension_rounds_up (src denom : Z) :
  0 < src -> 0 < denom ->
  1 <= scaledDim src denom
  /\ denom * (scaledDim src denom - 1) < src <= denom * scaledDim src denom.
Proof.
  intros Hs Hd. unfold scaledDim. rewrite Z.quot_div_nonneg by lia.
  pose proof (div_bounds (src + denom - 1) denom Hd) as Hb.
  set (q := (src + denom - 1) / denom) in *.
  assert (1 <= q) by (apply Z.div_le_lower_bound; lia).
  nia.
Qed.

Lemma X11_scaled_dimension_witness :
  1 <= scaledDim 600 8
  /\ 8 * (scaledDim 600 8 - 1) < 600 <= 8 * scaledDim 600 8.
Proof.
  apply (X11_scaled_dimension_rounds_up 600 8); lia.
Defined.

(** X12.  The path is chosen by comparing the widths: the forward factor is
    [FP_ONE] exactly when the destination is as wide as the scaled source,
    above it exactly when the destination is wider, below it exactly when it
    is narrower. *)
Theorem X12_path_follows_width_comparison (destW srcW : Z) :
  0 < srcW < 2 ^ 15 -> 0 < destW < 2 ^ 15 ->
  let F := computeFineScaleFP destW srcW in
  (F = FP_ONE <-> destW = srcW)
  /\ (FP_ONE < F <-> srcW < destW)
  /\ (F < FP_ONE <-> destW < srcW).
Proof.
  intros HS HD. cbv zeta. change (2 ^ 15) with 32768 in *.
  rewrite computeFineScaleFP_div by lia. rewrite FP_ONE_val.
  pose proof (div_bounds (destW * 65536) srcW ltac:(lia)) as Hb.
  set (F := destW * 65536 / srcW) in *.
  assert (Heq : destW = srcW -> F = 65536).
  { intros Hc. rewrite Hc in Hb.
    assert (F * srcW < 65537 * srcW) by lia.
    assert (65535 * srcW < F * srcW) by lia.
    assert (F < 65537) by (apply Z.mul_lt_mono_pos_r with (p := srcW); lia).
    assert (65535 < F) by (apply Z.mul_lt_mono_pos_r with (p := srcW); lia).
    lia. }
  assert (Hgt : srcW < destW -> 65536 < F).
  { intros Hlt.
    assert (65536 * srcW + 65536 <= destW * 65536) by lia.
    assert (65536 * srcW < F * srcW) by lia.
    apply Z.mul_lt_mono_pos_r with (p := srcW); lia. }
  assert (Hlt : destW < srcW -> F < 65536).
  { intros Hlt. apply Z.div_lt_upper_bound; lia. }
  repeat split; intros H; try auto;
    destruct (Z.lt_trichotomy destW srcW) as [Hc|[Hc|Hc]]; auto;
    try (specialize (Hlt Hc)); try (specialize (Hgt Hc));
    try (specialize (Heq Hc)); lia.
Qed.

Lemma X12_path_follows_width_witness :
  FP_ONE < computeFineScaleFP 300 100 <-> 100 < 300.
Proof.
  apply (proj1 (proj2 (X12_path_follows_width_comparison 300 100
                         ltac:(split; [lia | reflexivity])
                         ltac:(split; [lia | reflexivity])))).
Defined.

(** X13.  The scale option handed to the engine always names the denominator
    used for the scaled dimensions, for every target scale, NaN and
    infinities included. *)
Theorem X13_option_matches_denominator
    (isProgressive : bool) (ts : Float32.float) :
  let optionDenom o :=
    match o with
    | JPEG_SCALE_NONE => 1
    | JPEG_SCALE_HALF => 2
    | JPEG_SCALE_QUARTER => 4
    | JPEG_SCALE_EIGHTH => 8
    end in
  fst (selectJpegScale isProgressive ts)
  = optionDenom (snd (selectJpegScale isProgressive ts)).
Proof.
  cbv zeta. unfold selectJpegScale, chooseJpegScale.
  destruct isProgressive; [reflexivity|].
  destruct (Float32.leb ts Float32.eighth); [reflexivity|].
  destruct (Float32.leb ts Float32.quarter); [reflexivity|].
  destruct (Float32.leb ts Float32.half); reflexivity.
Qed.

(** X14.  For a baseline source the coarse decimation never shrinks below
    the target: the target scale is at most [1 / denom] whenever a
    denominator above 1 is chosen, and more than half of [1 / denom]
    whenever a denominator below 8 is chosen, so for the denominators 2 and 4
    the product of target scale and denominator lies above one half and is at
    most one. *)
Theorem X14_residual_scale (ts : Float32.float) :
  Float32.valid ts = true -> Float32.is_finite ts = true ->
  let denom := fst (selectJpegScale false ts) in
  (1 < denom -> (Float32.B2Q ts * inject_Z denom <= 1)%Q)
  /\ (denom < 8 -> (1 # 2 < Float32.B2Q ts * inject_Z denom)%Q).
Proof.
  intros Hv Hf. cbv zeta. unfold selectJpegScale, chooseJpegScale.
  rewrite !(leb_scaled ts) by (assumption || reflexivity).
  rewrite B2Q_eighth, B2Q_quarter, B2Q_half.
  set (q := Float32.B2Q ts). clearbody q. destruct q as [n d].
  assert (Hnle : forall c, Qle_bool (n # d) c = false -> (c < n # d)%Q).
  { intros c Hc. apply Qnot_le_lt. intros Hle.
    apply Qle_bool_iff in Hle. congruence. }
  destruct (Qle_bool (n # d) (1 # 8)) eqn:E8; cbn [fst].
  { apply Qle_bool_iff in E8. split; [intros _|intros H; lia].
    revert E8. unfold Qle, Qmult, inject_Z. cbn [Qnum Qden].
    rewrite Pos.mul_1_r. lia. }
  apply Hnle in E8.
  destruct (Qle_bool (n # d) (1 # 4)) eqn:E4; cbn [fst].
  { apply Qle_bool_iff in E4. revert E4 E8.
    unfold Qle, Qlt, Qmult, inject_Z. cbn [Qnum Qden].
    rewrite Pos.mul_1_r. lia. }
  apply Hnle in E4.
  destruct (Qle_bool (n # d) (1 # 2)) eqn:E2; cbn [fst].
  { apply Qle_bool_iff in E2. revert E2 E4.
    unfold Qle, Qlt, Qmult, inject_Z. cbn [Qnum Qden].
    rewrite Pos.mul_1_r. lia. }
  apply Hnle in E2. revert E2.
  unfold Qle, Qlt, Qmult, inject_Z. cbn [Qnum Qden].
  rewrite Pos.mul_1_r. lia.
Qed.

Lemma X14_residual_scale_witness :
  (Float32.B2Q Float32.quarter
   * inject_Z (fst (selectJpegScale false Float32.quarter)) <= 1)%Q
  /\ (1 # 2 < Float32.B2Q Float32.quarter
              * inject_Z (fst (selectJpegScale false Float32.quarter)))%Q.
Proof.
  destruct (X14_residual_scale Float32.quarter eq_refl eq_refl) as [Hle Hlt].
  split; [apply Hle | apply Hlt]; vm_compute; reflexivity.
Defined.

(** ** A whole decode *)

(** X15.  A decode draws no screen pixel twice: when the blocks the engine
    delivers lie in the scaled source and cover pairwise different samples
    of it, the output coordinates of all pixels drawn during the call are
    pairwise different, with or without caching and on success or failure of
    the engine's decode. *)
Theorem X15_decode_draws_no_pixel_twice
    (dither : Z -> Z -> Z -> Z) (w : World) (imagePath : string)
    (cfg : RenderConfig.t) :
  let size := computeTargetSize cfg (jpegWidth w) (jpegHeight w) in
  let option := snd (selectJpegScale (jpegProgressive w) (targetScale size)) in
  let blocks := decodeBlocks w option in
  (forall ctx,
     contextOf w cfg = Some ctx ->
     0 <= fineScaleFP ctx
     /\ Forall (blockInImage ctx) blocks
     /\ Forall (edgesFitInt ctx) blocks) ->
  pairwiseDisjoint blocks ->
  forall run,
    decodeToFramebuffer dither w imagePath cfg = Some run ->
    NoDup (drawCoords (snd run)).
Proof.
  unfold contextOf, decodeToFramebuffer. cbv zeta.
  intros Hctx Hdis run.
  destruct (freeHeap w <? MIN_FREE_HEAP_FOR_JPEG);
    [intros [= <-]; apply NoDup_nil_2|].
  destruct (negb (newDecoderOk w)); [intros [= <-]; apply NoDup_nil_2|].
  destruct (negb (openResult w =? 1)); [intros [= <-]; apply NoDup_nil_2|].
  destruct ((jpegWidth w <=? 0) || (jpegHeight w <=? 0));
    [intros [= <-]; apply NoDup_nil_2|].
  destruct (negb (validateImageDimensions w (jpegWidth w) (jpegHeight w)));
    [intros [= <-]; apply NoDup_nil_2|].
  destruct (selectJpegScale (jpegProgressive w)
              (targetScale (computeTargetSize cfg (jpegWidth w) (jpegHeight w))))
    as [denom opt] eqn:Hsel.
  cbn [fst snd] in *.
  set (size := computeTargetSize cfg (jpegWidth w) (jpegHeight w)) in *.
  set (active := negb (stringEmpty (RenderConfig.cachePath cfg))
                 && cacheAllocate w (destWidth size) (destHeight size)
                      (RenderConfig.x cfg) (RenderConfig.y cfg)).
  unfold makeContext in *. cbv zeta in *.
  destruct (computeInvScaleFP (destWidth size)
              (scaledDim (jpegWidth w) denom)) as [invScale|]; [|discriminate].
  destruct (Hctx _ eq_refl) as (HF & Hin & Hfit).
  set (ctx := {| config := cfg; caching := active |}).
  assert (Hblocks : NoDup (drawCoords
            (decodeBlocks w opt
               ≫= (fun pDraw => jpegDrawCallback dither ctx pDraw)))).
  { apply (decode_draws_each_pixel_once dither ctx (decodeBlocks w opt)).
    - exact HF.
    - exact Hin.
    - exact Hfit.
    - exact Hdis. }
  assert (Hevents : forall tail : list Event,
            drawCoords tail = [] ->
            NoDup (drawCoords
              (([EvNewDecoder; EvOpen imagePath; EvSetPixelType]
                ++ (if negb (stringEmpty (RenderConfig.cachePath cfg))
                    then [EvCacheAllocate (destWidth size) (destHeight size)
                            (RenderConfig.x cfg) (RenderConfig.y cfg)]
                    else [])
                ++ [EvDecode opt])
               ++ (decodeBlocks w opt
                     ≫= (fun pDraw => jpegDrawCallback dither ctx pDraw))
               ++ tail))).
  { intros tail Htail. rewrite !drawCoords_app, Htail, !app_nil_r.
    destruct (negb (stringEmpty (RenderConfig.cachePath cfg))); exact Hblocks. }
  destruct (negb (decodeResult w opt =? 1)); intros [= <-]; cbn [snd].
  - apply Hevents. reflexivity.
  - apply Hevents. fold active. destruct active; reflexivity.
Qed.

Lemma X15_decode_draws_no_pixel_twice_witness :
  exists run,
    decodeToFramebuffer thresholdDither twoBlockWorld "/book/cover.jpg"
      progressiveConfig = Some run
    /\ NoDup (drawCoords (snd run))
    /\ length (drawCoords (snd run)) = 576%nat.
Proof.
  assert (Hr : exists r,
            decodeToFramebuffer thresholdDither twoBlockWorld "/book/cover.jpg"
              progressiveConfig = Some r)
    by (eexists; vm_compute; reflexivity).
  destruct Hr as [r Hr]. exists r. split; [exact Hr|]. split.
  - apply (X15_decode_draws_no_pixel_twice thresholdDither twoBlockWorld
             "/book/cover.jpg" progressiveConfig); [| |exact Hr].
    + intros ctx Hctx.
      assert (ctx = progressiveCtx)
        by (revert Hctx; vm_compute; intros [= <-]; reflexivity).
      subst ctx. split; [vm_compute; discriminate|].
      split; repeat constructor; vm_compute; discriminate.
    + split; [constructor; [left; vm_compute; discriminate | constructor]|].
      split; [constructor | exact I].
  - revert Hr. vm_compute. intros [= <-]. reflexivity.
Defined.

(** ** The dimension query *)

(** X16.  Whenever a decode succeeds, the dimension query on the same source
    succeeds too and reports the dimensions the decode worked with, which are
    positive; and the query releases the decoder it created, closes the
    source it opened, and draws and caches nothing. *)
Theorem X16_query_agrees_with_decode
    (dither : Z -> Z -> Z -> Z) (toDimension : Z -> Z) (w : World)
    (imagePath : string) (cfg : RenderConfig.t) :
  fst <$> decodeToFramebuffer dither w imagePath cfg = Some true ->
  let query := getDimensionsStatic toDimension w imagePath in
  fst query = Some (toDimension (jpegWidth w), toDimension (jpegHeight w))
  /\ 0 < jpegWidth w /\ 0 < jpegHeight w
  /\ countEvents isNewDecoder (snd query) = 1%nat
  /\ countEvents isDeleteDecoder (snd query) = 1%nat
  /\ countEvents isClose (snd query) = 1%nat
  /\ List.filter isPixelEvent (snd query) = [].
Proof.
  unfold decodeToFramebuffer, getDimensionsStatic, countEvents. cbv zeta.
  destruct (freeHeap w <? MIN_FREE_HEAP_FOR_JPEG); [discriminate|].
  destruct (negb (newDecoderOk w)); [discriminate|].
  destruct (openResult w =? 1); cbn [negb]; [|discriminate].
  destruct (jpegWidth w <=? 0) eqn:Hw; [discriminate|].
  destruct (jpegHeight w <=? 0) eqn:Hh; [discriminate|].
  intros _. zbool. cbn. repeat split; lia.
Qed.

Lemma X16_query_agrees_witness :
  fst (getDimensionsStatic (fun z => z) twoBlockWorld "/book/cover.jpg")
  = Some (800, 600).
Proof.
  apply (X16_query_agrees_with_decode thresholdDither (fun z => z) twoBlockWorld
           "/book/cover.jpg" progressiveConfig).
  vm_compute. reflexivity.
Defined.

(** X17.  The dimension query releases the decoder it created on every path,
    also a failing one, closes the source exactly when the engine opened it,
    and never draws or caches a pixel. *)
Theorem X17_query_releases_decoder (toDimension : Z -> Z) (w : World)
    (imagePath : string) :
  let query := getDimensionsStatic toDimension w imagePath in
  countEvents isNewDecoder (snd query) = countEvents isDeleteDecoder (snd query)
  /\ countEvents isClose (snd query)
     = (if openResult w =? 1 then countEvents isNewDecoder (snd query) else 0%nat)
  /\ List.filter isPixelEvent (snd query) = [].
Proof.
  unfold getDimensionsStatic, countEvents. cbv zeta.
  destruct (freeHeap w <? MIN_FREE_HEAP_FOR_JPEG);
    [cbn; destruct (openResult w =? 1); auto|].
  destruct (negb (newDecoderOk w));
    [cbn; destruct (openResult w =? 1); auto|].
  destruct (openResult w =? 1); cbn; auto.
Qed.

(** ** Format dispatch *)

Ltac tolower_cases c :=
  let H := fresh "H" in
  destruct c as [[] [] [] [] [] [] [] []];
  (split;
   [ intro H; vm_compute in H;
     first [ discriminate H | left; reflexivity | right; reflexivity ]
   | intros [H | H]; first [ discriminate H | reflexivity ] ]).

Lemma tolower_j (c : ascii) :
  tolower c = "j"%char <-> c = "j"%char \/ c = "J"%char.
Proof. tolower_cases c. Qed.

Lemma tolower_p (c : ascii) :
  tolower c = "p"%char <-> c = "p"%char \/ c = "P"%char.
Proof. tolower_cases c. Qed.

Lemma tolower_e (c : ascii) :
  tolower c = "e"%char <-> c = "e"%char \/ c = "E"%char.
Proof. tolower_cases c. Qed.

Lemma tolower_g (c : ascii) :
  tolower c = "g"%char <-> c = "g"%char \/ c = "G"%char.
Proof. tolower_cases c. Qed.

Lemma tolower_dot (c : ascii) : tolower c = "."%char <-> c = "."%char.
Proof.
  destruct c as [[] [] [] [] [] [] [] []];
    (split; intro H; [vm_compute in H|]; first [discriminate H | reflexivity]).
Qed.

Lemma lowerString_nil (s : string) : lowerString s = EmptyString -> s = EmptyString.
Proof. destruct s; [reflexivity | discriminate]. Qed.

Lemma lowerString_cons (s : string) (c : ascii) (t : string) :
  lowerString s = String c t ->
  exists c' s', s = String c' s' /\ tolower c' = c /\ lowerString s' = t.
Proof.
  destruct s as [|c' s']; [discriminate|].
  cbn [lowerString]. intros H. injection H as Hc Ht. eauto.
Qed.

(** X18.  The accepted extensions are exactly a dot followed by the letters
    j, p, g or j, p, e, g, each letter in either case; nothing may precede or
    follow them. *)
Theorem X18_supported_extensions (extension : string) :
  supportsFormat extension = true <->
  exists j p g : ascii,
    (j = "j"%char \/ j = "J"%char) /\ (p = "p"%char \/ p = "P"%char)
    /\ (g = "g"%char \/ g = "G"%char)
    /\ (extension = String "." (String j (String p (String g EmptyString)))
        \/ exists e : ascii,
             (e = "e"%char \/ e = "E"%char)
             /\ extension
                = String "." (String j (String p (String e (String g EmptyString))))).
Proof.
  unfold supportsFormat. cbv zeta. rewrite orb_true_iff, !String.eqb_eq. split.
  - intros [H | H].
    + apply lowerString_cons in H as (c0 & s0 & -> & Hdot & H).
      apply lowerString_cons in H as (j & s1 & -> & Hj & H).
      apply lowerString_cons in H as (p & s2 & -> & Hp & H).
      apply lowerString_cons in H as (g & s3 & -> & Hg & H).
      apply lowerString_nil in H as ->.
      apply tolower_dot in Hdot as ->.
      exists j, p, g. rewrite <- tolower_j, <- tolower_p, <- tolower_g. auto.
    + apply lowerString_cons in H as (c0 & s0 & -> & Hdot & H).
      apply lowerString_cons in H as (j & s1 & -> & Hj & H).
      apply lowerString_cons in H as (p & s2 & -> & Hp & H).
      apply lowerString_cons in H as (e & s3 & -> & He & H).
      apply lowerString_cons in H as (g & s4 & -> & Hg & H).
      apply lowerString_nil in H as ->.
      apply tolower_dot in Hdot as ->.
      exists j, p, g. rewrite <- tolower_j, <- tolower_p, <- tolower_g.
      repeat (split; [assumption|]). right. exists e.
      rewrite <- tolower_e. auto.
  - intros (j & p & g & Hj & Hp & Hg & [-> | (e & He & ->)]).
    + left. cbn [lowerString].
      apply tolower_j in Hj as ->. apply tolower_p in Hp as ->.
      apply tolower_g in Hg as ->. reflexivity.
    + right. cbn [lowerString].
      apply tolower_j in Hj as ->. apply tolower_p in Hp as ->.
      apply tolower_g in Hg as ->. apply tolower_e in He as ->. reflexivity.
Qed.

(** ** File callbacks *)

(** X19.  Over a storage layer whose successful reads advance the file
    position by the count they return, whose successful seeks land on the
    requested position, and whose positions fit an [int32_t]: if the tracker
    agrees with the file position before a callback, a read returns a
    non-negative count, advances the tracker by exactly that count and, when
    the storage read did not fail, leaves tracker and file in agreement; a
    seek either succeeds, returns the requested position and leaves tracker
    and file in agreement there, or fails, returns -1 and leaves the tracker
    unchanged. *)
Theorem X19_callbacks_track_position
    (FsFile : Type) (fsRead : FsFile -> Z -> FsFile * Z)
    (fsSeek : FsFile -> Z -> FsFile * bool) (position : FsFile -> Z)
    (pFile : JPEGFILE FsFile) :
  (forall f len, fHandle pFile = Some f -> 0 <= snd (fsRead f len) ->
     position (fst (fsRead f len)) = position f + snd (fsRead f len)
     /\ in_int32 (position (fst (fsRead f len)))) ->
  (forall f p, fHandle pFile = Some f -> snd (fsSeek f p) = true ->
     position (fst (fsSeek f p)) = p) ->
  tracksPosition position pFile ->
  (forall len,
     let r := jpegRead fsRead pFile len in
     0 <= snd r
     /\ iPos (fst r) = iPos pFile + snd r
     /\ ((forall f, fHandle pFile = Some f -> 0 <= snd (fsRead f len)) ->
         tracksPosition position (fst r)))
  /\ (forall p,
        let r := jpegSeek fsSeek pFile p in
        (snd r = p /\ iPos (fst r) = p /\ tracksPosition position (fst r)
         /\ exists f, fHandle pFile = Some f /\ snd (fsSeek f p) = true)
        \/ (snd r = -1 /\ iPos (fst r) = iPos pFile)).
Proof.
  intros Hread Hseek Htrack. unfold tracksPosition in Htrack.
  split.
  - intros len. unfold jpegRead. cbv zeta.
    destruct (fHandle pFile) as [f|] eqn:Hf.
    + specialize (Hread f len eq_refl). destruct (fsRead f len) as [f' n] eqn:Hr.
      cbn [fst snd] in Hread.
      destruct (n <? 0) eqn:Hn; zbool; cbn [fst snd iPos].
      * split; [lia|]. split; [lia|].
        intros Hok. specialize (Hok f eq_refl). rewrite Hr in Hok.
        cbn [snd] in Hok. lia.
      * assert (Hp : position f' = position f + n /\ in_int32 (position f'))
          by (apply Hread; lia).
        destruct Hp as [Hp Hfit].
        assert (Hw : wrap32 (iPos pFile + n) = iPos pFile + n).
        { apply wrap32_id. rewrite Htrack, <- Hp. exact Hfit. }
        rewrite Hw. split; [lia|]. split; [reflexivity|].
        intros _. unfold tracksPosition. cbn [fHandle iPos]. lia.
    + cbn [fst snd]. split; [lia|]. split; [lia|].
      intros _. unfold tracksPosition. rewrite Hf. exact I.
  - intros p. unfold jpegSeek. cbv zeta.
    destruct (fHandle pFile) as [f|] eqn:Hf.
    + specialize (Hseek f p eq_refl). destruct (fsSeek f p) as [f' ok] eqn:Hs.
      cbn [fst snd] in Hseek. destruct ok; cbn [negb fst snd iPos].
      * left. split; [reflexivity|]. split; [reflexivity|]. split.
        -- unfold tracksPosition. cbn [fHandle iPos]. symmetry. auto.
        -- exists f. rewrite Hs. auto.
      * right. auto.
    + right. cbn [fst snd]. auto.
Qed.

Lemma X19_callbacks_track_position_witness :
  (let r := jpegRead byteFileRead openedFile 4096 in
   0 <= snd r /\ iPos (fst r) = iPos openedFile + snd r
   /\ snd r = 90 /\ tracksPosition filePosition (fst r))
  /\ (let r := jpegSeek byteFileSeek openedFile 50 in snd r = 50).
Proof.
  assert (Hread : forall f len, fHandle openedFile = Some f ->
            0 <= snd (byteFileRead f len) ->
            filePosition (fst (byteFileRead f len)) = filePosition f + snd (byteFileRead f len)
            /\ in_int32 (filePosition (fst (byteFileRead f len)))).
  { intros f len Hf _. injection Hf as <-.
    unfold byteFileRead, in_int32. cbn [fst snd filePosition fileSize].
    change (2 ^ 31) with 2147483648. lia. }
  assert (Hseek : forall f p, fHandle openedFile = Some f ->
            snd (byteFileSeek f p) = true -> filePosition (fst (byteFileSeek f p)) = p).
  { intros f p _. unfold byteFileSeek.
    destruct ((0 <=? p) && (p <=? fileSize f)); cbn [fst snd filePosition];
      [reflexivity | discriminate]. }
  destruct (X19_callbacks_track_position ByteFile byteFileRead byteFileSeek filePosition
              openedFile Hread Hseek eq_refl) as [Hr Hs].
  split.
  - destruct (Hr 4096) as (H0 & H1 & H2).
    split; [exact H0|]. split; [exact H1|]. split; [reflexivity|].
    apply H2. intros f Hf. injection Hf as <-. vm_compute. discriminate.
  - reflexivity.
Defined.

(** ** The undefined call *)


